(** * Receipt parser: a shallow embedding of [src/services/parser.service.ts]

    The development follows the TypeScript source of [ReceiptParser]
    (the current implementation, lines 1-155 of the file; the earlier
    implementation kept after it in the same file is embedded in
    [EarlierParser]): the regular
    expressions are transcribed as syntax trees and run by a backtracking
    matcher that follows the ECMAScript matching rules, the string methods
    ([trim], [split], [toUpperCase], [includes], [replace], [match]) and the
    number functions ([parseFloat], [parseInt], [Math.max]) are modelled one
    by one, and [parse] is assembled from them in the order of the source.

    Conventions.
    - A text is a list of UTF-16 code units.  The embedding covers the code
      units 0..255 (the Latin-1 block), written as [ascii].
    - A JavaScript number is kept as the exact rational value of the decimal
      literal it was read from ([Fin q] stands for the double nearest to [q]);
      the tests the source makes on numbers ([> 0], truthiness) are modelled
      on the rounded value, see [JsNumber].
    - [new Date().getFullYear()] is the parameter [currentYear] of the
      functions that read the clock.
    - The number of arguments that the engine takes in one call is the
      parameter [argumentLimit] of the functions that spread an array. *)

From Stdlib Require Import Ascii String DecimalString.
From Stdlib Require Import Bool Arith ZArith QArith Qabs Lia List.
From Stdlib Require Qcanon DecimalPos.
Import ListNotations.

Set Implicit Arguments.
Open Scope nat_scope.

(** ** Code units *)

Definition text := list ascii.

Definition lit (s : string) : text := list_ascii_of_string s.
Arguments lit s%_string.

Module CodeUnit.

Definition code (c : ascii) : nat := nat_of_ascii c.

Definition in_range (lo hi : nat) (c : ascii) : bool :=
  (lo <=? code c) && (code c <=? hi).

(** [0-9] *)
Definition isDigit (c : ascii) : bool := in_range 48 57 c.

(** [a-zA-Z0-9] *)
Definition isAlnum (c : ascii) : bool :=
  in_range 97 122 c || in_range 65 90 c || in_range 48 57 c.

(** The class [\w] used by [\b]: letters, digits and the underscore. *)
Definition isWordChar (c : ascii) : bool := isAlnum c || (code c =? 95).

(** WhiteSpace and LineTerminator code units below 256: TAB, LF, VT, FF,
    CR, SPACE and NO-BREAK SPACE.  Used by [\s] and by [trim]. *)
Definition isWhiteSpace (c : ascii) : bool :=
  in_range 9 13 c || (code c =? 32) || (code c =? 160).

(** Simple (one unit to one unit) upper-case mapping.  The units 181 and
    255 map outside the block and 223 maps to two units; the three are
    fixed points here, as they are of the regular expression
    canonicalisation, which only compares images. *)
Definition upper_unit (c : ascii) : ascii :=
  if in_range 97 122 c
     || (in_range 224 254 c && negb (code c =? 247))
  then ascii_of_nat (code c - 32) else c.

Definition lower_unit (c : ascii) : ascii :=
  if in_range 65 90 c
     || (in_range 192 222 c && negb (code c =? 215))
  then ascii_of_nat (code c + 32) else c.

(** The canonical form of a unit under the [i] flag (without the [u]
    flag): its upper-case form when that is one unit.  Unit 223 is its own
    canonical form; the images of 181 and 255, outside the block and shared
    with no other unit of the block, are represented by 181 and 255. *)
Definition canonicalize (c : ascii) : ascii := upper_unit c.

(** The 256 units. *)
Definition allUnits : list ascii := map ascii_of_nat (List.seq 0 256).

End CodeUnit.

(** ** Regular expressions *)

Module Regex.
Import CodeUnit.

Inductive class_item : Type :=
| CChar (c : ascii)
| CRange (lo hi : ascii)
| CDigit
| CSpace.

(** [Group] is the capturing parenthesis; no pattern of the source has more
    than one, so one capture register suffices.  [(?: )] is plain nesting. *)
Inductive regex : Type :=
| Eps
| Lit (c : ascii)
| Class (invert : bool) (items : list class_item)
| Seq (r1 r2 : regex)
| Alt (r1 r2 : regex)
| Repeat (r : regex) (min : nat) (max : option nat)
| Group (r : regex)
| Bol
| Eol
| WordBoundary.

Definition item_has (it : class_item) (c : ascii) : bool :=
  match it with
  | CChar d => Ascii.eqb d c
  | CRange lo hi => in_range (code lo) (code hi) c
  | CDigit => isDigit c
  | CSpace => isWhiteSpace c
  end.

Definition class_has (items : list class_item) (c : ascii) : bool :=
  existsb (fun it => item_has it c) items.

(** CharacterSetMatcher: without the [i] flag the unit must be in the set;
    with it, some member of the set must have the same canonical form,
    that is be the unit itself, its upper-case or its lower-case form. *)
Definition set_match (ignoreCase : bool) (p : ascii -> bool) (c : ascii) : bool :=
  if ignoreCase then p c || p (upper_unit c) || p (lower_unit c) else p c.

Record mstate : Type := MState {
  before : text;            (* consumed input, last unit first *)
  after : text;             (* input still to read *)
  cap : option text         (* capture 1 *)
}.

Definition endIndex (x : mstate) : nat := length (before x).

Inductive res (A : Type) : Type :=
| Fail
| Exhausted
| Ok (a : A).
Arguments Fail {A}.
Arguments Exhausted {A}.

Definition orElse {A} (z : res A) (alt : res A) : res A :=
  match z with Fail => alt | _ => z end.

Definition step {A} (p : ascii -> bool) (x : mstate) (k : mstate -> res A) : res A :=
  match after x with
  | c :: rest =>
      if p c then k (MState (c :: before x) rest (cap x)) else Fail
  | [] => Fail
  end.

(** The text between two states of one run. *)
Definition between (x y : mstate) : text :=
  rev (firstn (endIndex y - endIndex x) (before y)).

Definition capture (x y : mstate) : mstate :=
  MState (before y) (after y) (Some (between x y)).

Definition prevIsWord (x : mstate) : bool :=
  match before x with c :: _ => isWordChar c | [] => false end.

Definition nextIsWord (x : mstate) : bool :=
  match after x with c :: _ => isWordChar c | [] => false end.

(** RepeatMatcher (greedy).  An iteration that is not required and matches
    the empty text is rejected, so every iteration past [min] consumes input
    and [min + length (after x) + 1] calls are enough: [Exhausted] is never
    returned by [matcher] (lemma [matcher_not_exhausted]).  A capture is
    not reset between iterations: no pattern of the source repeats a group. *)
Fixpoint repeatMatcher {A} (mr : mstate -> (mstate -> res A) -> res A)
    (fuel min : nat) (max : option nat) (x : mstate) (k : mstate -> res A)
    {struct fuel} : res A :=
  match fuel with
  | 0 => Exhausted
  | S fuel' =>
      match max with
      | Some 0 => k x
      | _ =>
          let d := fun y =>
            if (min =? 0) && (endIndex y =? endIndex x) then Fail
            else repeatMatcher mr fuel' (pred min) (option_map pred max) y k in
          if min =? 0 then orElse (mr x d) (k x) else mr x d
      end
  end.

Fixpoint matcher {A} (ignoreCase : bool) (r : regex) (x : mstate)
    (k : mstate -> res A) {struct r} : res A :=
  match r with
  | Eps => k x
  | Lit c => step (set_match ignoreCase (Ascii.eqb c)) x k
  | Class invert items =>
      step (fun c => xorb invert (set_match ignoreCase (class_has items) c)) x k
  | Seq r1 r2 => matcher ignoreCase r1 x (fun y => matcher ignoreCase r2 y k)
  | Alt r1 r2 => orElse (matcher ignoreCase r1 x k) (matcher ignoreCase r2 x k)
  | Repeat r' min max =>
      repeatMatcher (matcher ignoreCase r') (S (min + length (after x))) min max x k
  | Group r' => matcher ignoreCase r' x (fun y => k (capture x y))
  | Bol => match before x with [] => k x | _ => Fail end
  | Eol => match after x with [] => k x | _ => Fail end
  | WordBoundary => if xorb (prevIsWord x) (nextIsWord x) then k x else Fail
  end.

(** One match attempt at a fixed start position. *)
Definition matchAt (ignoreCase : bool) (r : regex) (bef aft : text) : option mstate :=
  match matcher ignoreCase r (MState bef aft None) (fun y => Ok y) with
  | Ok y => Some y
  | _ => None
  end.

(** The result of [exec]: the text before the match, the match, capture 1
    and the text after the match. *)
Record rmatch : Type := RMatch {
  prefix : text;
  matched : text;
  group1 : option text;
  suffix : text
}.

Definition result (bef : text) (y : mstate) : rmatch :=
  RMatch (rev bef) (between (MState bef [] None) y) (cap y) (after y).

(** [RegExp.prototype.exec] from a start position: the first position, left
    to right, at which the pattern matches. *)
Fixpoint execFrom (ignoreCase : bool) (r : regex) (bef aft : text) : option rmatch :=
  match matchAt ignoreCase r bef aft with
  | Some y => Some (result bef y)
  | None =>
      match aft with
      | [] => None
      | c :: aft' => execFrom ignoreCase r (c :: bef) aft'
      end
  end.

Definition exec (ignoreCase : bool) (r : regex) (s : text) : option rmatch :=
  execFrom ignoreCase r [] s.

(** [regex.test(s)] and, for a pattern without the [g] flag, the truth
    value of [s.match(regex)]. *)
Definition test (ignoreCase : bool) (r : regex) (s : text) : bool :=
  match exec ignoreCase r s with Some _ => true | None => false end.

(** The successive matches of a pattern with the [g] flag: after a match
    the search resumes at its end, one unit further when it was empty.
    [skip] counts the units of the last match still to step over. *)
Fixpoint scan (ignoreCase : bool) (r : regex) (bef aft : text) (skip : nat)
    : list rmatch :=
  match skip with
  | S n =>
      match aft with
      | [] => []
      | c :: aft' => scan ignoreCase r (c :: bef) aft' n
      end
  | 0 =>
      match matchAt ignoreCase r bef aft with
      | Some y =>
          result bef y ::
          match aft with
          | [] => []
          | c :: aft' => scan ignoreCase r (c :: bef) aft' (length (matched (result bef y)) - 1)
          end
      | None =>
          match aft with
          | [] => []
          | c :: aft' => scan ignoreCase r (c :: bef) aft' 0
          end
      end
  end.

(** [s.match(regex)] with the [g] flag ([null] is the empty list). *)
Definition matchAll (ignoreCase : bool) (r : regex) (s : text) : list text :=
  map matched (scan ignoreCase r [] s 0).

(** Shorthands used to transcribe the patterns. *)
Definition digit : regex := Class false [CDigit].
Definition star (r : regex) : regex := Repeat r 0 None.
Definition plus (r : regex) : regex := Repeat r 1 None.
Definition opt (r : regex) : regex := Repeat r 0 (Some 1).
Definition chr (s : string) : ascii :=
  match s with String c _ => c | EmptyString => Ascii.zero end.
Fixpoint word (s : string) : regex :=
  match s with
  | EmptyString => Eps
  | String c EmptyString => Lit c
  | String c s' => Seq (Lit c) (word s')
  end.
Fixpoint anyOf (ws : list string) : regex :=
  match ws with
  | [] => Class false []
  | [w] => word w
  | w :: ws' => Alt (word w) (anyOf ws')
  end.
Fixpoint seq (rs : list regex) : regex :=
  match rs with
  | [] => Eps
  | [r] => r
  | r :: rs' => Seq r (seq rs')
  end.

End Regex.

(** ** String methods *)

Module JsString.
Import CodeUnit Regex.

Fixpoint dropWhile (p : ascii -> bool) (s : text) : text :=
  match s with
  | c :: s' => if p c then dropWhile p s' else s
  | [] => []
  end.

Definition trimStart (s : text) : text := dropWhile isWhiteSpace s.
Definition trimEnd (s : text) : text := rev (dropWhile isWhiteSpace (rev s)).

(** [s.trim()] *)
Definition trim (s : text) : text := trimEnd (trimStart s).

(** [s.split(sep)] for a separator of one unit: never the empty array. *)
Fixpoint split (sep : ascii) (s : text) : list text :=
  match s with
  | [] => [[]]
  | c :: s' =>
      if Ascii.eqb c sep then [] :: split sep s'
      else match split sep s' with
           | part :: parts => (c :: part) :: parts
           | [] => [[c]]
           end
  end.

Fixpoint startsWith (w s : text) : bool :=
  match w, s with
  | [], _ => true
  | a :: w', b :: s' => Ascii.eqb a b && startsWith w' s'
  | _ :: _, [] => false
  end.

(** [s.includes(w)] *)
Fixpoint includes (s w : text) : bool :=
  startsWith w s ||
  match s with
  | [] => false
  | _ :: s' => includes s' w
  end.

Definition includesChar (s : text) (c : ascii) : bool := existsb (Ascii.eqb c) s.

(** [s.lastIndexOf(c)] for a unit [c]: [-1] when absent. *)
Fixpoint lastIndexFrom (c : ascii) (s : text) (i : Z) (found : Z) : Z :=
  match s with
  | [] => found
  | d :: s' => lastIndexFrom c s' (i + 1) (if Ascii.eqb d c then i else found)
  end.
Definition lastIndexOf (s : text) (c : ascii) : Z := lastIndexFrom c s 0 (-1).

(** [s.toUpperCase()].  Unit 223 (sharp s) becomes "SS"; the units 181 and
    255, whose upper-case forms lie outside the block, are left in place:
    the source only searches the result for ASCII words and white space,
    which neither form contains. *)
Definition toUpperCase (s : text) : text :=
  flat_map (fun c => if code c =? 223 then lit "SS" else [upper_unit c]) s.

(** [s.replace(c, r)] with a one-unit string pattern: the first occurrence. *)
Fixpoint replaceChar (c : ascii) (r : text) (s : text) : text :=
  match s with
  | [] => []
  | d :: s' => if Ascii.eqb d c then r ++ s' else d :: replaceChar c r s'
  end.

(** [s.replace(regex, r)] without the [g] flag.  The replacement texts of
    the source hold no [$] pattern and are inserted as they are. *)
Definition replace (ignoreCase : bool) (re : regex) (r : text) (s : text) : text :=
  match exec ignoreCase re s with
  | Some m => prefix m ++ r ++ suffix m
  | None => s
  end.

(** [s.replace(regex, r)] with the [g] flag: the walk of [Regex.scan],
    copying the units outside the matches. *)
Fixpoint replaceScan (ignoreCase : bool) (re : regex) (r : text)
    (bef aft : text) (skip : nat) : text :=
  match skip with
  | S n =>
      match aft with
      | [] => []
      | c :: aft' => replaceScan ignoreCase re r (c :: bef) aft' n
      end
  | 0 =>
      match matchAt ignoreCase re bef aft with
      | Some y =>
          r ++
          match aft with
          | [] => []
          | c :: aft' =>
              match length (matched (result bef y)) with
              | 0 => c :: replaceScan ignoreCase re r (c :: bef) aft' 0
              | S n => replaceScan ignoreCase re r (c :: bef) aft' n
              end
          end
      | None =>
          match aft with
          | [] => []
          | c :: aft' => c :: replaceScan ignoreCase re r (c :: bef) aft' 0
          end
      end
  end.

Definition replaceAll (ignoreCase : bool) (re : regex) (r : text) (s : text) : text :=
  replaceScan ignoreCase re r [] s 0.

Definition isEmpty (s : text) : bool :=
  match s with [] => true | _ => false end.

End JsString.

(** ** Numbers *)

Module JsNumber.
Import CodeUnit JsString.

(** [Fin q] stands for the double nearest to the rational [q]. *)
Inductive number : Type :=
| NaN
| Inf (negative : bool)
| Fin (q : Q).

Fixpoint span (p : ascii -> bool) (s : text) : text * text :=
  match s with
  | c :: s' =>
      if p c then let (a, b) := span p s' in (c :: a, b) else ([], s)
  | [] => ([], [])
  end.

Definition digitsValue (ds : text) : Z :=
  fold_left (fun acc c => (10 * acc + Z.of_nat (code c - 48))%Z) ds 0%Z.

(** The value [m * 10^e], in lowest terms. *)
Definition scale10 (m e : Z) : Q :=
  Qred (if (0 <=? e)%Z then (m * 10 ^ e)%Z # 1
        else m # Z.to_pos (10 ^ (- e))).

Definition signOf (s : text) : bool * text :=
  match s with
  | c :: s' =>
      if Ascii.eqb c "-" then (true, s')
      else if Ascii.eqb c "+" then (false, s')
      else (false, s)
  | [] => (false, [])
  end.

(** ExponentPart: [e] or [E], an optional sign and at least one digit;
    anything else is not part of the literal and counts as exponent 0. *)
Definition exponentOf (s : text) : Z :=
  match s with
  | c :: s' =>
      if Ascii.eqb c "e" || Ascii.eqb c "E" then
        let (neg, s'') := signOf s' in
        match fst (span isDigit s'') with
        | [] => 0%Z
        | ds => if neg then (- digitsValue ds)%Z else digitsValue ds
        end
      else 0%Z
  | [] => 0%Z
  end.

(** [parseFloat(s)]: leading white space is skipped and the longest prefix
    that is a decimal literal is read; [NaN] when there is none. *)
Definition parseFloat (s : text) : number :=
  let (neg, s1) := signOf (trimStart s) in
  if startsWith (lit "Infinity") s1 then Inf neg
  else
    let (ip, s2) := span isDigit s1 in
    let (fp, s3) :=
      match s2 with
      | c :: s2' => if Ascii.eqb c "." then span isDigit s2' else ([], s2)
      | [] => ([], s2)
      end in
    match ip ++ fp with
    | [] => NaN
    | ds =>
        let m := digitsValue ds in
        Fin (scale10 (if neg then (- m)%Z else m)
                     (exponentOf s3 - Z.of_nat (length fp)))
    end.

(** [parseInt(s)] in base ten ([None] is [NaN]).  The source applies it
    to four digits, so the prefix [0x] is not modelled. *)
Definition parseInt (s : text) : option Z :=
  let (neg, s1) := signOf (trimStart s) in
  match fst (span isDigit s1) with
  | [] => None
  | ds => Some (if neg then (- digitsValue ds)%Z else digitsValue ds)
  end.

(** [isNaN(n)] *)
Definition isNaN (n : number) : bool :=
  match n with NaN => true | _ => false end.

(** The double nearest to [q] is zero: [|q| <= 2^-1075], half the least
    positive double (the tie goes to the even neighbour, zero). *)
Definition roundsToZero (q : Q) : bool :=
  Qle_bool (Qabs q) (1 # 2 ^ 1075).

(** [n > 0] *)
Definition isPositive (n : number) : bool :=
  match n with
  | NaN => false
  | Inf negative => negb negative
  | Fin q => Qle_bool 0 q && negb (roundsToZero q)
  end.

(** Truthiness of a number: neither zero nor [NaN]. *)
Definition truthy (n : number) : bool :=
  match n with
  | NaN => false
  | Inf _ => true
  | Fin q => negb (roundsToZero q)
  end.

Definition max2 (a b : number) : number :=
  match a, b with
  | NaN, _ | _, NaN => NaN
  | Inf false, _ | _, Inf false => Inf false
  | Inf true, x | x, Inf true => x
  | Fin p, Fin q => if Qle_bool p q then Fin q else Fin p
  end.

(** [Math.max(...l)]: minus infinity for no argument. *)
Definition Math_max (l : list number) : number :=
  fold_left max2 l (Inf true).

(** [`${n}`] for an integer. *)
Definition toString (n : Z) : text :=
  lit (NilZero.string_of_int (Z.to_int n)).

(** An exception raised by a call.  The calls of the source raise one
    only: the [RangeError] of a spread call with too many arguments. *)
Inductive exception : Type := RangeError.

(** How a call ends. *)
Inductive completion (A : Type) : Type :=
| Returns (a : A)
| Throws (e : exception).
Arguments Throws {A}.

(** [Math.max(...l)]: the elements of [l] are passed as the arguments of
    one call, and the engine raises [RangeError] when there are more of
    them than it takes.  How many it takes depends on the engine and on
    the stack that is left: it is the parameter [argumentLimit]. *)
Definition Math_max_spread (argumentLimit : nat) (l : list number)
    : completion number :=
  if argumentLimit <? length l then Throws RangeError else Returns (Math_max l).

End JsNumber.

(** ** The parser *)

Module ReceiptParser.
Import CodeUnit Regex JsString JsNumber.

Record ReceiptData : Type := mkReceiptData {
  rawText : text;
  vendorName : option text;
  date : option text;
  invoiceNumber : option text;
  amount : option number;
  subtotalAmount : option number;
  taxAmount : option number
}.

Definition newLine : ascii := ascii_of_nat 10.

(** [/(\d{4})/] *)
Definition yearRegex : regex := Group (Repeat digit 4 (Some 4)).

(** [isValidDate]: the first run of four digits, read as a year, lies
    between 2000 and the year after the current one. *)
Definition isValidDate (currentYear : Z) (dateStr : text) : bool :=
  match exec false yearRegex dateStr with
  | None => false
  | Some m =>
      match group1 m with
      | None => false
      | Some g =>
          match parseInt g with
          | None => false
          | Some year => ((2000 <=? year) && (year <=? currentYear + 1))%Z
          end
      end
  end.

(** [/[^\d.,]/g] *)
Definition notPriceChar : regex := Class true [CDigit; CChar "."; CChar ","].

(** [/[.,]+$/] *)
Definition trailingPunct : regex :=
  Seq (plus (Class false [CChar "."; CChar ","])) Eol.

(** The cleaned text of [parsePrice]: digits, dots and commas only,
    without the dots and commas at its end. *)
Definition cleanText (t : text) : text :=
  replace false trailingPunct [] (trim (replaceAll false notPriceChar [] t)).

(** The last element of [s.split(sep)]. *)
Definition lastPart (sep : ascii) (s : text) : text := last (split sep s) [].

(** The text handed to [parseFloat]. *)
Definition normalizedNum (cleanText : text) : text :=
  let hasComma := includesChar cleanText "," in
  let hasDot := includesChar cleanText "." in
  if hasComma && hasDot then
    let lastComma := lastIndexOf cleanText "," in
    let lastDot := lastIndexOf cleanText "." in
    if (lastDot <? lastComma)%Z then
      replaceChar "," (lit ".") (replaceAll false (Lit ".") [] cleanText)
    else
      replaceAll false (Lit ",") [] cleanText
  else if hasComma || hasDot then
    let separator := (if hasComma then "," else ".")%char in
    if length (lastPart separator cleanText) =? 3 then
      replaceAll false (Lit separator) [] cleanText
    else
      replaceAll false (Lit ",") (lit ".") cleanText
  else cleanText.

(** [isNaN(number) ? undefined : number] *)
Definition definedNumber (n : number) : option number :=
  if isNaN n then None else Some n.

Definition parsePrice (t : text) : option number :=
  if isEmpty (cleanText t) then None
  else definedNumber (parseFloat (normalizedNum (cleanText t))).

(** [/[a-zA-Z0-9]/] *)
Definition alnumRegex : regex :=
  Class false [CRange "a" "z"; CRange "A" "Z"; CRange "0" "9"].

Definition skipWords : list text :=
  map lit ["BIENVENIDO"; "WELCOME"; "FACTURA"; "INVOICE"; "SENIAT"; "DGI";
           "RUC"; "RIF"; "NIT"; "FISCAL"; "ORIGINAL"; "COPIA"; "CLIENTE"]%string.

(** [/^(CALLE|AV|JR)\.?\s/] *)
Definition addressRegex : regex :=
  seq [Bol; Group (anyOf ["CALLE"; "AV"; "JR"]%string); opt (Lit ".");
       Class false [CSpace]].

Definition dateSep : regex :=
  Class false [CChar "-"; CChar "/"; CChar "."; CChar " "].

(** [/(\d{1,4}[-/. ]\d{1,2}[-/. ]\d{2,4})/] *)
Definition dateRegex : regex :=
  Group (seq [Repeat digit 1 (Some 4); dateSep; Repeat digit 1 (Some 2);
              dateSep; Repeat digit 2 (Some 4)]).

(** [/202[6-9]/] *)
Definition badYearRegex : regex :=
  Seq (word "202") (Class false [CRange "6" "9"]).

Definition space : regex := Class false [CSpace].

(** [/(?:factura|invoice|ticket|folio|chk|numero)\s*[:#.]?\s*([A-Z0-9-]+)/i] *)
Definition invoiceRegex : regex :=
  seq [anyOf ["factura"; "invoice"; "ticket"; "folio"; "chk"; "numero"]%string;
       star space;
       opt (Class false [CChar ":"; CChar "#"; CChar "."]);
       star space;
       Group (plus (Class false [CRange "A" "Z"; CRange "0" "9"; CChar "-"]))].

Definition digit09 : regex := Class false [CRange "0" "9"].
Definition dotComma : regex := Class false [CChar "."; CChar ","].

(** ["([0-9]{1,3}(?:[.,][0-9]{3})*(?:[.,][0-9]+)?)"] *)
Definition numberPattern : regex :=
  Group (seq [Repeat digit09 1 (Some 3);
              star (Seq dotComma (Repeat digit09 3 (Some 3)));
              opt (Seq dotComma (plus digit09))]).

(** [`(?:kw1|kw2|...)[^0-9\n]*[:$]?\s*${numberPattern}`], flag [i] *)
Definition amountRegex (keywords : list string) : regex :=
  seq [anyOf keywords;
       star (Class true [CRange "0" "9"; CChar newLine]);
       opt (Class false [CChar ":"; CChar "$"]);
       star space;
       numberPattern].

Definition taxRegex : regex :=
  amountRegex ["tax"; "iva"; "impuesto"; "itbms"; "vat"]%string.
Definition subtotalRegex : regex :=
  amountRegex ["subtotal"; "sub-total"]%string.
Definition totalRegex : regex :=
  amountRegex ["total"; "pagar"; "amount"; "suma"]%string.

(** [`\b${numberPattern}\b`], flag [g] *)
Definition fallbackRegex : regex :=
  seq [WordBoundary; numberPattern; WordBoundary].

(** Step 1 of [parse]: the trimmed lines longer than three units that hold
    a letter or a digit. *)
Definition lines (rawText : text) : list text :=
  filter (fun line => (3 <? length line) && test false alnumRegex line)
         (map trim (split newLine rawText)).

(** The condition of the vendor loop. *)
Definition vendorCandidate (line : text) : bool :=
  let upperLine := toUpperCase line in
  negb (existsb (fun w => includes upperLine w) skipWords)
  && negb (test false addressRegex upperLine)
  && (length line <? 50).

(** [rawText.match(new RegExp(dateRegex, 'g')) || []] *)
Definition allDateMatches (rawText : text) : list text :=
  matchAll false dateRegex rawText.

(** Falsy values of an optional string: [undefined] and the empty string. *)
Definition falsyText (o : option text) : bool :=
  match o with None => true | Some s => isEmpty s end.

(** Falsy values of an optional number: [undefined], zero and [NaN]. *)
Definition falsyNumber (o : option number) : bool :=
  match o with None => true | Some n => negb (truthy n) end.

(** Step 3 of [parse]: the first valid candidate, else the first candidate
    with its year corrected. *)
Definition extractDate (currentYear : Z) (rawText : text) : option text :=
  let matches := allDateMatches rawText in
  let found := find (isValidDate currentYear) matches in
  if falsyText found && (0 <? length matches) then
    match matches with
    | badDate :: _ =>
        if isEmpty badDate then found
        else Some (replace false badYearRegex (toString currentYear) badDate)
    | [] => found
    end
  else found.

(** A keyword-anchored amount: capture 1 of the first match, normalised.
    The outer [None] is "no match". *)
Definition extractAmount (ignoreCase : bool) (re : regex) (rawText : text)
    : option (option number) :=
  match exec ignoreCase re rawText with
  | Some m =>
      match group1 m with
      | Some g => Some (parsePrice g)
      | None => None
      end
  | None => None
  end.

Definition flatten {A} (o : option (option A)) : option A :=
  match o with Some x => x | None => None end.

(** [matches.map(p => parsePrice(p)).filter(p => p !== undefined && p > 0)] *)
Definition numericPrices (matches : list text) : list number :=
  flat_map (fun p => match parsePrice p with
                     | Some n => if isPositive n then [n] else []
                     | None => []
                     end) matches.

(** Step 6 of [parse]: entered when [data.amount] is falsy. *)
Definition fallbackAmount (rawText : text) (current : option number) : option number :=
  if falsyNumber current then
    match matchAll false fallbackRegex rawText with
    | [] => current
    | matches =>
        let prices := numericPrices matches in
        if 0 <? length prices then Some (Math_max prices) else current
    end
  else current.

Definition parse (currentYear : Z) (rawText : text) : ReceiptData :=
  (* 1. lines; 2. vendor name *)
  let vendor := find vendorCandidate (lines rawText) in
  (* 3. date *)
  let dateField := extractDate currentYear rawText in
  (* 4. invoice number *)
  let invoice :=
    match exec true invoiceRegex rawText with
    | Some m => group1 m
    | None => None
    end in
  (* 5. amounts *)
  let tax := flatten (extractAmount true taxRegex rawText) in
  let subtotal := flatten (extractAmount true subtotalRegex rawText) in
  let total := flatten (extractAmount true totalRegex rawText) in
  (* 6. fallback for the total *)
  let total' := fallbackAmount rawText total in
  mkReceiptData rawText vendor dateField invoice total' subtotal tax.

(** Step 6 of [parse] as a call: what it leaves in [data.amount], or the
    exception of [Math.max(...numericPrices)]. *)
Definition fallbackAmountOutcome (argumentLimit : nat) (rawText : text)
    (current : option number) : completion (option number) :=
  if falsyNumber current then
    match matchAll false fallbackRegex rawText with
    | [] => Returns current
    | matches =>
        let prices := numericPrices matches in
        if 0 <? length prices then
          match Math_max_spread argumentLimit prices with
          | Returns m => Returns (Some m)
          | Throws e => Throws e
          end
        else Returns current
    end
  else Returns current.

(** A call of [parse]: the record it returns, or the exception it raises.
    The function [parse] above is the record of a call that returns. *)
Definition parseOutcome (argumentLimit : nat) (currentYear : Z) (rawText : text)
    : completion ReceiptData :=
  let vendor := find vendorCandidate (lines rawText) in
  let dateField := extractDate currentYear rawText in
  let invoice :=
    match exec true invoiceRegex rawText with
    | Some m => group1 m
    | None => None
    end in
  let tax := flatten (extractAmount true taxRegex rawText) in
  let subtotal := flatten (extractAmount true subtotalRegex rawText) in
  let total := flatten (extractAmount true totalRegex rawText) in
  match fallbackAmountOutcome argumentLimit rawText total with
  | Returns total' =>
      Returns (mkReceiptData rawText vendor dateField invoice total' subtotal tax)
  | Throws e => Throws e
  end.

End ReceiptParser.

(** ** What a match is

    A declarative reading of the patterns: [Matches i r x y] says that [r]
    can take the matcher from state [x] to state [y].  It does not say
    which of several matches the backtracking search prefers. *)

Module RegexSpec.
Import CodeUnit Regex.

Inductive Matches (i : bool) : regex -> mstate -> mstate -> Prop :=
| M_Eps x : Matches i Eps x x
| M_Lit c d rest x :
    after x = d :: rest ->
    set_match i (Ascii.eqb c) d = true ->
    Matches i (Lit c) x (MState (d :: before x) rest (cap x))
| M_Class invert items d rest x :
    after x = d :: rest ->
    xorb invert (set_match i (class_has items) d) = true ->
    Matches i (Class invert items) x (MState (d :: before x) rest (cap x))
| M_Seq r1 r2 x y z :
    Matches i r1 x y -> Matches i r2 y z -> Matches i (Seq r1 r2) x z
| M_AltL r1 r2 x y : Matches i r1 x y -> Matches i (Alt r1 r2) x y
| M_AltR r1 r2 x y : Matches i r2 x y -> Matches i (Alt r1 r2) x y
| M_RepDone r min max x :
    max = Some 0 \/ min = 0 -> Matches i (Repeat r min max) x x
| M_RepIter r min max x y z :
    max <> Some 0 ->
    Matches i r x y ->
    (min = 0 -> endIndex y <> endIndex x) ->
    Matches i (Repeat r (pred min) (option_map pred max)) y z ->
    Matches i (Repeat r min max) x z
| M_Group r x y : Matches i r x y -> Matches i (Group r) x (capture x y)
| M_Bol x : before x = [] -> Matches i Bol x x
| M_Eol x : after x = [] -> Matches i Eol x x
| M_WordBoundary x :
    xorb (prevIsWord x) (nextIsWord x) = true -> Matches i WordBoundary x x.

(** [y] is [x] after reading some more input. *)
Definition Extends (x y : mstate) : Prop :=
  exists w, before y = rev w ++ before x /\ after x = w ++ after y.

(** A matcher in continuation style is sound for [r] when each of its
    successes goes through a match of [r]. *)
Definition sound_at {A} (i : bool) (r : regex)
    (mr : mstate -> (mstate -> res A) -> res A) : Prop :=
  forall x k a, mr x k = Ok a -> exists y, Matches i r x y /\ k y = Ok a.

(** A continuation that does not run out of fuel on the states that
    extend [x], and a matcher that preserves this. *)
Definition safe_cont {A} (x : mstate) (k : mstate -> res A) : Prop :=
  forall y, Extends x y -> k y <> Exhausted.

Definition safe {A} (mr : mstate -> (mstate -> res A) -> res A) : Prop :=
  forall x k, safe_cont x k -> mr x k <> Exhausted.

(** A matcher that looks at its continuation on the states that extend
    [x] only. *)
Definition respects {A} (mr : mstate -> (mstate -> res A) -> res A) : Prop :=
  forall x k1 k2,
    (forall y, Extends x y -> k1 y = k2 y) -> mr x k1 = mr x k2.

(** A lower bound on the length of a match. *)
Fixpoint minLen (r : regex) : nat :=
  match r with
  | Eps | Bol | Eol | WordBoundary => 0
  | Lit _ | Class _ _ => 1
  | Seq r1 r2 => minLen r1 + minLen r2
  | Alt r1 r2 => Nat.min (minLen r1) (minLen r2)
  | Repeat r' min max =>
      match max with
      | Some m => Nat.min min m * minLen r'
      | None => min * minLen r'
      end
  | Group r' => minLen r'
  end.

(** From [x] to [y] the matcher read the text [w]. *)
Definition Span (x : mstate) (w : text) (y : mstate) : Prop :=
  after x = w ++ after y /\ before y = rev w ++ before x.

(** A unit accepted by a class, under the [i] flag or not. *)
Definition accepts (i invert : bool) (items : list class_item) (c : ascii) : bool :=
  xorb invert (set_match i (class_has items) c).

(** The least number of iterations of a quantifier. *)
Definition atLeast (min : nat) (max : option nat) : nat :=
  match max with Some m => Nat.min min m | None => min end.

(** The units of [u] equal those of the word [w], letter case apart when
    the [i] flag is set. *)
Definition spells (i : bool) (w : string) (u : text) : Prop :=
  Forall2 (fun wc c => set_match i (Ascii.eqb wc) c = true) (list_ascii_of_string w) u.

(** The text made of the gaps and the pieces [cs] in turn, a gap first:
    [g0 ++ c1 ++ g1 ++ c2 ++ ... ++ gn]. *)
Fixpoint weave (gaps cs : list text) : text :=
  match gaps with
  | [] => []
  | g :: gaps' =>
      g ++ match cs with
           | [] => []
           | c :: cs' => c ++ weave gaps' cs'
           end
  end.

(** The pieces [cs] occur in [s] one after the other, without overlap. *)
Definition inOrderIn (s : text) (cs : list text) : Prop :=
  exists gaps, length gaps = S (length cs) /\ s = weave gaps cs.

(** The state in which an attempt starts after the prefix [p]. *)
Definition startAt (p rest : text) : mstate := MState (rev p) rest None.

(** [r] matches in [s] right after the prefix [p]. *)
Definition MatchesAt (i : bool) (r : regex) (p rest : text) : Prop :=
  exists y, Matches i r (startAt p rest) y.

End RegexSpec.

(** ** Reference readings of the price rules *)

Module PriceSpec.
Import CodeUnit JsString JsNumber.

(** A number that is not negative (and not [NaN]). *)
Definition nonneg (n : number) : Prop :=
  match n with
  | NaN => False
  | Inf negative => negative = false
  | Fin q => (0 <= q)%Q
  end.

(** A number that is strictly positive. *)
Definition positive (n : number) : Prop :=
  match n with
  | NaN => False
  | Inf negative => negative = false
  | Fin q => (0 < q)%Q
  end.

(** [parseFloat] on a text that starts with a digit, a dot or a comma:
    no white space to skip, no sign, no [Infinity]. *)
Definition readUnsigned (s : text) : number :=
  let (ip, s2) := span isDigit s in
  let (fp, s3) :=
    match s2 with
    | c :: s2' => if Ascii.eqb c "." then span isDigit s2' else ([], s2)
    | [] => ([], s2)
    end in
  match ip ++ fp with
  | [] => NaN
  | ds => Fin (scale10 (digitsValue ds) (exponentOf s3 - Z.of_nat (length fp)))
  end.

(** The order of the numbers that are not [NaN]. *)
Definition numLe (a b : number) : Prop :=
  match a, b with
  | Inf true, _ => True
  | _, Inf false => True
  | Fin p, Fin q => (p <= q)%Q
  | _, _ => False
  end.

(** [m] is a greatest element of [l]. *)
Definition isMaximumOf (l : list number) (m : number) : Prop :=
  In m l /\ Forall (fun n => numLe n m) l.

(** [o] is the number [q], up to the writing of the fraction. *)
Definition isNumber (o : option number) (q : Q) : Prop :=
  exists p, o = Some (Fin p) /\ (p == q)%Q.

(** The units a cleaned price is made of. *)
Definition priceChar (c : ascii) : bool :=
  isDigit c || Ascii.eqb c "." || Ascii.eqb c ",".

(** Every occurrence of [sep] removed: [sep] read as a grouping mark. *)
Definition removeAll (sep : ascii) (s : text) : text :=
  filter (fun c => negb (Ascii.eqb c sep)) s.

(** Every occurrence of [sep] turned into a dot: [sep] read as the
    decimal point. *)
Definition asDecimalPoint (sep : ascii) (s : text) : text :=
  map (fun c => if Ascii.eqb c sep then "."%char else c) s.

(** The two separators, one playing the part of [sep], the other of
    [other]. *)
Definition separators (sep other : ascii) : Prop :=
  (sep = "."%char /\ other = ","%char) \/ (sep = ","%char /\ other = "."%char).

End PriceSpec.

(** ** Sample texts and reference readings of the extractors *)

Module ParserSpec.
Import CodeUnit Regex RegexSpec JsString JsNumber ReceiptParser.

(** Lines joined by line feeds. *)
Fixpoint joinLines (ls : list text) : text :=
  match ls with
  | [] => []
  | [l] => l
  | l :: ls' => l ++ newLine :: joinLines ls'
  end.

(** The sample receipt of the mock OCR provider, line by line. *)
Definition sampleReceipt : text :=
  joinLines (map lit
    ["SUPERMARKET ABC"; "123 Main Street"; "Invoice #INV-2024-001";
     "Date: 2024-01-15"; "Item 1: $50.00"; "Item 2: $30.00";
     "Subtotal: $80.00"; "Tax (10%): $8.00"; "TOTAL: $88.00"]%string).

(** A receipt whose total line reads zero. *)
Definition zeroTotalReceipt : text :=
  joinLines (map lit ["TOTAL: 0.00"; "ITEM 5.00"]%string).

(** What the keyword-anchored total extractor found. *)
Definition keywordTotal (rawText : text) : option (option number) :=
  extractAmount true totalRegex rawText.

(** The fallback resolver set the amount: the amount left by the total
    extractor was falsy and some positive price was found in the text. *)
Definition setByFallback (rawText : text) : Prop :=
  falsyNumber (flatten (keywordTotal rawText)) = true
  /\ numericPrices (matchAll false fallbackRegex rawText) <> [].

(** [d] is the first element of [cs] that satisfies [ok]. *)
Definition firstSuch {A} (ok : A -> bool) (cs : list A) (d : A) : Prop :=
  exists l1 l2, cs = l1 ++ d :: l2 /\ ok d = true
                /\ Forall (fun c => ok c = false) l1.

(** [run] is a run of four digits of [d], right after the prefix [p]. *)
Definition yearRunAt (d p run : text) : Prop :=
  exists rest, d = p ++ run ++ rest
               /\ length run = 4 /\ Forall (fun c => isDigit c = true) run.

(** [run] is the first run of four digits of [d]. *)
Definition firstYearRun (d run : text) : Prop :=
  exists p, yearRunAt d p run
            /\ forall p' run', yearRunAt d p' run' -> length p <= length p'.

(** The validator in words: the first run of four digits of [d], read as
    a number, is a year from 2000 to the year after the current one. *)
Definition plausibleYear (currentYear : Z) (d : text) : Prop :=
  exists run, firstYearRun d run
              /\ (2000 <= digitsValue run <= currentYear + 1)%Z.

(** [c] holds one of 2026, 2027, 2028, 2029 right after the prefix [p]. *)
Definition badYearAt (c p rest : text) : Prop :=
  exists dg, c = p ++ lit "202" ++ dg :: rest /\ in_range 54 57 dg = true.

(** The year correction in words: the first of these four years written
    in [c], if any, is replaced by the text [yr]. *)
Definition yearCorrected (yr c c' : text) : Prop :=
  (exists p rest,
      badYearAt c p rest
      /\ (forall p' rest', badYearAt c p' rest' -> length p <= length p')
      /\ c' = p ++ yr ++ rest)
  \/ ((forall p rest, ~ badYearAt c p rest) /\ c' = c).

(** The shape of a date candidate: one to four digits, a separator, one
    or two digits, a separator, two to four digits. *)
Definition isDateSep (c : ascii) : bool :=
  Ascii.eqb c "-" || Ascii.eqb c "/" || Ascii.eqb c "." || Ascii.eqb c " ".

Definition digitRun (lo hi : nat) (w : text) : Prop :=
  lo <= length w <= hi /\ Forall (fun c => isDigit c = true) w.

Definition dateShaped (d : text) : Prop :=
  exists a s1 b s2 c,
    d = a ++ s1 :: b ++ s2 :: c
    /\ digitRun 1 4 a /\ isDateSep s1 = true
    /\ digitRun 1 2 b /\ isDateSep s2 = true
    /\ digitRun 2 4 c.

(** [w] occurs in [u]. *)
Definition isSubstring (w u : text) : Prop := exists a b, u = a ++ w ++ b.

(** [u] starts with a street-type abbreviation, an optional dot and a
    white space. *)
Definition addressPrefixed (u : text) : Prop :=
  exists kw c rest,
    In kw ["CALLE"; "AV"; "JR"]%string
    /\ isWhiteSpace c = true
    /\ (u = lit kw ++ c :: rest \/ u = lit kw ++ "."%char :: c :: rest).

(** The vendor condition in words. *)
Definition qualifies (line : text) : Prop :=
  (forall w, In w skipWords -> ~ isSubstring w (toUpperCase line))
  /\ ~ addressPrefixed (toUpperCase line)
  /\ length line < 50.

(** A normalized line of the text: a trimmed line, longer than three
    units, that holds a letter or a digit. *)
Definition normalizedLine (rawText line : text) : Prop :=
  exists raw, In raw (split newLine rawText)
              /\ line = trim raw
              /\ 3 < length line
              /\ exists c, In c line /\ isAlnum c = true.

(** A receipt that opens with document boilerplate in Spanish. *)
Definition facturaReceipt : text :=
  joinLines (map lit ["FACTURA ORIGINAL"; "ACME STORE"]%string).


(** The labels of an invoice number. *)
Definition invoiceAliases : list string :=
  ["factura"; "invoice"; "ticket"; "folio"; "chk"; "numero"]%string.

(** The units of an invoice number: ASCII letters of either case, digits
    and the hyphen. *)
Definition tokenChar (c : ascii) : bool := isAlnum c || Ascii.eqb c "-".

Definition isInvoiceSep (c : ascii) : bool :=
  Ascii.eqb c ":" || Ascii.eqb c "#" || Ascii.eqb c ".".

(** What may stand between the label and the number: white space, at most
    one of [:], [#], [.], white space. *)
Definition invoiceGap (gap : text) : Prop :=
  exists sp1 sepr sp2,
    gap = sp1 ++ sepr ++ sp2
    /\ Forall (fun c => isWhiteSpace c = true) sp1
    /\ Forall (fun c => isInvoiceSep c = true) sepr /\ length sepr <= 1
    /\ Forall (fun c => isWhiteSpace c = true) sp2.

(** [tok] is a labelled token of [s]: after the prefix [pre] come a label
    (letter case apart), a gap and [tok]. *)
Definition invoiceLabelled (s pre tok post : text) : Prop :=
  exists kw gap,
    s = pre ++ kw ++ gap ++ tok ++ post
    /\ (exists a, In a invoiceAliases /\ spells true a kw)
    /\ invoiceGap gap
    /\ tok <> [] /\ Forall (fun c => tokenChar c = true) tok.

(** A text of [n] prices: the units [1] and space, [n] times. *)
Definition manyPrices (n : nat) : text := concat (repeat (lit "1 ") n).

(** The unit before a position, if any, is no word unit. *)
Definition atBoundary (bef : text) : Prop :=
  match bef with c :: _ => isWordChar c = false | [] => True end.

(** The decimal digits of a natural number, without a leading zero. *)
Definition decimalDigits (n : Z) (ds : text) : Prop :=
  ds <> [] /\ Forall (fun c => isDigit c = true) ds
  /\ digitsValue ds = n
  /\ (forall rest, ds = "0"%char :: rest -> rest = []).

(** The decimal writing of an integer: its digits, after a minus sign
    when it is negative. *)
Definition decimalWriting (n : Z) (t : text) : Prop :=
  exists ds, decimalDigits (Z.abs n) ds
             /\ t = if (n <? 0)%Z then "-"%char :: ds else ds.

(** [d] is the longest text with the shape of a date at the start of
    [rest]. *)
Definition candidateAt (rest d post : text) : Prop :=
  rest = d ++ post /\ dateShaped d
  /\ forall d' post', rest = d' ++ post' -> dateShaped d' -> length d' <= length d.

(** [d] is the first date candidate of [s]: no text with the shape of a
    date starts before it, and it is the longest one at its place. *)
Definition firstCandidate (s pre d post : text) : Prop :=
  s = pre ++ d ++ post
  /\ candidateAt (d ++ post) d post
  /\ forall pre' d' post',
       s = pre' ++ d' ++ post' -> dateShaped d' -> length pre <= length pre'.

(** The date candidates of a text, in order of appearance: the first
    candidate, then the candidates of what follows it. *)
Inductive candidatesOf : text -> list text -> Prop :=
| CandidatesNone s :
    (forall pre d post, s = pre ++ d ++ post -> ~ dateShaped d) ->
    candidatesOf s []
| CandidatesNext s pre d post cs :
    firstCandidate s pre d post ->
    candidatesOf post cs ->
    candidatesOf s (d :: cs).

(** A text with two candidates, the second of which is plausible. *)
Definition twoDatesReceipt : text := lit "Due 01/01/1999 paid 15/03/2024".

(** A text with two candidates in years to come. *)
Definition futureDatesReceipt : text := lit "05/05/2027 06/06/2028".
















End ParserSpec.

(** ** Further reference readings *)

Module ExtraSpec.
Import CodeUnit Regex RegexSpec JsString JsNumber ReceiptParser PriceSpec ParserSpec.

(** One of the two separators of a price. *)
Definition isSeparator (c : ascii) : bool :=
  Ascii.eqb c "." || Ascii.eqb c ",".

(** The last unit of [s] is a digit. *)
Definition endsWithDigit (s : text) : Prop :=
  exists body d, s = body ++ [d] /\ isDigit d = true.

(** The first unit of [s] is a digit. *)
Definition startsWithDigit (s : text) : Prop :=
  exists d rest, s = d :: rest /\ isDigit d = true.

(** [s] has no white space at either end. *)
Definition trimmed (s : text) : Prop :=
  match s with c :: _ => isWhiteSpace c = false | [] => True end
  /\ match rev s with c :: _ => isWhiteSpace c = false | [] => True end.

(** The group [g] is a separator followed by the digits [ds]. *)
Definition sepThenDigits (g ds : text) : Prop :=
  exists sep, g = sep :: ds /\ isSeparator sep = true
              /\ Forall (fun c => isDigit c = true) ds.

(** The shape of an amount token: one to three digits, then groups of a
    separator and three digits, then at most one group of a separator and
    one digit or more. *)
Definition amountShaped (w : text) : Prop :=
  exists a groups frac,
    w = a ++ concat groups ++ frac
    /\ digitRun 1 3 a
    /\ Forall (fun g => exists ds, sepThenDigits g ds /\ length ds = 3) groups
    /\ (frac = [] \/ exists ds, sepThenDigits frac ds /\ ds <> []).

End ExtraSpec.

(** * The earlier implementation

    The second [ReceiptParser] class of [parser.service.ts]: [parsePrice]
    reads a token with two decimals, and [parse] has no exclusion list, no
    date validation and a loop on [exec] for the fallback. *)

Module EarlierParser.
Import CodeUnit Regex JsString JsNumber.

Definition digitOrComma : regex := Class false [CDigit; CChar ","].

(** [/([\d,]+\.\d{2})/] *)
Definition priceToken : regex :=
  Group (seq [plus digitOrComma; Lit "."; Repeat digit 2 (Some 2)]).

Definition parsePrice (t : text) : option number :=
  match exec false priceToken t with
  | Some m =>
      match group1 m with
      | Some g =>
          ReceiptParser.definedNumber (parseFloat (replaceAll false (Lit ",") [] g))
      | None => None
      end
  | None => None
  end.

(** [/(?:invoice|factura|folio|ticket|recibo)\s*[:#]?\s*([A-Z0-9-]+)/i] *)
Definition invoiceRegex : regex :=
  seq [anyOf ["invoice"; "factura"; "folio"; "ticket"; "recibo"]%string;
       star ReceiptParser.space;
       opt (Class false [CChar ":"; CChar "#"]);
       star ReceiptParser.space;
       Group (plus (Class false [CRange "A" "Z"; CRange "0" "9"; CChar "-"]))].

(** [[\s\w]] *)
Definition spaceOrWord : regex :=
  Class false [CSpace; CRange "a" "z"; CRange "A" "Z"; CRange "0" "9"; CChar "_"].

(** [/(?:kw1|kw2|...)[\s\w]*[:$]?\s*([\d,]+\.\d{2})/i] *)
Definition amountRegex (keywords : list string) : regex :=
  seq [anyOf keywords;
       star spaceOrWord;
       opt (Class false [CChar ":"; CChar "$"]);
       star ReceiptParser.space;
       priceToken].

Definition totalRegex : regex := amountRegex ["total"]%string.
Definition subtotalRegex : regex := amountRegex ["subtotal"; "sub-total"]%string.
Definition taxRegex : regex := amountRegex ["tax"; "iva"; "impuesto"; "vat"]%string.

(** [/[\$]?\s*([\d,]+\.\d{2})/g] *)
Definition priceRegex : regex :=
  seq [opt (Class false [CChar "$"]); star ReceiptParser.space; priceToken].

(** [rawText.split('\n').map(line => line.trim()).filter(line => line.length > 0)] *)
Definition lines (rawText : text) : list text :=
  filter (fun line => 0 <? length line)
         (map trim (split ReceiptParser.newLine rawText)).

Definition extractAmount (re : regex) (rawText : text) : option (option number) :=
  match exec true re rawText with
  | Some m =>
      match group1 m with
      | Some g => Some (parsePrice g)
      | None => None
      end
  | None => None
  end.

(** The loop [while ((match = priceRegex.exec(rawText)) !== null)]: each
    call of [exec] searches from [lastIndex], which a match sets to its
    end.  [None] when the fuel runs out before [exec] returns [null]. *)
Fixpoint execLoop (fuel : nat) (ignoreCase : bool) (r : regex) (bef aft : text)
    : option (list rmatch) :=
  match fuel with
  | 0 => None
  | S fuel' =>
      match execFrom ignoreCase r bef aft with
      | None => Some []
      | Some m =>
          match execLoop fuel' ignoreCase r
                         (rev (matched m) ++ rev (prefix m)) (suffix m) with
          | Some ms => Some (m :: ms)
          | None => None
          end
      end
  end.

(** The body of the loop: [if (price) allPrices.push(price)]. *)
Definition allPrices (ms : list rmatch) : list number :=
  flat_map (fun m => match group1 m with
                     | Some g =>
                         match parsePrice g with
                         | Some n => if truthy n then [n] else []
                         | None => []
                         end
                     | None => []
                     end) ms.

(** [parse]; [None] when the loop of the fallback runs out of fuel. *)
Definition parse (fuel : nat) (rawText : text) : option ReceiptParser.ReceiptData :=
  (* 1. lines; 2. vendor name *)
  let vendor := hd_error (lines rawText) in
  (* 3. date *)
  let dateField :=
    match exec false ReceiptParser.dateRegex rawText with
    | Some m => Some (matched m)
    | None => None
    end in
  (* 4. invoice number *)
  let invoice :=
    match exec true invoiceRegex rawText with
    | Some m => group1 m
    | None => None
    end in
  (* 5. amounts *)
  let total := ReceiptParser.flatten (extractAmount totalRegex rawText) in
  let subtotal := ReceiptParser.flatten (extractAmount subtotalRegex rawText) in
  let tax := ReceiptParser.flatten (extractAmount taxRegex rawText) in
  (* 6. fallback for the total *)
  if ReceiptParser.falsyNumber total then
    match execLoop fuel false priceRegex [] rawText with
    | Some ms =>
        let prices := allPrices ms in
        Some (ReceiptParser.mkReceiptData rawText vendor dateField invoice
                (if 0 <? length prices then Some (Math_max prices) else total)
                subtotal tax)
    | None => None
    end
  else
    Some (ReceiptParser.mkReceiptData rawText vendor dateField invoice total
                                      subtotal tax).

(** A call of the earlier [parse]: [None] when the loop runs out of
    fuel; else the record it returns, or the exception of
    [Math.max(...allPrices)].  The function [parse] above is the record
    of a call that returns. *)
Definition parseOutcome (argumentLimit fuel : nat) (rawText : text)
    : option (completion ReceiptParser.ReceiptData) :=
  let vendor := hd_error (lines rawText) in
  let dateField :=
    match exec false ReceiptParser.dateRegex rawText with
    | Some m => Some (matched m)
    | None => None
    end in
  let invoice :=
    match exec true invoiceRegex rawText with
    | Some m => group1 m
    | None => None
    end in
  let total := ReceiptParser.flatten (extractAmount totalRegex rawText) in
  let subtotal := ReceiptParser.flatten (extractAmount subtotalRegex rawText) in
  let tax := ReceiptParser.flatten (extractAmount taxRegex rawText) in
  if ReceiptParser.falsyNumber total then
    match execLoop fuel false priceRegex [] rawText with
    | Some ms =>
        let prices := allPrices ms in
        if 0 <? length prices then
          match Math_max_spread argumentLimit prices with
          | Returns m =>
              Some (Returns (ReceiptParser.mkReceiptData rawText vendor dateField
                               invoice (Some m) subtotal tax))
          | Throws e => Some (Throws e)
          end
        else
          Some (Returns (ReceiptParser.mkReceiptData rawText vendor dateField
                           invoice total subtotal tax))
    | None => None
    end
  else
    Some (Returns (ReceiptParser.mkReceiptData rawText vendor dateField invoice
                     total subtotal tax)).

End EarlierParser.

(** ** Reference readings for the earlier implementation *)

Module EarlierSpec.
Import CodeUnit Regex RegexSpec JsString JsNumber PriceSpec ParserSpec.

(** A digit or a comma. *)
Definition isDigitOrComma (c : ascii) : bool := isDigit c || Ascii.eqb c ",".

(** A price token: a run of digits and commas, a dot, two digits. *)
Definition priceTokenOf (w run dd : text) : Prop :=
  w = run ++ "."%char :: dd
  /\ run <> []
  /\ Forall (fun c => isDigitOrComma c = true) run
  /\ digitRun 2 2 dd.

(** The price of [ds] hundredths: the double nearest to the number that
    the digits [ds] write, divided by 100. *)
Definition hundredths (ds : text) : number := Fin (scale10 (digitsValue ds) (-2)).

(** A text made of white space only. *)
Definition blank (s : text) : Prop := Forall (fun c => isWhiteSpace c = true) s.

End EarlierSpec.

(** * The OCR service: the text layer of a PDF

    [processPdf] of [ocr.service.ts]: the page renderer handed to the PDF
    library, and the cleaning of the text the library returns. *)

Module OcrService.
Import CodeUnit Regex JsString.

(** [/  +/g] *)
Definition spaces : regex := Seq (Lit " ") (plus (Lit " ")).

(** [data.text.replace(/  +/g, ' ').trim()] *)
Definition cleanText (dataText : text) : text :=
  trim (replaceAll false spaces (lit " ") dataText).

(** The earlier [processPdf]: [data.text.trim()]. *)
Definition plainText (dataText : text) : text := trim dataText.

Section RenderPage.

(** The vertical position [item.transform[5]] of a text item, with the
    two tests the loop makes on it: [lastY == item.transform[5]] and
    [!lastY] for a position already read. *)
Variable Y : Type.
Variable looseEq : Y -> Y -> bool.
Variable falsy : Y -> bool.

Record textItem : Type := TextItem {
  str : text;
  transformY : Y
}.

(** The test [lastY == item.transform[5] || !lastY]; [lastY] is
    [undefined] before the first item. *)
Definition sameLine (lastY : option Y) (item : textItem) : bool :=
  match lastY with
  | None => true
  | Some l => looseEq l (transformY item) || falsy l
  end.

(** The loop of [render_page] over [textContent.items], from the state
    ([lastY], [text]); the text is called [txt] here. *)
Fixpoint renderItems (lastY : option Y) (txt : text) (items : list textItem) : text :=
  match items with
  | [] => txt
  | item :: rest =>
      renderItems (Some (transformY item))
                  (if sameLine lastY item
                   then txt ++ str item ++ lit " "
                   else txt ++ ReceiptParser.newLine :: str item ++ lit " ")
                  rest
  end.

Definition render_page (items : list textItem) : text := renderItems None [] items.

End RenderPage.

End OcrService.

(** ** Reference readings for the OCR service *)

Module OcrSpec.
Import CodeUnit JsString.

Definition isSpace (c : ascii) : bool := Ascii.eqb c " ".

Definition startsWithSpace (s : text) : bool :=
  match s with c :: _ => isSpace c | [] => false end.

(** Every run of two spaces or more replaced by one space. *)
Fixpoint squeeze (s : text) : text :=
  match s with
  | [] => []
  | c :: s' =>
      if isSpace c && startsWithSpace s' then squeeze s' else c :: squeeze s'
  end.

(** No two spaces in a row. *)
Fixpoint singleSpaced (s : text) : bool :=
  match s with
  | [] => true
  | c :: s' => negb (isSpace c && startsWithSpace s') && singleSpaced s'
  end.

Section Lines.
Variable Y : Type.
Variable looseEq : Y -> Y -> bool.
Variable falsy : Y -> bool.

(** The text of an item, with the space forced after it. *)
Definition piece (item : OcrService.textItem Y) : text :=
  OcrService.str item ++ lit " ".

(** The text of a line of items. *)
Definition lineText (line : list (OcrService.textItem Y)) : text :=
  concat (map piece line).

(** The items grouped into lines: an item starts a new line when the item
    before it has a truthy position different from its own. *)
Fixpoint groupLines (lastY : option Y) (current : list (OcrService.textItem Y))
    (items : list (OcrService.textItem Y)) : list (list (OcrService.textItem Y)) :=
  match items with
  | [] => [current]
  | item :: rest =>
      if OcrService.sameLine looseEq falsy lastY item
      then groupLines (Some (OcrService.transformY item)) (current ++ [item]) rest
      else current :: groupLines (Some (OcrService.transformY item)) [item] rest
  end.

End Lines.

End OcrSpec.

(** * The routes

    [routes/receipts]: the three handlers and the in-memory [Map] they
    share.  What the handlers get from outside (the uploaded file, the
    identifier drawn by [uuidv4], the outcome of the OCR provider, the
    time) is a parameter of the request. *)

Module Routes.
Import CodeUnit JsString JsNumber.

(** Equality of two strings. *)
Definition eqText (a b : text) : bool :=
  if list_eq_dec Ascii.ascii_dec a b then true else false.

(** [AppError] of [utils/errors.js], which is not among the sources: read
    from its uses in this file, [new AppError(statusCode, message)],
    [.statusCode] and [.message]. *)
Record AppError : Type := mkAppError {
  statusCode : nat;
  message : text
}.

Definition allowed : list text :=
  map lit ["image/png"; "image/jpeg"; "image/jpg"; "application/pdf"]%string.

(** [fileFilter]: [None] is [cb(null, true)], [Some e] is [cb(e)]. *)
Definition fileFilter (mimetype : text) : option AppError :=
  if existsb (eqText mimetype) allowed then None
  else Some (mkAppError 400 (lit "Only images and PDFs are allowed")).

(** The fields of [req.file] that the handler reads. *)
Record File : Type := mkFile {
  path : text;
  originalname : text
}.

Record ReceiptResult : Type := mkReceiptResult {
  id : text;
  filename : text;
  uploadedAt : text;
  data : ReceiptParser.ReceiptData
}.

(** [new Map<string, ReceiptResult>()]: the entries in insertion order. *)
Definition store : Type := list (text * ReceiptResult).

(** [receipts.set(k, v)]: the value of an existing key is replaced where
    it stands, a new key goes to the end. *)
Fixpoint mapSet (k : text) (v : ReceiptResult) (m : store) : store :=
  match m with
  | [] => [(k, v)]
  | (k', v') :: m' =>
      if eqText k' k then (k, v) :: m' else (k', v') :: mapSet k v m'
  end.

(** [receipts.get(k)] *)
Definition mapGet (k : text) (m : store) : option ReceiptResult :=
  match find (fun e => eqText (fst e) k) m with
  | Some e => Some (snd e)
  | None => None
  end.

(** [Array.from(receipts.values())] *)
Definition mapValues (m : store) : list ReceiptResult := map snd m.

(** What a handler can catch: an [AppError], or any other value. *)
Inductive thrown : Type :=
| ThrownAppError (e : AppError)
| ThrownOther.

Inductive body : Type :=
| JsonReceipt (r : ReceiptResult)
| JsonList (rs : list ReceiptResult)
| JsonError (error : text).

Record response : Type := mkResponse {
  status : nat;
  json : body
}.

(** A request to [POST /api/receipts], with what the handler gets from
    outside: [req.file], the value of [uuidv4()], the outcome of
    [ocrProvider.extractText(req.file.path)], the value of
    [new Date().toISOString()], the year of the clock read by the parser
    and the number of arguments the engine takes in the spread call of
    the parser. *)
Record upload : Type := mkUpload {
  file : option File;
  uuid : text;
  extractText : text + thrown;
  now : text;
  currentYear : Z;
  argumentLimit : nat
}.

(** The result of a handler: the response, the [Map] after it, and the
    paths given to [fs.unlink]. *)
Record outcome : Type := mkOutcome {
  sent : response;
  receipts : store;
  unlinked : list text
}.

(** The [catch] block of the POST handler, entered with a file: the file
    is unlinked and the error answered, as it is when it is an
    [AppError], as a 500 otherwise. *)
Definition caught (error : thrown) (f : File) (receipts : store) : outcome :=
  let appError :=
    match error with
    | ThrownAppError e => e
    | ThrownOther => mkAppError 500 (lit "Failed to process receipt")
    end in
  mkOutcome (mkResponse (statusCode appError) (JsonError (message appError)))
            receipts
            [path f].

(** [router.post('/api/receipts', ...)].  The calls of the [try] block
    that can throw are the OCR provider and [ReceiptParser.parse], whose
    [RangeError] is no [AppError]. *)
Definition postReceipt (u : upload) (receipts : store) : outcome :=
  match file u with
  | None =>
      mkOutcome (mkResponse 400 (JsonError (lit "No file uploaded"))) receipts []
  | Some f =>
      match extractText u with
      | inl rawText =>
          match ReceiptParser.parseOutcome (argumentLimit u) (currentYear u)
                                           rawText with
          | Returns parsedData =>
              let receiptResult :=
                mkReceiptResult (uuid u) (originalname f) (now u) parsedData in
              mkOutcome (mkResponse 201 (JsonReceipt receiptResult))
                        (mapSet (uuid u) receiptResult receipts)
                        [path f]
          | Throws _ => caught ThrownOther f receipts
          end
      | inr error => caught error f receipts
      end
  end.

(** [router.get('/api/receipts/:id', ...)]; [res.json] answers with the
    status 200. *)
Definition getReceipt (id : text) (receipts : store) : outcome :=
  match mapGet id receipts with
  | Some receipt => mkOutcome (mkResponse 200 (JsonReceipt receipt)) receipts []
  | None =>
      mkOutcome (mkResponse 404 (JsonError (lit "Receipt not found"))) receipts []
  end.

(** [router.get('/api/receipts', ...)] *)
Definition listReceipts (receipts : store) : outcome :=
  mkOutcome (mkResponse 200 (JsonList (mapValues receipts))) receipts [].

Inductive request : Type :=
| PostUpload (u : upload)
| GetById (id : text)
| ListAll.

Definition handle (req : request) (receipts : store) : outcome :=
  match req with
  | PostUpload u => postReceipt u receipts
  | GetById id => getReceipt id receipts
  | ListAll => listReceipts receipts
  end.

(** The [Map] after a sequence of requests. *)
Definition serve (reqs : list request) (receipts : store) : store :=
  fold_left (fun m req => Routes.receipts (handle req m)) reqs receipts.

End Routes.

(** ** Reference readings for the routes *)

Module RoutesSpec.
Import CodeUnit JsString JsNumber Routes.

(** The receipt built from an accepted upload. *)
Definition receiptOf (u : upload) (f : File) (rawText : text) : ReceiptResult :=
  mkReceiptResult (uuid u) (originalname f) (now u)
                  (ReceiptParser.parse (currentYear u) rawText).

(** An upload that is stored: it has a file, the OCR provider returned
    a text and the parser returned a record. *)
Definition accepted (u : upload) (r : ReceiptResult) : Prop :=
  exists f rawText,
    file u = Some f /\ extractText u = inl rawText
    /\ (exists parsedData,
          ReceiptParser.parseOutcome (argumentLimit u) (currentYear u) rawText
          = Returns parsedData)
    /\ r = receiptOf u f rawText.

(** Every entry stands under the identifier of its receipt, which was
    built from an accepted upload satisfying [P]; no key occurs twice. *)
Definition wellKeyed (P : upload -> Prop) (m : store) : Prop :=
  NoDup (map fst m)
  /\ forall k r, In (k, r) m -> id r = k /\ exists u, P u /\ accepted u r.

(** The requests that are uploads. *)
Definition isUpload (req : request) : bool :=
  match req with PostUpload _ => true | _ => false end.

End RoutesSpec.

(** * Properties of the matcher *)

Module RegexFacts.
Import CodeUnit Regex RegexSpec.

Lemma Extends_refl x : Extends x x.
Proof. exists []. split; reflexivity. Qed.

Lemma Extends_trans x y z : Extends x y -> Extends y z -> Extends x z.
Proof.
  intros [w1 [Hb1 Ha1]] [w2 [Hb2 Ha2]].
  exists (w1 ++ w2). split.
  - rewrite Hb2, Hb1, rev_app_distr, app_assoc. reflexivity.
  - rewrite Ha1, Ha2, app_assoc. reflexivity.
Qed.

Lemma Extends_step x d rest :
  after x = d :: rest -> Extends x (MState (d :: before x) rest (cap x)).
Proof. intros H. exists [d]. simpl. split; [reflexivity | exact H]. Qed.

Lemma Extends_capture x y z : Extends x y -> Extends x (capture z y).
Proof. intros [w H]. exists w. exact H. Qed.

Lemma Extends_length x y :
  Extends x y ->
  endIndex y = endIndex x + (length (after x) - length (after y))
  /\ length (after y) <= length (after x).
Proof.
  intros [w [Hb Ha]]. unfold endIndex.
  rewrite Hb, Ha, !length_app, length_rev. lia.
Qed.

Lemma Matches_Extends i r x y : Matches i r x y -> Extends x y.
Proof.
  induction 1;
    eauto using Extends_refl, Extends_trans, Extends_step, Extends_capture.
Qed.

Section Soundness.
Variable A : Type.
Variable i : bool.

Lemma step_sound p x k (a : A) :
  step p x k = Ok a ->
  exists d rest, after x = d :: rest /\ p d = true
                 /\ k (MState (d :: before x) rest (cap x)) = Ok a.
Proof.
  unfold step. destruct (after x) as [|d rest]; [discriminate|].
  destruct (p d) eqn:Hp; [|discriminate].
  intros H. exists d, rest. auto.
Qed.

Lemma repeatMatcher_sound r (mr : mstate -> (mstate -> res A) -> res A) :
  sound_at i r mr ->
  forall fuel min max,
    sound_at i (Repeat r min max) (fun x k => repeatMatcher mr fuel min max x k).
Proof.
  intros Hmr. induction fuel as [|fuel IH]; intros min max x k a; simpl.
  - discriminate.
  - assert (Hiter :
      (if min =? 0
       then orElse (mr x (fun y =>
              if (min =? 0) && (endIndex y =? endIndex x) then Fail
              else repeatMatcher mr fuel (pred min) (option_map pred max) y k)) (k x)
       else mr x (fun y =>
              if (min =? 0) && (endIndex y =? endIndex x) then Fail
              else repeatMatcher mr fuel (pred min) (option_map pred max) y k)) = Ok a ->
      max <> Some 0 ->
      exists y, Matches i (Repeat r min max) x y /\ k y = Ok a).
    { intros H Hmax.
      assert (Hd : forall z,
        mr x (fun y =>
              if (min =? 0) && (endIndex y =? endIndex x) then Fail
              else repeatMatcher mr fuel (pred min) (option_map pred max) y k) = Ok z ->
        exists y, Matches i (Repeat r min max) x y /\ k y = Ok z).
      { intros z Hz. apply Hmr in Hz. destruct Hz as [y [Hy Hk]].
        destruct ((min =? 0) && (endIndex y =? endIndex x)) eqn:Hc; [discriminate|].
        apply IH in Hk. destruct Hk as [y' [Hy' Hk']].
        exists y'. split; [|exact Hk'].
        eapply M_RepIter; eauto.
        intros Hm. subst min. simpl in Hc.
        apply Nat.eqb_neq in Hc. exact Hc. }
      destruct (min =? 0) eqn:Hmin.
      - destruct (mr x _) eqn:Hr in H; simpl in H.
        + exists x. split; [|exact H].
          apply M_RepDone. right. apply Nat.eqb_eq. exact Hmin.
        + discriminate.
        + inversion H; subst. apply Hd. exact Hr.
      - apply Hd. exact H. }
    destruct max as [[|m]|].
    + intros H. exists x. split; [apply M_RepDone; auto | exact H].
    + intros H. apply Hiter; [exact H | discriminate].
    + intros H. apply Hiter; [exact H | discriminate].
Qed.

Lemma matcher_sound r : sound_at i r (@matcher A i r).
Proof.
  induction r as [|c|invert items|r1 IH1 r2 IH2|r1 IH1 r2 IH2|r IH min max|r IH| | |];
    intros x k a; simpl; intros H.
  - exists x. split; [constructor | exact H].
  - apply step_sound in H. destruct H as [d [rest [Ha [Hp Hk]]]].
    eexists. split; [eapply M_Lit; eauto | exact Hk].
  - apply step_sound in H. destruct H as [d [rest [Ha [Hp Hk]]]].
    eexists. split; [eapply M_Class; eauto | exact Hk].
  - apply IH1 in H. destruct H as [y [Hy H]].
    apply IH2 in H. destruct H as [z [Hz H]].
    exists z. split; [econstructor; eauto | exact H].
  - destruct (matcher i r1 x k) eqn:H1; simpl in H.
    + apply IH2 in H. destruct H as [y [Hy H]].
      exists y. split; [apply M_AltR; exact Hy | exact H].
    + discriminate.
    + inversion H; subst. apply IH1 in H1. destruct H1 as [y [Hy H1]].
      exists y. split; [apply M_AltL; exact Hy | exact H1].
  - exact (repeatMatcher_sound IH (S (min + length (after x))) min max x k H).
  - apply IH in H. destruct H as [y [Hy H]].
    exists (capture x y). split; [constructor; exact Hy | exact H].
  - destruct (before x) eqn:Hb; [|discriminate].
    exists x. split; [constructor; exact Hb | exact H].
  - destruct (after x) eqn:Ha; [|discriminate].
    exists x. split; [constructor; exact Ha | exact H].
  - destruct (xorb (prevIsWord x) (nextIsWord x)) eqn:Hw; [|discriminate].
    exists x. split; [constructor; exact Hw | exact H].
Qed.

End Soundness.

(** The fuel of [repeatMatcher] is never used up. *)
Section Fuel.
Variable A : Type.

Lemma safe_cont_later x y (k : mstate -> res A) :
  Extends x y -> safe_cont x k -> safe_cont y k.
Proof. intros Hxy Hk z Hyz. apply Hk. eapply Extends_trans; eauto. Qed.

Lemma orElse_not_exhausted (z alt : res A) :
  z <> Exhausted -> alt <> Exhausted -> orElse z alt <> Exhausted.
Proof. destruct z; simpl; auto. Qed.

Lemma step_safe p : safe (fun x (k : mstate -> res A) => step p x k).
Proof.
  intros x k Hk. unfold step.
  destruct (after x) as [|d rest] eqn:Ha; [discriminate|].
  destruct (p d); [|discriminate].
  apply Hk. apply Extends_step. exact Ha.
Qed.

Lemma repeatMatcher_safe (mr : mstate -> (mstate -> res A) -> res A) :
  safe mr ->
  forall fuel min max x k,
    min + length (after x) < fuel ->
    safe_cont x k ->
    repeatMatcher mr fuel min max x k <> Exhausted.
Proof.
  intros Hmr. induction fuel as [|fuel IH]; intros min max x k Hfuel Hk.
  - lia.
  - simpl.
    assert (Hd : safe_cont x (fun y =>
              if (min =? 0) && (endIndex y =? endIndex x) then Fail
              else repeatMatcher mr fuel (pred min) (option_map pred max) y k)).
    { intros y Hxy.
      destruct ((min =? 0) && (endIndex y =? endIndex x)) eqn:Hc; [discriminate|].
      apply IH; [|eapply safe_cont_later; eauto].
      destruct (Extends_length Hxy) as [Hidx Hlen].
      destruct min as [|min']; simpl in *; [|lia].
      apply Nat.eqb_neq in Hc. lia. }
    assert (Hx : k x <> Exhausted) by (apply Hk, Extends_refl).
    destruct max as [[|m]|]; [exact Hx | |];
      (destruct (min =? 0);
       [apply orElse_not_exhausted; [apply Hmr; exact Hd | exact Hx]
       | apply Hmr; exact Hd]).
Qed.

Lemma matcher_not_exhausted i r : safe (@matcher A i r).
Proof.
  induction r as [|c|invert items|r1 IH1 r2 IH2|r1 IH1 r2 IH2|r IH min max|r IH| | |];
    intros x k Hk.
  - simpl. apply Hk, Extends_refl.
  - apply step_safe. exact Hk.
  - apply step_safe. exact Hk.
  - simpl. apply IH1. intros y Hxy. apply IH2.
    eapply safe_cont_later; eauto.
  - simpl. apply orElse_not_exhausted; [apply IH1 | apply IH2]; exact Hk.
  - change (repeatMatcher (matcher i r) (S (min + length (after x))) min max x k
            <> Exhausted).
    apply repeatMatcher_safe; [exact IH | lia | exact Hk].
  - simpl. apply IH. intros y Hxy. apply Hk.
    apply Extends_capture. exact Hxy.
  - simpl. destruct (before x); [apply Hk, Extends_refl | discriminate].
  - simpl. destruct (after x); [apply Hk, Extends_refl | discriminate].
  - simpl. destruct (xorb _ _); [apply Hk, Extends_refl | discriminate].
Qed.

End Fuel.

(** A failed attempt is a failure of the pattern, a successful one is a
    match in the sense of [Matches]. *)
Lemma matchAt_None i r bef aft :
  matchAt i r bef aft = None ->
  matcher i r (MState bef aft None) (fun y => Ok y) = Fail.
Proof.
  unfold matchAt. intros H.
  destruct (matcher i r _ _) eqn:Hm; [reflexivity | | discriminate].
  exfalso. revert Hm. apply matcher_not_exhausted. intros y _. discriminate.
Qed.

Lemma matchAt_Some i r bef aft y :
  matchAt i r bef aft = Some y -> Matches i r (MState bef aft None) y.
Proof.
  unfold matchAt. intros H.
  destruct (matcher i r _ _) eqn:Hm; try discriminate.
  inversion H; subst.
  apply matcher_sound in Hm. destruct Hm as [z [Hz Heq]].
  inversion Heq; subst. exact Hz.
Qed.

Lemma between_Extends x y w :
  before y = rev w ++ before x -> between x y = w.
Proof.
  intros Hb. unfold between, endIndex.
  rewrite Hb, length_app, length_rev.
  replace (length w + length (before x) - length (before x)) with (length (rev w))
    by (rewrite length_rev; lia).
  rewrite firstn_app, firstn_all, Nat.sub_diag. simpl.
  rewrite app_nil_r. apply rev_involutive.
Qed.

(** The shape of the result of one attempt. *)
Lemma result_shape i r bef aft y :
  matchAt i r bef aft = Some y ->
  aft = matched (result bef y) ++ suffix (result bef y)
  /\ prefix (result bef y) = rev bef
  /\ group1 (result bef y) = cap y
  /\ before y = rev (matched (result bef y)) ++ bef
  /\ Matches i r (MState bef aft None) y.
Proof.
  intros H. pose proof (matchAt_Some _ _ _ _ H) as Hm.
  destruct (Matches_Extends Hm) as [w [Hb Ha]]. simpl in Hb, Ha.
  unfold result. simpl.
  rewrite (@between_Extends (MState bef [] None) y w Hb).
  repeat split; auto.
Qed.

(** [exec] cuts the text in three. *)
Lemma execFrom_shape i r : forall aft bef m,
  execFrom i r bef aft = Some m ->
  exists p, prefix m = rev bef ++ p /\ aft = p ++ matched m ++ suffix m.
Proof.
  induction aft as [|c aft IH]; intros bef m; simpl.
  - destruct (matchAt i r bef []) eqn:Hm; [|discriminate].
    intros H. inversion H; subst.
    destruct (result_shape _ _ _ _ Hm) as [Ha [Hp _]].
    exists []. rewrite Hp, app_nil_r. split; [reflexivity | exact Ha].
  - destruct (matchAt i r bef (c :: aft)) eqn:Hm.
    + intros H. inversion H; subst.
      destruct (result_shape _ _ _ _ Hm) as [Ha [Hp _]].
      exists []. rewrite Hp, app_nil_r. split; [reflexivity | exact Ha].
    + intros H. apply IH in H. destruct H as [p [Hp Ha]].
      exists (c :: p). simpl in Hp. rewrite Hp, Ha, <- app_assoc.
      split; reflexivity.
Qed.

Lemma exec_shape i r s m :
  exec i r s = Some m -> s = prefix m ++ matched m ++ suffix m.
Proof.
  intros H. apply execFrom_shape in H. destruct H as [p [Hp Ha]].
  simpl in Hp. subst p. exact Ha.
Qed.

(** ** Completeness: a match that exists is not missed *)

Section Completeness.
Variable A : Type.
Variable i : bool.

Lemma repeatMatcher_respects (mr : mstate -> (mstate -> res A) -> res A) :
  respects mr ->
  forall fuel min max, respects (fun x k => repeatMatcher mr fuel min max x k).
Proof.
  intros Hmr. induction fuel as [|fuel IH]; intros min max x k1 k2 Hk; simpl.
  - reflexivity.
  - assert (Hx : k1 x = k2 x) by (apply Hk, Extends_refl).
    assert (Hd : mr x (fun y =>
                   if (min =? 0) && (endIndex y =? endIndex x) then Fail
                   else repeatMatcher mr fuel (pred min) (option_map pred max) y k1)
                 = mr x (fun y =>
                   if (min =? 0) && (endIndex y =? endIndex x) then Fail
                   else repeatMatcher mr fuel (pred min) (option_map pred max) y k2)).
    { apply Hmr. intros y Hxy.
      destruct ((min =? 0) && (endIndex y =? endIndex x)); [reflexivity|].
      apply IH. intros z Hyz. apply Hk. eapply Extends_trans; eauto. }
    rewrite Hd, Hx. reflexivity.
Qed.

Lemma matcher_respects r : respects (@matcher A i r).
Proof.
  induction r as [|c|invert items|r1 IH1 r2 IH2|r1 IH1 r2 IH2|r IH min max|r IH| | |];
    intros x k1 k2 Hk.
  - simpl. apply Hk, Extends_refl.
  - simpl. unfold step. destruct (after x) as [|d rest] eqn:Ha; [reflexivity|].
    destruct (set_match i (Ascii.eqb c) d); [|reflexivity].
    apply Hk, Extends_step, Ha.
  - simpl. unfold step. destruct (after x) as [|d rest] eqn:Ha; [reflexivity|].
    destruct (xorb invert (set_match i (class_has items) d)); [|reflexivity].
    apply Hk, Extends_step, Ha.
  - simpl. apply IH1. intros y Hxy. apply IH2. intros z Hyz.
    apply Hk. eapply Extends_trans; eauto.
  - simpl. rewrite (IH1 x k1 k2 Hk), (IH2 x k1 k2 Hk). reflexivity.
  - exact (@repeatMatcher_respects _ IH (S (min + length (after x))) min max x k1 k2 Hk).
  - simpl. apply IH. intros y Hxy. apply Hk, Extends_capture, Hxy.
  - simpl. destruct (before x); [apply Hk, Extends_refl | reflexivity].
  - simpl. destruct (after x); [apply Hk, Extends_refl | reflexivity].
  - simpl. destruct (xorb _ _); [apply Hk, Extends_refl | reflexivity].
Qed.

(** Any two sufficient amounts of fuel give the same result. *)
Lemma repeatMatcher_fuel (mr : mstate -> (mstate -> res A) -> res A) :
  respects mr ->
  forall f1 f2 min max x k,
    min + length (after x) < f1 ->
    min + length (after x) < f2 ->
    repeatMatcher mr f1 min max x k = repeatMatcher mr f2 min max x k.
Proof.
  intros Hmr. induction f1 as [|f1 IH]; intros f2 min max x k H1 H2; [lia|].
  destruct f2 as [|f2]; [lia|]. simpl.
  assert (Hd : mr x (fun y =>
                 if (min =? 0) && (endIndex y =? endIndex x) then Fail
                 else repeatMatcher mr f1 (pred min) (option_map pred max) y k)
               = mr x (fun y =>
                 if (min =? 0) && (endIndex y =? endIndex x) then Fail
                 else repeatMatcher mr f2 (pred min) (option_map pred max) y k)).
  { apply Hmr. intros y Hxy.
    destruct ((min =? 0) && (endIndex y =? endIndex x)) eqn:Hc; [reflexivity|].
    destruct (Extends_length Hxy) as [Hidx Hlen].
    apply IH.
    - destruct min as [|min']; simpl in *; [|lia].
      apply Nat.eqb_neq in Hc. lia.
    - destruct min as [|min']; simpl in *; [|lia].
      apply Nat.eqb_neq in Hc. lia. }
  rewrite Hd. reflexivity.
Qed.

Lemma orElse_not_Fail (z alt : res A) : z <> Fail -> orElse z alt <> Fail.
Proof. destruct z; simpl; congruence. Qed.

Lemma matcher_complete r x y :
  Matches i r x y ->
  forall k : mstate -> res A, k y <> Fail -> matcher i r x k <> Fail.
Proof.
  induction 1 as [x|c d rest x Ha Hp|invert items d rest x Ha Hp
                  |r1 r2 x y z H1 IH1 H2 IH2|r1 r2 x y H1 IH1|r1 r2 x y H2 IH2
                  |r min max x Hdone|r min max x y z Hmax H1 IH1 Hprog H2 IH2
                  |r x y H1 IH1|x Hb|x Ha|x Hw];
    intros k Hk.
  - exact Hk.
  - simpl. unfold step. rewrite Ha, Hp. exact Hk.
  - simpl. unfold step. rewrite Ha, Hp. exact Hk.
  - simpl. apply IH1. apply IH2. exact Hk.
  - simpl. apply orElse_not_Fail. apply IH1. exact Hk.
  - simpl. destruct (matcher i r1 x k) eqn:E; simpl; try discriminate.
    apply IH2. exact Hk.
  - change (repeatMatcher (matcher i r) (S (min + length (after x))) min max x k <> Fail).
    cbn [repeatMatcher].
    destruct Hdone as [-> | ->].
    + exact Hk.
    + destruct max as [[|m]|]; [exact Hk | |];
        cbn [Nat.eqb]; (destruct (matcher i r x _); simpl; [exact Hk | discriminate | discriminate]).
  - change (repeatMatcher (matcher i r) (S (min + length (after x))) min max x k <> Fail).
    cbn [repeatMatcher].
    assert (Hd : matcher i r x (fun y0 =>
               if (min =? 0) && (endIndex y0 =? endIndex x) then Fail
               else repeatMatcher (matcher i r) (min + length (after x))
                      (pred min) (option_map pred max) y0 k) <> Fail).
    { apply IH1.
      assert (Hc : (min =? 0) && (endIndex y =? endIndex x) = false).
      { destruct min as [|min']; [|reflexivity]. simpl.
        apply Nat.eqb_neq. apply Hprog. reflexivity. }
      rewrite Hc.
      destruct (Extends_length (Matches_Extends H1)) as [Hidx Hlen].
      rewrite (@repeatMatcher_fuel _ (@matcher_respects r)
                 (min + length (after x)) (S (pred min + length (after y)))).
      - apply (IH2 k Hk).
      - destruct min as [|min']; simpl in *; [|lia].
        specialize (Hprog eq_refl). lia.
      - lia. }
    destruct max as [[|m]|]; [congruence | |];
      (destruct (min =? 0); [apply orElse_not_Fail|]; exact Hd).
  - simpl. apply IH1. exact Hk.
  - simpl. rewrite Hb. exact Hk.
  - simpl. rewrite Ha. exact Hk.
  - simpl. rewrite Hw. exact Hk.
Qed.

End Completeness.

(** An attempt fails exactly when the pattern has no match there. *)
Lemma matchAt_complete i r bef aft y :
  Matches i r (MState bef aft None) y -> matchAt i r bef aft <> None.
Proof.
  intros H Hnone. apply matchAt_None in Hnone.
  revert Hnone. apply (matcher_complete H). discriminate.
Qed.

Lemma Matches_minLen i r x y :
  Matches i r x y -> endIndex x + minLen r <= endIndex y.
Proof.
  induction 1 as [x|c d rest x Ha Hp|invert items d rest x Ha Hp
                  |r1 r2 x y z H1 IH1 H2 IH2|r1 r2 x y H1 IH1|r1 r2 x y H2 IH2
                  |r min max x Hdone|r min max x y z Hmax H1 IH1 Hprog H2 IH2
                  |r x y H1 IH1|x Hb|x Ha|x Hw];
    unfold endIndex in *; cbn [minLen before length capture] in *; try lia.
  - destruct Hdone as [-> | ->]; [rewrite Nat.min_0_r | destruct max]; simpl; lia.
  - destruct max as [m|]; cbn [option_map] in IH2.
    + destruct m as [|m]; [congruence|].
      destruct min as [|min]; cbn [pred] in IH2; [simpl; lia|].
      rewrite <- Nat.succ_min_distr. simpl. lia.
    + destruct min as [|min]; cbn [pred] in IH2; simpl; lia.
Qed.

(** A match is at least [minLen r] units long. *)
Lemma matchAt_minLen i r bef aft y :
  matchAt i r bef aft = Some y ->
  minLen r <= length (matched (result bef y)).
Proof.
  intros H. destruct (result_shape _ _ _ _ H) as [_ [_ [_ [Hb Hm]]]].
  apply Matches_minLen in Hm. unfold endIndex in Hm. simpl in Hm.
  rewrite Hb, length_app, length_rev in Hm. lia.
Qed.

Lemma scan_minLen i r : forall aft bef skip,
  Forall (fun m => minLen r <= length (matched m)) (scan i r bef aft skip).
Proof.
  induction aft as [|c aft IH]; intros bef skip.
  - destruct skip; simpl; [|constructor].
    destruct (matchAt i r bef []) eqn:Hm; constructor; [|constructor].
    eapply matchAt_minLen; eauto.
  - destruct skip; simpl; [|apply IH].
    destruct (matchAt i r bef (c :: aft)) eqn:Hm; [|apply IH].
    constructor; [eapply matchAt_minLen; eauto | apply IH].
Qed.

(** What holds of the result of every successful attempt holds of every
    element of a global match. *)
Lemma scan_Forall i r (P : rmatch -> Prop) :
  (forall bef aft y, matchAt i r bef aft = Some y -> P (result bef y)) ->
  forall aft bef skip, Forall P (scan i r bef aft skip).
Proof.
  intros HP. induction aft as [|c aft IH]; intros bef skip.
  - destruct skip; simpl; [|constructor].
    destruct (matchAt i r bef []) eqn:Hm; constructor; [|constructor].
    eapply HP; eauto.
  - destruct skip; simpl; [|apply IH].
    destruct (matchAt i r bef (c :: aft)) eqn:Hm; [|apply IH].
    constructor; [eapply HP; eauto | apply IH].
Qed.

(** The elements of a global match are pieces of the text, in order. *)
Lemma scan_in_order i r : forall aft bef skip,
  inOrderIn (skipn skip aft) (map matched (scan i r bef aft skip)).
Proof.
  induction aft as [|c aft IH]; intros bef skip.
  - destruct skip as [|n]; cbn [scan skipn].
    + destruct (matchAt i r bef []) as [y|] eqn:Hm.
      * destruct (result_shape _ _ _ _ Hm) as [Ha _].
        symmetry in Ha. apply app_eq_nil in Ha. destruct Ha as [Ha _].
        exists [[]; []]. split; [reflexivity|].
        cbn [map weave app]. rewrite Ha. reflexivity.
      * exists [[]]. split; reflexivity.
    + exists [[]]. split; reflexivity.
  - destruct skip as [|n]; cbn [scan skipn]; [|apply IH].
    destruct (matchAt i r bef (c :: aft)) as [y|] eqn:Hm.
    + destruct (result_shape _ _ _ _ Hm) as [Ha _].
      destruct (IH (c :: bef) (length (matched (result bef y)) - 1))
        as [gaps [Hlen Hw]].
      cbn [map].
      destruct (matched (result bef y)) as [|c' w] eqn:Hmat.
      * cbn [length Nat.sub skipn] in *.
        destruct gaps as [|g0 gaps']; [discriminate|].
        exists ([] :: (c :: g0) :: gaps'). split; [simpl in *; lia|].
        cbn [weave app] in *. rewrite <- Hw. reflexivity.
      * cbn [app] in Ha. injection Ha as <- Ha.
        cbn [length] in *. rewrite Nat.sub_1_r in *. cbn [pred] in *.
        exists ([] :: gaps). split; [simpl in *; lia|].
        cbn [weave app]. rewrite <- Hw, Ha.
        rewrite skipn_app, skipn_all, Nat.sub_diag. reflexivity.
    + destruct (IH (c :: bef) 0) as [gaps [Hlen Hw]].
      destruct gaps as [|g0 gaps']; [discriminate|].
      exists ((c :: g0) :: gaps'). split; [exact Hlen|].
      cbn [skipn] in Hw. cbn [weave app] in *. rewrite <- Hw. reflexivity.
Qed.

Lemma matchAll_in_order i r s : inOrderIn s (matchAll i r s).
Proof. apply (scan_in_order i r s [] 0). Qed.

Lemma matchAll_minLen i r s :
  Forall (fun w => minLen r <= length w) (matchAll i r s).
Proof.
  unfold matchAll. apply Forall_map. apply scan_minLen.
Qed.

Lemma execFrom_here i r bef aft y0 :
  matchAt i r bef aft = Some y0 ->
  exists p y,
    prefix (result bef y0) = rev bef ++ p
    /\ aft = p ++ matched (result bef y0) ++ suffix (result bef y0)
    /\ Matches i r (MState (rev p ++ bef)
                      (matched (result bef y0) ++ suffix (result bef y0)) None) y
    /\ group1 (result bef y0) = cap y
    /\ before y = rev (matched (result bef y0)) ++ rev p ++ bef
    /\ after y = suffix (result bef y0)
    /\ forall p' rest',
         aft = p' ++ rest' -> length p' < length p ->
         forall z, ~ Matches i r (MState (rev p' ++ bef) rest' None) z.
Proof.
  intros Hm.
  destruct (result_shape _ _ _ _ Hm) as [Ha [Hp [Hg [Hb HM]]]].
  exists [], y0. cbn [rev app]. rewrite app_nil_r, <- Ha.
  repeat split; try assumption; try reflexivity.
  intros p' rest' _ Hlen. simpl in Hlen. lia.
Qed.

(** [exec] returns the leftmost position at which the pattern matches. *)
Lemma execFrom_leftmost i r : forall aft bef m,
  execFrom i r bef aft = Some m ->
  exists p y,
    prefix m = rev bef ++ p
    /\ aft = p ++ matched m ++ suffix m
    /\ Matches i r (MState (rev p ++ bef) (matched m ++ suffix m) None) y
    /\ group1 m = cap y
    /\ before y = rev (matched m) ++ rev p ++ bef
    /\ after y = suffix m
    /\ forall p' rest',
         aft = p' ++ rest' -> length p' < length p ->
         forall z, ~ Matches i r (MState (rev p' ++ bef) rest' None) z.
Proof.
  induction aft as [|c aft IH]; intros bef m; simpl.
  - destruct (matchAt i r bef []) eqn:Hm; [|discriminate].
    intros H. inversion H; subst. apply (execFrom_here _ _ _ _ Hm).
  - destruct (matchAt i r bef (c :: aft)) eqn:Hm.
    + intros H. inversion H; subst. apply (execFrom_here _ _ _ _ Hm).
    + intros H. apply IH in H.
      destruct H as [p [y [Hp [Ha [HM [Hg [Hb [Hs Hleft]]]]]]]].
      exists (c :: p), y. simpl.
      rewrite <- !app_assoc. simpl.
      repeat split; auto.
      * rewrite Hp. simpl. rewrite <- app_assoc. reflexivity.
      * rewrite Ha. reflexivity.
      * intros p' rest' Hsplit Hlen z HM'.
        destruct p' as [|c' p'].
        -- simpl in Hsplit, HM'. subst rest'.
           apply (matchAt_complete HM'). exact Hm.
        -- simpl in Hsplit. injection Hsplit as Hc Haft. subst c'.
           simpl in HM'. rewrite <- app_assoc in HM'. simpl in HM'.
           refine (Hleft p' rest' Haft _ z HM'). simpl in Hlen. lia.
Qed.

Lemma exec_leftmost i r s m :
  exec i r s = Some m ->
  s = prefix m ++ matched m ++ suffix m
  /\ (exists y, Matches i r (startAt (prefix m) (matched m ++ suffix m)) y
                /\ group1 m = cap y
                /\ before y = rev (matched m) ++ rev (prefix m)
                /\ after y = suffix m)
  /\ forall p rest, s = p ++ rest -> length p < length (prefix m) ->
                    ~ MatchesAt i r p rest.
Proof.
  intros H. apply execFrom_leftmost in H.
  destruct H as [p [y [Hp [Ha [HM [Hg [Hb [Hs Hleft]]]]]]]].
  simpl in Hp. subst p. rewrite app_nil_r in *.
  split; [exact Ha|]. split.
  - exists y. unfold startAt. auto.
  - intros p rest Hsplit Hlen [z Hz].
    apply (Hleft p rest Hsplit Hlen z).
    rewrite app_nil_r. exact Hz.
Qed.

Lemma execFrom_None i r : forall aft bef,
  execFrom i r bef aft = None ->
  forall p rest, aft = p ++ rest ->
                 forall z, ~ Matches i r (MState (rev p ++ bef) rest None) z.
Proof.
  induction aft as [|c aft IH]; intros bef; simpl.
  - destruct (matchAt i r bef []) eqn:Hm; [discriminate|].
    intros _ p rest Hsplit z HM.
    destruct p; [|discriminate]. simpl in *. subst rest.
    apply (matchAt_complete HM). exact Hm.
  - destruct (matchAt i r bef (c :: aft)) eqn:Hm; [discriminate|].
    intros H p rest Hsplit z HM.
    destruct p as [|c' p].
    + simpl in *. subst rest. apply (matchAt_complete HM). exact Hm.
    + simpl in Hsplit. injection Hsplit as Hc Haft. subst c'.
      simpl in HM. rewrite <- app_assoc in HM. simpl in HM.
      apply (IH (c :: bef) H p rest Haft z). exact HM.
Qed.

(** [exec] returns [null] exactly when the pattern matches nowhere. *)
Lemma exec_None i r s :
  exec i r s = None <-> forall p rest, s = p ++ rest -> ~ MatchesAt i r p rest.
Proof.
  split.
  - intros H p rest Hsplit [z Hz].
    apply (@execFrom_None i r s [] H p rest Hsplit z).
    rewrite app_nil_r. exact Hz.
  - intros H. destruct (exec i r s) as [m|] eqn:E; [|reflexivity].
    exfalso. apply exec_leftmost in E.
    destruct E as [Hs [[y [HM _]] _]].
    apply (H (prefix m) (matched m ++ suffix m) Hs). exists y. exact HM.
Qed.

(** ** The [i] flag *)

Lemma allUnits_complete c : In c allUnits.
Proof.
  unfold allUnits. apply in_map_iff. exists (nat_of_ascii c).
  split; [apply ascii_nat_embedding|].
  apply in_seq. pose proof (nat_ascii_bounded c). lia.
Qed.

Lemma same_canonical_form a c :
  Ascii.eqb (canonicalize a) (canonicalize c)
  = (Ascii.eqb a c || Ascii.eqb a (upper_unit c) || Ascii.eqb a (lower_unit c)).
Proof.
  assert (H : forallb (fun a => forallb (fun c =>
                Bool.eqb (Ascii.eqb (canonicalize a) (canonicalize c))
                         (Ascii.eqb a c || Ascii.eqb a (upper_unit c)
                          || Ascii.eqb a (lower_unit c))) allUnits) allUnits = true)
    by (vm_compute; reflexivity).
  rewrite forallb_forall in H. specialize (H a (allUnits_complete a)).
  rewrite forallb_forall in H. specialize (H c (allUnits_complete c)).
  apply Bool.eqb_prop in H. exact H.
Qed.

(** [set_match] under the [i] flag is the rule of the standard: some unit
    of the set has the canonical form of the unit read. *)
Lemma set_match_canonical p c :
  set_match true p c = true
  <-> exists a, p a = true /\ canonicalize a = canonicalize c.
Proof.
  unfold set_match. split.
  - intros H. apply orb_true_iff in H. destruct H as [H | H];
      [apply orb_true_iff in H; destruct H as [H | H]|].
    + exists c. auto.
    + exists (upper_unit c). split; [exact H|].
      apply Ascii.eqb_eq. rewrite same_canonical_form.
      rewrite (Ascii.eqb_refl (upper_unit c)), orb_true_r. reflexivity.
    + exists (lower_unit c). split; [exact H|].
      apply Ascii.eqb_eq. rewrite same_canonical_form.
      rewrite (Ascii.eqb_refl (lower_unit c)), orb_true_r. reflexivity.
  - intros [a [Ha Hc]]. apply Ascii.eqb_eq in Hc.
    rewrite same_canonical_form in Hc.
    apply orb_true_iff in Hc. destruct Hc as [Hc | Hc];
      [apply orb_true_iff in Hc; destruct Hc as [Hc | Hc]|];
      apply Ascii.eqb_eq in Hc; subst a; rewrite Ha;
      rewrite ?orb_true_r; reflexivity.
Qed.

(** ** Reading matches of the pattern shapes used by the parser *)

Unset Implicit Arguments.

Ltac inv H := inversion H; subst; clear H.

Lemma Span_nil x : Span x [] x.
Proof. split; reflexivity. Qed.

Lemma Span_app x w1 y w2 z : Span x w1 y -> Span y w2 z -> Span x (w1 ++ w2) z.
Proof.
  intros [Ha1 Hb1] [Ha2 Hb2]. split.
  - rewrite Ha1, Ha2, app_assoc. reflexivity.
  - rewrite Hb2, Hb1, rev_app_distr, app_assoc. reflexivity.
Qed.

Lemma Span_between x w y : Span x w y -> between x y = w.
Proof. intros [_ Hb]. apply between_Extends. exact Hb. Qed.

Lemma Span_capture x w y z : Span x w y -> Span x w (capture z y).
Proof. intros H. exact H. Qed.

Lemma Span_length x w y : Span x w y -> endIndex y = length w + endIndex x.
Proof.
  intros [_ Hb]. unfold endIndex. rewrite Hb, length_app, length_rev. reflexivity.
Qed.

Lemma Matches_Class_inv i invert items x y :
  Matches i (Class invert items) x y ->
  exists c, Span x [c] y /\ accepts i invert items c = true /\ cap y = cap x.
Proof.
  intros H. inv H. exists d. repeat split; assumption.
Qed.

Lemma Matches_Lit_inv i c x y :
  Matches i (Lit c) x y ->
  exists d, Span x [d] y /\ set_match i (Ascii.eqb c) d = true /\ cap y = cap x.
Proof.
  intros H. inv H. exists d. repeat split; assumption.
Qed.

Lemma Matches_Seq_inv i r1 r2 x z :
  Matches i (Seq r1 r2) x z -> exists y, Matches i r1 x y /\ Matches i r2 y z.
Proof. intros H. inv H. eauto. Qed.

Lemma Matches_Alt_inv i r1 r2 x y :
  Matches i (Alt r1 r2) x y -> Matches i r1 x y \/ Matches i r2 x y.
Proof. intros H. inv H; auto. Qed.

Lemma Matches_Group_inv i r x z :
  Matches i (Group r) x z -> exists y, Matches i r x y /\ z = capture x y.
Proof. intros H. inv H. eauto. Qed.

Lemma Matches_Eps_inv i x y : Matches i Eps x y -> y = x.
Proof. intros H. inv H. reflexivity. Qed.

Lemma Matches_Bol_inv i x y : Matches i Bol x y -> y = x /\ before x = [].
Proof. intros H. inv H. auto. Qed.

Lemma Matches_Eol_inv i x y : Matches i Eol x y -> y = x /\ after x = [].
Proof. intros H. inv H. auto. Qed.

Lemma Matches_WordBoundary_inv i x y :
  Matches i WordBoundary x y -> y = x /\ xorb (prevIsWord x) (nextIsWord x) = true.
Proof. intros H. inv H. auto. Qed.

(** A quantified class reads a run of accepted units. *)
Lemma Matches_Repeat_Class_inv i invert items x y : forall min max,
  Matches i (Repeat (Class invert items) min max) x y ->
  exists w, Span x w y /\ cap y = cap x
            /\ Forall (fun c => accepts i invert items c = true) w
            /\ atLeast min max <= length w
            /\ (forall m, max = Some m -> length w <= m).
Proof.
  intros min max H.
  remember (Repeat (Class invert items) min max) as r eqn:Hr.
  revert min max Hr.
  induction H as [x|c d rest x Ha Hp|inv' items' d rest x Ha Hp
                  |r1 r2 x y z H1 IH1 H2 IH2|r1 r2 x y H1 IH1|r1 r2 x y H2 IH2
                  |r min' max' x Hdone|r min' max' x y z Hmax H1 IH1 Hprog H2 IH2
                  |r x y H1 IH1|x Hb|x Ha|x Hw];
    intros min max Hr; try discriminate.
  - injection Hr as -> -> ->.
    exists []. repeat split; try constructor.
    + destruct Hdone as [-> | ->]; unfold atLeast;
        [rewrite Nat.min_0_r | destruct max; cbn [Nat.min]]; apply Nat.le_0_l.
    + intros m _. apply Nat.le_0_l.
  - injection Hr as -> -> ->.
    apply Matches_Class_inv in H1. destruct H1 as [c [Hs [Hc Hcap]]].
    destruct (IH2 _ _ eq_refl) as [w [Hs' [Hcap' [Hall [Hmin Hmx]]]]].
    exists ([c] ++ w). repeat split.
    + apply (Span_app _ _ _ _ _ Hs Hs').
    + apply (Span_app _ _ _ _ _ Hs Hs').
    + congruence.
    + constructor; assumption.
    + simpl. destruct max as [[|m]|]; simpl in *; [congruence | lia | lia].
    + intros m ->. simpl in *. destruct m as [|m]; [congruence|].
      specialize (Hmx m eq_refl). lia.
Qed.

(** And a run of accepted units of a fitting length is a match. *)
Lemma Matches_Repeat_Class_intro i invert items rest cp : forall w bef min max,
  Forall (fun c => accepts i invert items c = true) w ->
  min <= length w ->
  (forall m, max = Some m -> length w <= m) ->
  Matches i (Repeat (Class invert items) min max)
          (MState bef (w ++ rest) cp) (MState (rev w ++ bef) rest cp).
Proof.
  induction w as [|c w IH]; intros bef min max Hall Hmin Hmax.
  - simpl in *. apply M_RepDone. right. lia.
  - inversion Hall as [|c' w' Hc Hw]; subst.
    apply M_RepIter with (y := MState (c :: bef) (w ++ rest) cp).
    + intros ->. specialize (Hmax 0 eq_refl). simpl in Hmax. lia.
    + apply (@M_Class i invert items c (w ++ rest) (MState bef (c :: w ++ rest) cp));
        [reflexivity | exact Hc].
    + intros _. unfold endIndex. simpl. lia.
    + replace (rev (c :: w) ++ bef) with (rev w ++ c :: bef)
        by (simpl; rewrite <- app_assoc; reflexivity).
      apply IH; [exact Hw | simpl in Hmin; lia |].
      intros m Hm. destruct max as [m'|]; [|discriminate].
      simpl in Hm. injection Hm as <-.
      specialize (Hmax m' eq_refl). simpl in Hmax. lia.
Qed.

(** A word reads its own units. *)
Lemma Matches_word_inv i : forall w x y,
  Matches i (word w) x y ->
  exists u, Span x u y /\ cap y = cap x /\ spells i w u.
Proof.
  induction w as [|c w IH]; intros x y H.
  - apply Matches_Eps_inv in H. subst y. exists []. repeat split; constructor.
  - destruct w as [|c' w'].
    + simpl in H. apply Matches_Lit_inv in H. destruct H as [d [Hs [Hd Hcap]]].
      exists [d]. repeat split; try apply Hs; try assumption.
      constructor; [exact Hd | constructor].
    + change (word (String c (String c' w'))) with (Seq (Lit c) (word (String c' w'))) in H.
      apply Matches_Seq_inv in H. destruct H as [y0 [H3 H5]].
      apply Matches_Lit_inv in H3. destruct H3 as [d [Hs [Hd Hcap]]].
      apply IH in H5. destruct H5 as [u [Hs' [Hcap' Hu]]].
      exists ([d] ++ u). repeat split.
      * apply (Span_app _ _ _ _ _ Hs Hs').
      * apply (Span_app _ _ _ _ _ Hs Hs').
      * congruence.
      * constructor; assumption.
Qed.

Lemma Matches_word_intro i rest cp : forall w u bef,
  spells i w u ->
  Matches i (word w) (MState bef (u ++ rest) cp) (MState (rev u ++ bef) rest cp).
Proof.
  induction w as [|c w IH]; intros u bef H.
  - inversion H; subst. constructor.
  - inversion H as [|c0 d w0 u' Hcd Hrest]; subst.
    assert (Hd : Matches i (Lit c) (MState bef (d :: u' ++ rest) cp)
                         (MState (d :: bef) (u' ++ rest) cp)).
    { apply (@M_Lit i c d (u' ++ rest) (MState bef (d :: u' ++ rest) cp));
        [reflexivity | assumption]. }
    replace (rev (d :: u') ++ bef) with (rev u' ++ d :: bef)
      by (simpl; rewrite <- app_assoc; reflexivity).
    destruct w as [|c' w'].
    + inversion Hrest; subst. exact Hd.
    + change (word (String c (String c' w'))) with (Seq (Lit c) (word (String c' w'))).
      eapply M_Seq; [exact Hd | apply IH; assumption].
Qed.

Lemma Matches_anyOf_inv i : forall ws x y,
  Matches i (anyOf ws) x y -> exists w, In w ws /\ Matches i (word w) x y.
Proof.
  induction ws as [|w ws IH]; intros x y H.
  - simpl in H. apply Matches_Class_inv in H. destruct H as [c [_ [Hc _]]].
    unfold accepts, set_match in Hc. simpl in Hc. destruct i; discriminate.
  - destruct ws as [|w' ws'].
    + exists w. split; [left; reflexivity | exact H].
    + change (anyOf (w :: w' :: ws')) with (Alt (word w) (anyOf (w' :: ws'))) in H.
      apply Matches_Alt_inv in H. destruct H as [H3 | H3].
      * exists w. split; [left; reflexivity | assumption].
      * apply IH in H3. destruct H3 as [w0 [Hin Hm]].
        exists w0. split; [right; exact Hin | exact Hm].
Qed.

Lemma Matches_anyOf_intro i : forall ws w x y,
  In w ws -> Matches i (word w) x y -> Matches i (anyOf ws) x y.
Proof.
  induction ws as [|w0 ws IH]; intros w x y Hin H; [contradiction|].
  destruct ws as [|w' ws'].
  - destruct Hin as [-> | []]. exact H.
  - change (anyOf (w0 :: w' :: ws')) with (Alt (word w0) (anyOf (w' :: ws'))).
    destruct Hin as [-> | Hin].
    + apply M_AltL. exact H.
    + apply M_AltR. apply (IH w); assumption.
Qed.

(** An optional pattern matches the empty text or the pattern. *)
Lemma Matches_opt_inv i r x z :
  Matches i (opt r) x z -> z = x \/ Matches i r x z.
Proof.
  unfold opt. intros H.
  inversion H as [| | | | | |r0 mn mx x0 Hdone
                  |r0 mn mx x0 y z0 Hmax H1 Hprog H2| | | |]; subst.
  - left. reflexivity.
  - right. simpl in H2.
    inversion H2 as [| | | | | |r1 mn1 mx1 x1 Hdone1
                     |r1 mn1 mx1 x1 y1 z1 Hmax1 H11 Hprog1 H21| | | |]; subst.
    + exact H1.
    + congruence.
Qed.

Lemma Matches_opt_skip i r x : Matches i (opt r) x x.
Proof. apply M_RepDone. right. reflexivity. Qed.

Lemma Matches_opt_take i r x y :
  Matches i r x y -> endIndex y <> endIndex x -> Matches i (opt r) x y.
Proof.
  intros H Hprog. unfold opt.
  apply M_RepIter with (y := y); [discriminate | exact H | auto |].
  apply M_RepDone. left. reflexivity.
Qed.

(** ** The [g] flag and greedy runs *)

(** With the [g] flag the first match is the match found without it. *)
Lemma scan_head i r : forall aft bef,
  hd_error (scan i r bef aft 0) = execFrom i r bef aft.
Proof.
  induction aft as [|c aft IH]; intros bef; cbn [scan execFrom];
    destruct (matchAt i r bef _); try reflexivity.
  apply IH.
Qed.

(** ** Presence of the date *)

Lemma matchAll_nil i r s : matchAll i r s = [] <-> exec i r s = None.
Proof.
  unfold matchAll, exec. rewrite <- scan_head.
  destruct (scan i r [] s 0); simpl; split; intros H; try reflexivity; discriminate.
Qed.

(** Every element of a global match has the property that the pattern
    gives to the texts it reads. *)
Lemma matchAll_Forall i r (P : text -> Prop) :
  (forall x y, Matches i r x y -> exists w, Span x w y /\ P w) ->
  forall s, Forall P (matchAll i r s).
Proof.
  intros HP s. unfold matchAll. apply Forall_map.
  apply scan_Forall. intros bef aft y Hm.
  destruct (result_shape _ _ _ _ Hm) as [_ [_ [_ [Hb HM]]]].
  apply HP in HM. destruct HM as [w [[_ Hs] Hw]].
  simpl in Hs. rewrite Hb in Hs.
  apply app_inv_tail in Hs. apply (f_equal (@rev ascii)) in Hs.
  rewrite !rev_involutive in Hs. rewrite Hs. exact Hw.
Qed.

(** ** The loop on [exec] *)

Lemma scan_skip i r : forall w bef aft,
  scan i r bef (w ++ aft) (length w) = scan i r (rev w ++ bef) aft 0.
Proof.
  induction w as [|c w IH]; intros bef aft; [reflexivity|].
  cbn [app length scan]. rewrite IH. cbn [rev]. rewrite <- app_assoc. reflexivity.
Qed.

(** For a pattern that matches no empty text, the matches found with the
    [g] flag are the first match and the matches found after its end. *)
Lemma scan_step i r : 1 <= minLen r -> forall aft bef,
  scan i r bef aft 0 =
  match execFrom i r bef aft with
  | None => []
  | Some m => m :: scan i r (rev (matched m) ++ rev (prefix m)) (suffix m) 0
  end.
Proof.
  intros Hmin. induction aft as [|c aft IH]; intros bef; cbn [scan execFrom].
  - destruct (matchAt i r bef []) as [y|] eqn:E; [|reflexivity].
    exfalso. pose proof (matchAt_minLen _ _ _ _ E) as Hlen.
    destruct (result_shape _ _ _ _ E) as [Ha _].
    destruct (matched (result bef y)); [simpl in Hlen; lia | discriminate].
  - destruct (matchAt i r bef (c :: aft)) as [y|] eqn:E; [|apply IH].
    f_equal.
    pose proof (matchAt_minLen _ _ _ _ E) as Hlen.
    destruct (result_shape _ _ _ _ E) as [Ha [Hp _]].
    rewrite Hp, rev_involutive.
    destruct (matched (result bef y)) as [|c' w]; [simpl in Hlen; lia|].
    cbn [app] in Ha. injection Ha as <- ->.
    cbn [length Nat.sub]. rewrite Nat.sub_0_r, scan_skip.
    cbn [rev]. rewrite <- app_assoc. reflexivity.
Qed.


(** The match that [exec] returns is the attempt at its place. *)
Lemma execFrom_matchAt i r : forall aft bef m,
  execFrom i r bef aft = Some m ->
  exists p rest y,
    aft = p ++ rest
    /\ matchAt i r (rev p ++ bef) rest = Some y
    /\ m = result (rev p ++ bef) y.
Proof.
  induction aft as [|c aft IH]; intros bef m; cbn [execFrom].
  - destruct (matchAt i r bef []) as [y|] eqn:E; [|discriminate].
    intros [= <-]. exists [], [], y. auto.
  - destruct (matchAt i r bef (c :: aft)) as [y|] eqn:E.
    + intros [= <-]. exists [], (c :: aft), y. auto.
    + intros H. apply IH in H. destruct H as [p [rest [y [-> [Hm ->]]]]].
      exists (c :: p), rest, y. cbn [rev app]. rewrite <- app_assoc. auto.
Qed.

(** A quantified unit followed by a continuation that cannot fail reads
    as many units of the run as its upper bound allows. *)
Lemma repeat_unit_greedy_bounded {A} (mr : mstate -> (mstate -> res A) -> res A)
    (p : ascii -> bool) (f : mstate -> A) :
  (forall x k, mr x k = step p x k) ->
  forall run rest bef cp fuel min max,
    Forall (fun d => p d = true) run ->
    match rest with d :: _ => p d = false | [] => True end ->
    let take := match max with
                | Some mx => Nat.min mx (length run)
                | None => length run
                end in
    min <= take -> take < fuel ->
    repeatMatcher mr fuel min max (MState bef (run ++ rest) cp) (fun y => Ok (f y))
    = Ok (f (MState (rev (firstn take run) ++ bef) (skipn take run ++ rest) cp)).
Proof.
  intros Hmr.
  induction run as [|c0 run IH]; intros rest bef cp fuel min max Hall Hrest take
                                        Hmin Hfuel;
    (destruct fuel as [|fuel]; [lia|]); cbn [repeatMatcher].
  - assert (Ht : take = 0) by (subst take; destruct max; [apply Nat.min_0_r | reflexivity]).
    rewrite Ht in *. assert (min = 0) by lia. subst min.
    cbn [firstn skipn rev app Nat.eqb].
    destruct max as [[|mx]|]; [reflexivity| |];
      rewrite Hmr; unfold step; cbn [after];
      (destruct rest as [|d rest']; [reflexivity|]); rewrite Hrest; reflexivity.
  - apply Forall_cons_iff in Hall. destruct Hall as [Hc Hall].
    destruct max as [[|mx]|].
    + subst take. cbn [Nat.min] in *. assert (min = 0) by lia. subst min.
      reflexivity.
    + rewrite Hmr. unfold step. cbn [after app before cap option_map pred].
      rewrite Hc. unfold endIndex. cbn [before length].
      replace (S (length bef) =? length bef) with false
        by (symmetry; apply Nat.eqb_neq; lia).
      rewrite andb_false_r.
      subst take. cbn [length] in Hmin, Hfuel |- *.
      rewrite <- Nat.succ_min_distr in Hmin, Hfuel |- *.
      rewrite (IH rest (c0 :: bef) cp fuel (pred min) (Some mx) Hall Hrest);
        [|cbn zeta; lia | cbn zeta; lia].
      cbn [firstn skipn rev]. rewrite <- app_assoc.
      destruct (min =? 0); reflexivity.
    + rewrite Hmr. unfold step. cbn [after app before cap option_map].
      rewrite Hc. unfold endIndex. cbn [before length].
      replace (S (length bef) =? length bef) with false
        by (symmetry; apply Nat.eqb_neq; lia).
      rewrite andb_false_r.
      subst take. cbn [length] in Hmin, Hfuel |- *.
      rewrite (IH rest (c0 :: bef) cp fuel (pred min) None Hall Hrest);
        [|cbn zeta; lia | cbn zeta; lia].
      cbn [firstn skipn rev]. rewrite <- app_assoc.
      destruct (min =? 0); reflexivity.
Qed.

End RegexFacts.

(** * Properties of the string methods *)

Module StringFacts.
Import CodeUnit Regex RegexSpec RegexFacts JsString PriceSpec.

Lemma matched_unit bef c rest cp :
  matched (result bef (MState (c :: bef) rest cp)) = [c].
Proof.
  unfold result. simpl.
  apply (@between_Extends (MState bef [] None) (MState (c :: bef) rest cp) [c]).
  reflexivity.
Qed.

(** Global replacement by a pattern that reads exactly one unit. *)
Section UnitPattern.
Variable re : regex.
Variable p : ascii -> bool.
Hypothesis re_unit : forall bef aft,
  matchAt false re bef aft =
  match aft with
  | c :: rest => if p c then Some (MState (c :: bef) rest None) else None
  | [] => None
  end.

Lemma replaceScan_unit r : forall aft bef,
  replaceScan false re r bef aft 0 = flat_map (fun c => if p c then r else [c]) aft.
Proof.
  induction aft as [|c aft IH]; intros bef.
  - simpl. rewrite re_unit. reflexivity.
  - cbn [replaceScan flat_map]. rewrite re_unit.
    destruct (p c).
    + rewrite matched_unit. simpl. rewrite IH. reflexivity.
    + simpl. rewrite IH. reflexivity.
Qed.
End UnitPattern.

Lemma matchAt_Class invert items bef aft :
  matchAt false (Class invert items) bef aft =
  match aft with
  | c :: rest =>
      if xorb invert (class_has items c) then Some (MState (c :: bef) rest None) else None
  | [] => None
  end.
Proof.
  unfold matchAt. simpl. unfold step. simpl.
  destruct aft as [|c rest]; [reflexivity|].
  destruct (xorb invert (class_has items c)); reflexivity.
Qed.

Lemma matchAt_Lit d bef aft :
  matchAt false (Lit d) bef aft =
  match aft with
  | c :: rest => if Ascii.eqb d c then Some (MState (c :: bef) rest None) else None
  | [] => None
  end.
Proof.
  unfold matchAt. simpl. unfold step. simpl.
  destruct aft as [|c rest]; [reflexivity|].
  destruct (Ascii.eqb d c); reflexivity.
Qed.

Lemma flat_map_filter (p : ascii -> bool) (s : text) :
  flat_map (fun c => if p c then [] else [c]) s = filter (fun c => negb (p c)) s.
Proof.
  induction s as [|c s IH]; simpl; [reflexivity|].
  destruct (p c); simpl; rewrite IH; reflexivity.
Qed.

Lemma flat_map_map (p : ascii -> bool) (d : ascii) (s : text) :
  flat_map (fun c => if p c then [d] else [c]) s = map (fun c => if p c then d else c) s.
Proof.
  induction s as [|c s IH]; simpl; [reflexivity|].
  destruct (p c); simpl; rewrite IH; reflexivity.
Qed.

(** [s.replace(/c/g, '')] removes every [c]. *)
Lemma replaceAll_Lit_empty d s :
  replaceAll false (Lit d) [] s = removeAll d s.
Proof.
  unfold replaceAll, removeAll.
  rewrite (@replaceScan_unit _ _ (matchAt_Lit d) []), flat_map_filter.
  apply filter_ext. intros c. rewrite Ascii.eqb_sym. reflexivity.
Qed.

(** [s.replace(/c/g, '.')] turns every [c] into a dot. *)
Lemma replaceAll_Lit_dot d s :
  replaceAll false (Lit d) (lit ".") s = asDecimalPoint d s.
Proof.
  unfold replaceAll, asDecimalPoint.
  rewrite (@replaceScan_unit _ _ (matchAt_Lit d) (lit ".")).
  change (lit ".") with ["."%char]. rewrite flat_map_map.
  apply map_ext. intros c. rewrite Ascii.eqb_sym. reflexivity.
Qed.

(** [s.replace(/[^...]/g, '')] keeps the units of the class. *)
Lemma replaceAll_negClass_empty items s :
  replaceAll false (Class true items) [] s = filter (class_has items) s.
Proof.
  unfold replaceAll.
  rewrite (@replaceScan_unit _ _ (matchAt_Class true items) []), flat_map_filter.
  apply filter_ext. intros c. simpl. apply negb_involutive.
Qed.

Lemma Forall_dropWhile (P : ascii -> Prop) p s :
  Forall P s -> Forall P (dropWhile p s).
Proof.
  induction 1 as [|c s Hc Hs IH]; simpl; [constructor|].
  destruct (p c); [exact IH | constructor; assumption].
Qed.

Lemma Forall_trim (P : ascii -> Prop) s : Forall P s -> Forall P (trim s).
Proof.
  intros H. unfold trim, trimEnd, trimStart.
  apply Forall_rev, Forall_dropWhile, Forall_rev, Forall_dropWhile, H.
Qed.

(** A replacement by the empty text only removes units. *)
Lemma Forall_replace_empty (P : ascii -> Prop) i re s :
  Forall P s -> Forall P (replace i re [] s).
Proof.
  intros H. unfold replace.
  destruct (exec i re s) as [m|] eqn:Hm; [|exact H].
  apply exec_shape in Hm. rewrite Hm in H.
  apply Forall_app in H. destruct H as [H1 H2].
  apply Forall_app in H2. destruct H2 as [_ H3].
  simpl. apply Forall_app. split; assumption.
Qed.

End StringFacts.

(** * Properties of the number functions *)

Module NumberFacts.
Import CodeUnit JsString JsNumber PriceSpec.

Ltac by_cases_on_unit c :=
  destruct c as [[] [] [] [] [] [] [] []]; vm_compute;
  repeat split; try reflexivity; try discriminate.

(** What a digit is not. *)
Lemma digit_facts c :
  isDigit c = true ->
  isWhiteSpace c = false
  /\ Ascii.eqb c "-" = false /\ Ascii.eqb c "+" = false
  /\ Ascii.eqb "I" c = false /\ Ascii.eqb c "." = false
  /\ Ascii.eqb c "," = false
  /\ Ascii.eqb c "e" = false /\ Ascii.eqb c "E" = false.
Proof. by_cases_on_unit c. Qed.

(** What a digit, a dot or a comma is not. *)
Lemma priceChar_facts c :
  priceChar c = true ->
  isWhiteSpace c = false
  /\ Ascii.eqb c "-" = false /\ Ascii.eqb c "+" = false
  /\ Ascii.eqb "I" c = false
  /\ Ascii.eqb c "e" = false /\ Ascii.eqb c "E" = false.
Proof. by_cases_on_unit c. Qed.

Lemma priceChar_cases c :
  priceChar c = true -> isDigit c = true \/ c = "."%char \/ c = ","%char.
Proof.
  unfold priceChar. intros H.
  apply orb_true_iff in H. destruct H as [H|H].
  - apply orb_true_iff in H. destruct H as [H|H]; [auto|].
    apply Ascii.eqb_eq in H. auto.
  - apply Ascii.eqb_eq in H. auto.
Qed.

Lemma span_spec (p : ascii -> bool) : forall s a b,
  span p s = (a, b) ->
  s = a ++ b /\ Forall (fun c => p c = true) a
  /\ match b with c :: _ => p c = false | [] => True end.
Proof.
  induction s as [|c s IH]; intros a b; simpl.
  - intros H. inversion H; subst. repeat split; constructor.
  - destruct (p c) eqn:Hp.
    + destruct (span p s) as [a' b'] eqn:Hs.
      intros H. inversion H; subst.
      destruct (IH a' b eq_refl) as [H1 [H2 H3]].
      subst s. repeat split; [constructor; assumption | exact H3].
    + intros H. inversion H; subst.
      repeat split; [constructor | exact Hp].
Qed.

Lemma span_app (p : ascii -> bool) : forall a b,
  Forall (fun c => p c = true) a ->
  match b with c :: _ => p c = false | [] => True end ->
  span p (a ++ b) = (a, b).
Proof.
  induction a as [|c a IH]; intros b Ha Hb; simpl.
  - destruct b as [|c b]; [reflexivity|]. simpl. rewrite Hb. reflexivity.
  - inversion Ha as [|c' a' Hc Ha']; subst. rewrite Hc, (IH b Ha' Hb). reflexivity.
Qed.

Lemma digitsValue_acc_nonneg : forall ds acc,
  (0 <= acc)%Z ->
  (0 <= fold_left (fun a c => (10 * a + Z.of_nat (code c - 48))%Z) ds acc)%Z.
Proof.
  induction ds as [|c ds IH]; intros acc Hacc; cbn [fold_left]; [exact Hacc|].
  apply IH. pose proof (Nat2Z.is_nonneg (code c - 48)). lia.
Qed.

Lemma digitsValue_nonneg ds : (0 <= digitsValue ds)%Z.
Proof. apply digitsValue_acc_nonneg. lia. Qed.

Lemma scale10_nonneg m e : (0 <= m)%Z -> (0 <= scale10 m e)%Q.
Proof.
  intros Hm. unfold scale10. rewrite Qred_correct.
  destruct (0 <=? e)%Z eqn:He; unfold Qle; simpl.
  - apply Z.leb_le in He.
    assert (0 < 10 ^ e)%Z by (apply Z.pow_pos_nonneg; lia). nia.
  - lia.
Qed.

(** The exact value of an integer literal. *)
Lemma scale10_zero m : scale10 m 0 = inject_Z m.
Proof.
  unfold scale10. change (0 <=? 0)%Z with true. cbv iota.
  change (10 ^ 0)%Z with 1%Z. rewrite Z.mul_1_r.
  apply Qcanon.Qred_identity. simpl. apply Z.gcd_1_r.
Qed.

Lemma parseFloat_unsigned s :
  match s with c :: _ => priceChar c = true | [] => True end ->
  parseFloat s = readUnsigned s.
Proof.
  destruct s as [|c rest]; [reflexivity|].
  intros Hc. destruct (priceChar_facts c Hc) as [Hw [Hm [Hp [HI _]]]].
  unfold parseFloat, trimStart. cbn [dropWhile]. rewrite Hw.
  cbn [signOf]. rewrite Hm, Hp.
  replace (startsWith (lit "Infinity") (c :: rest)) with false
    by (unfold lit; cbn [list_ascii_of_string startsWith]; rewrite HI; reflexivity).
  reflexivity.
Qed.

Lemma readUnsigned_nonneg s : readUnsigned s = NaN \/ nonneg (readUnsigned s).
Proof.
  unfold readUnsigned.
  destruct (span isDigit s) as [ip s2].
  destruct (match s2 with
            | c :: s2' => if Ascii.eqb c "." then span isDigit s2' else ([], s2)
            | [] => ([], s2)
            end) as [fp s3].
  destruct (ip ++ fp) as [|d ds]; [left; reflexivity|].
  right. simpl. apply scale10_nonneg, digitsValue_nonneg.
Qed.

(** A text of digits, dots and commas is never read as a negative number. *)
Lemma parseFloat_priceChars s :
  Forall (fun c => priceChar c = true) s ->
  parseFloat s = NaN \/ nonneg (parseFloat s).
Proof.
  intros H. rewrite parseFloat_unsigned.
  - apply readUnsigned_nonneg.
  - destruct H; [exact I | assumption].
Qed.

Lemma digit_priceChar c : isDigit c = true -> priceChar c = true.
Proof. unfold priceChar. intros ->. reflexivity. Qed.

(** A text of digits is read as the integer it writes. *)
Lemma parseFloat_digits ds :
  ds <> [] ->
  Forall (fun c => isDigit c = true) ds ->
  parseFloat ds = Fin (inject_Z (digitsValue ds)).
Proof.
  intros Hne Hds. rewrite parseFloat_unsigned.
  - unfold readUnsigned.
    rewrite <- (app_nil_r ds) at 1. rewrite (@span_app isDigit ds [] Hds I).
    rewrite app_nil_r. destruct ds as [|d ds']; [congruence|].
    simpl exponentOf. simpl length. change (0 - Z.of_nat 0)%Z with 0%Z.
    rewrite scale10_zero. reflexivity.
  - destruct Hds; [exact I | apply digit_priceChar; assumption].
Qed.

(** Digits, then a dot: what follows is read as the fraction. *)
Lemma parseFloat_point ds X :
  Forall (fun c => isDigit c = true) ds ->
  parseFloat (ds ++ "."%char :: X) =
  let (fs, tl) := span isDigit X in
  match ds ++ fs with
  | [] => NaN
  | l => Fin (scale10 (digitsValue l) (exponentOf tl - Z.of_nat (length fs)))
  end.
Proof.
  intros Hds. rewrite parseFloat_unsigned.
  - unfold readUnsigned.
    rewrite (@span_app isDigit ds ("."%char :: X) Hds eq_refl).
    rewrite Ascii.eqb_refl. reflexivity.
  - destruct Hds; [reflexivity | apply digit_priceChar; assumption].
Qed.

End NumberFacts.

(** * Properties of [parsePrice] *)

Module PriceFacts.
Import CodeUnit Regex JsString JsNumber ReceiptParser PriceSpec.
Import RegexFacts StringFacts NumberFacts.

Lemma priceClass_priceChar c :
  class_has [CDigit; CChar "."; CChar ","] c = priceChar c.
Proof. destruct c as [[] [] [] [] [] [] [] []]; reflexivity. Qed.

(** Step 1 of the algorithm leaves digits, dots and commas only. *)
Lemma cleanText_chars t : Forall (fun c => priceChar c = true) (cleanText t).
Proof.
  unfold cleanText. apply Forall_replace_empty, Forall_trim.
  unfold notPriceChar. rewrite replaceAll_negClass_empty.
  apply Forall_forall. intros c Hc. apply filter_In in Hc.
  rewrite <- priceClass_priceChar. apply Hc.
Qed.

Lemma includesChar_In s c : includesChar s c = true <-> In c s.
Proof.
  unfold includesChar. rewrite existsb_exists. split.
  - intros [d [Hd He]]. apply Ascii.eqb_eq in He. subst. exact Hd.
  - intros H. exists c. split; [exact H | apply Ascii.eqb_refl].
Qed.

Lemma includesChar_notIn s c : ~ In c s -> includesChar s c = false.
Proof.
  intros H. destruct (includesChar s c) eqn:E; [|reflexivity].
  apply includesChar_In in E. contradiction.
Qed.

(** [split] and the segment after the last separator. *)
Lemma split_notIn sep : forall seg, ~ In sep seg -> split sep seg = [seg].
Proof.
  induction seg as [|c seg IH]; intros H; simpl; [reflexivity|].
  destruct (Ascii.eqb_spec c sep) as [->|Hne].
  - exfalso. apply H. left. reflexivity.
  - rewrite IH; [reflexivity|]. intros Hin. apply H. right. exact Hin.
Qed.

Lemma split_last sep seg : ~ In sep seg ->
  forall pre, exists parts, split sep (pre ++ sep :: seg) = parts ++ [seg] /\ parts <> [].
Proof.
  intros Hseg. induction pre as [|c pre [parts [IH Hne]]]; simpl.
  - rewrite Ascii.eqb_refl, (@split_notIn sep seg Hseg).
    exists [[]]. split; [reflexivity | discriminate].
  - destruct (Ascii.eqb c sep).
    + exists ([] :: parts). rewrite IH. split; [reflexivity | discriminate].
    + rewrite IH. destruct parts as [|p0 ps]; [congruence|].
      exists ((c :: p0) :: ps). split; [reflexivity | discriminate].
Qed.

Lemma lastPart_spec sep pre seg :
  ~ In sep seg -> lastPart sep (pre ++ sep :: seg) = seg.
Proof.
  intros H. unfold lastPart.
  destruct (@split_last sep seg H pre) as [parts [Hs _]].
  rewrite Hs. apply last_last.
Qed.

(** [lastIndexOf] and the last occurrence. *)
Lemma lastIndexFrom_notIn c : forall s i found,
  ~ In c s -> lastIndexFrom c s i found = found.
Proof.
  induction s as [|d s IH]; intros i found H; simpl; [reflexivity|].
  destruct (Ascii.eqb_spec d c) as [->|Hne].
  - exfalso. apply H. left. reflexivity.
  - apply IH. intros Hin. apply H. right. exact Hin.
Qed.

Lemma lastIndexFrom_app c : forall a b i found,
  lastIndexFrom c (a ++ b) i found =
  lastIndexFrom c b (i + Z.of_nat (length a)) (lastIndexFrom c a i found).
Proof.
  induction a as [|d a IH]; intros b i found.
  - simpl. rewrite Z.add_0_r. reflexivity.
  - cbn [app lastIndexFrom length]. rewrite IH. f_equal. lia.
Qed.

Lemma lastIndexFrom_bound c : forall s i found,
  (found < i)%Z -> (lastIndexFrom c s i found < i + Z.of_nat (length s))%Z.
Proof.
  induction s as [|d s IH]; intros i found H; cbn [lastIndexFrom length].
  - lia.
  - specialize (IH (i + 1)%Z (if Ascii.eqb d c then i else found)).
    destruct (Ascii.eqb d c); lia.
Qed.

Lemma lastIndexOf_last c pre seg :
  ~ In c seg -> lastIndexOf (pre ++ c :: seg) c = Z.of_nat (length pre).
Proof.
  intros H. unfold lastIndexOf. rewrite lastIndexFrom_app.
  cbn [lastIndexFrom]. rewrite Ascii.eqb_refl.
  rewrite lastIndexFrom_notIn by exact H. lia.
Qed.

Lemma lastIndexOf_before c d pre seg :
  c <> d -> ~ In c seg ->
  (lastIndexOf (pre ++ d :: seg) c < Z.of_nat (length pre))%Z.
Proof.
  intros Hne H. unfold lastIndexOf. rewrite lastIndexFrom_app.
  cbn [lastIndexFrom].
  destruct (Ascii.eqb_spec d c) as [->|_]; [congruence|].
  rewrite lastIndexFrom_notIn by exact H.
  apply (@lastIndexFrom_bound c pre 0%Z (-1)%Z). lia.
Qed.

(** The two reference readings on texts that lack the separator. *)
Lemma asDecimalPoint_dot s : asDecimalPoint "." s = s.
Proof.
  unfold asDecimalPoint. rewrite <- (map_id s) at 2.
  apply map_ext. intros c.
  destruct (Ascii.eqb_spec c "."); congruence.
Qed.

Lemma asDecimalPoint_notIn sep s : ~ In sep s -> asDecimalPoint sep s = s.
Proof.
  intros H. unfold asDecimalPoint. rewrite <- (map_id s) at 2.
  apply map_ext_in. intros c Hc.
  destruct (Ascii.eqb_spec c sep) as [->|]; [contradiction | reflexivity].
Qed.

Lemma In_removeAll sep s c : In c (removeAll sep s) <-> In c s /\ c <> sep.
Proof.
  unfold removeAll. rewrite filter_In.
  destruct (Ascii.eqb_spec c sep); simpl; intuition congruence.
Qed.

Lemma Forall_removeAll (P : ascii -> Prop) sep s :
  Forall P s -> Forall (fun c => P c /\ c <> sep) (removeAll sep s).
Proof.
  intros H. apply Forall_forall. intros c Hc.
  apply In_removeAll in Hc. destruct Hc as [Hc Hne].
  split; [|exact Hne]. rewrite Forall_forall in H. apply H, Hc.
Qed.

(** Digits are left alone by both readings of the comma. *)
Lemma replaceChar_digits r : forall ds X,
  Forall (fun c => isDigit c = true) ds ->
  replaceChar "," r (ds ++ X) = ds ++ replaceChar "," r X.
Proof.
  induction ds as [|d ds IH]; intros X H; [reflexivity|].
  inversion H as [|d' ds' Hd Hds]; subst.
  destruct (digit_facts d Hd) as [_ [_ [_ [_ [_ [Hc _]]]]]].
  cbn [app replaceChar]. rewrite Hc, IH by exact Hds. reflexivity.
Qed.

Lemma asDecimalPoint_digits : forall ds X,
  Forall (fun c => isDigit c = true) ds ->
  asDecimalPoint "," (ds ++ X) = ds ++ asDecimalPoint "," X.
Proof.
  induction ds as [|d ds IH]; intros X H; [reflexivity|].
  inversion H as [|d' ds' Hd Hds]; subst.
  destruct (digit_facts d Hd) as [_ [_ [_ [_ [_ [Hc _]]]]]].
  unfold asDecimalPoint in *. cbn [app map]. rewrite Hc, IH by exact Hds.
  reflexivity.
Qed.

(** Once the dots are gone, turning the first comma or every comma into
    a dot gives [parseFloat] the same number: it stops at the second
    separator either way. *)
Lemma parseFloat_first_comma s :
  Forall (fun c => isDigit c = true \/ c = ","%char) s ->
  parseFloat (replaceChar "," (lit ".") s) = parseFloat (asDecimalPoint "," s).
Proof.
  intros Hs.
  destruct (span isDigit s) as [ds rest] eqn:Hspan.
  apply span_spec in Hspan. destruct Hspan as [-> [Hds Hrest]].
  rewrite replaceChar_digits, asDecimalPoint_digits by exact Hds.
  apply Forall_app in Hs. destruct Hs as [_ Hs].
  destruct rest as [|c r]; [reflexivity|].
  inversion Hs as [|c' r' Hc Hr]; subst.
  destruct Hc as [Hc | ->]; [congruence|].
  cbn [replaceChar]. rewrite Ascii.eqb_refl.
  change (lit "." ++ r) with ("."%char :: r).
  change (asDecimalPoint "," (","%char :: r)) with ("."%char :: asDecimalPoint "," r).
  rewrite !parseFloat_point by exact Hds.
  destruct (span isDigit r) as [fs tl] eqn:Hspan.
  apply span_spec in Hspan. destruct Hspan as [-> [Hfs Htl]].
  rewrite asDecimalPoint_digits by exact Hfs.
  apply Forall_app in Hr. destruct Hr as [_ Htl'].
  destruct tl as [|c tl].
  - change (asDecimalPoint "," []) with (@nil ascii).
    rewrite (@span_app isDigit fs [] Hfs I). reflexivity.
  - inversion Htl' as [|c' tl'' Hc _]; subst.
    destruct Hc as [Hc | ->]; [congruence|].
    change (asDecimalPoint "," (","%char :: tl))
      with ("."%char :: asDecimalPoint "," tl).
    rewrite (@span_app isDigit fs ("."%char :: _) Hfs eq_refl).
    reflexivity.
Qed.

Lemma definedNumber_nonneg n m :
  parseFloat n = NaN \/ nonneg (parseFloat n) ->
  definedNumber (parseFloat n) = Some m -> nonneg m.
Proof.
  unfold definedNumber. intros [H | H].
  - rewrite H. discriminate.
  - destruct (isNaN (parseFloat n)); [discriminate|].
    intros E. inversion E; subst. exact H.
Qed.

Lemma normalizedNum_chars c :
  Forall (fun d => priceChar d = true) c ->
  Forall (fun d => priceChar d = true) (normalizedNum c).
Proof.
  intros H.
  assert (Hrm : forall sep, Forall (fun d => priceChar d = true) (removeAll sep c)).
  { intros sep. eapply Forall_impl; [|apply Forall_removeAll, H].
    intros d [Hd _]. exact Hd. }
  assert (Hdp : Forall (fun d => priceChar d = true) (asDecimalPoint "," c)).
  { unfold asDecimalPoint. apply Forall_map.
    eapply Forall_impl; [|exact H]. intros d Hd. simpl.
    destruct (Ascii.eqb d ","); [reflexivity | exact Hd]. }
  assert (Hrc : forall s, Forall (fun d => priceChar d = true) s ->
                          Forall (fun d => priceChar d = true) (replaceChar "," (lit ".") s)).
  { induction s as [|d s IH]; intros Hs; [constructor|].
    inversion Hs; subst. cbn [replaceChar].
    destruct (Ascii.eqb d ",").
    - constructor; [reflexivity | assumption].
    - constructor; [assumption | apply IH; assumption]. }
  unfold normalizedNum.
  rewrite !replaceAll_Lit_empty, replaceAll_Lit_dot.
  destruct (includesChar c "," && includesChar c ".").
  - destruct (_ <? _)%Z; [apply Hrc, Hrm | apply Hrm].
  - destruct (includesChar c "," || includesChar c "."); [|exact H].
    destruct (_ =? 3); [apply Hrm | exact Hdp].
Qed.

(** No price is negative. *)
Lemma parsePrice_nonneg t n : parsePrice t = Some n -> nonneg n.
Proof.
  unfold parsePrice. destruct (isEmpty (cleanText t)); [discriminate|].
  apply definedNumber_nonneg, parseFloat_priceChars.
  apply normalizedNum_chars, cleanText_chars.
Qed.

End PriceFacts.

(** * The specification, claim by claim *)

Unset Implicit Arguments.

Import CodeUnit Regex JsString JsNumber ReceiptParser RegexSpec PriceSpec.
Import RegexFacts StringFacts NumberFacts PriceFacts.

Lemma separators_neq sep other : separators sep other -> sep <> other.
Proof. intros [[-> ->] | [-> ->]]; discriminate. Qed.

Lemma cleaned_not_empty (pre : text) sep seg : isEmpty (pre ++ sep :: seg) = false.
Proof. destruct pre; reflexivity. Qed.

(** The text given to [parseFloat] when only [sep] occurs. *)
Lemma normalizedNum_single sep other c pre seg :
  separators sep other ->
  c = pre ++ sep :: seg -> ~ In sep seg -> ~ In other c ->
  normalizedNum c =
    if length seg =? 3 then removeAll sep c else asDecimalPoint sep c.
Proof.
  intros Hsep Hc Hseg Hother.
  assert (Hin : In sep c) by (rewrite Hc; apply in_elt).
  unfold normalizedNum.
  rewrite !replaceAll_Lit_empty, replaceAll_Lit_dot.
  destruct Hsep as [[-> ->] | [-> ->]].
  - rewrite (includesChar_notIn _ _ Hother).
    rewrite (proj2 (includesChar_In c ".") Hin). cbn [andb orb].
    rewrite Hc at 1. rewrite lastPart_spec by exact Hseg.
    rewrite asDecimalPoint_dot, (asDecimalPoint_notIn _ _ Hother).
    reflexivity.
  - rewrite (includesChar_notIn _ _ Hother).
    rewrite (proj2 (includesChar_In c ",") Hin). cbn [andb orb].
    rewrite Hc at 1. rewrite lastPart_spec by exact Hseg.
    reflexivity.
Qed.

(** C2.  The three-digit rule.  When the cleaned token holds one of the
    two separators only, and [seg] is what follows its last occurrence:
    if [seg] is three units long every occurrence of the separator is
    dropped and the price is the integer written by the digits; otherwise
    the separator is read as the decimal point.  So ["1.272"] is 1272,
    ["50.00"] is 50.00 and ["12,5"] is 12.5. *)
Theorem parsePrice_three_digit_rule :
  (forall t sep other pre seg,
      separators sep other ->
      cleanText t = pre ++ sep :: seg ->
      ~ In sep seg ->
      ~ In other (cleanText t) ->
      parsePrice t =
        if length seg =? 3
        then Some (Fin (inject_Z (digitsValue (removeAll sep (cleanText t)))))
        else definedNumber (parseFloat (asDecimalPoint sep (cleanText t))))
  /\ isNumber (parsePrice (lit "1.272")) 1272
  /\ isNumber (parsePrice (lit "50.00")) 50.00
  /\ isNumber (parsePrice (lit "12,5")) 12.5.
Proof.
  split.
  - intros t sep other pre seg Hsep Hc Hseg Hother.
    unfold parsePrice.
    rewrite Hc at 1. rewrite cleaned_not_empty.
    rewrite (normalizedNum_single sep other _ pre seg Hsep Hc Hseg Hother).
    destruct (length seg =? 3) eqn:Hlen; [|reflexivity].
    apply Nat.eqb_eq in Hlen.
    assert (Hdigits : Forall (fun c => isDigit c = true) (removeAll sep (cleanText t))).
    { apply Forall_forall. intros c Hin.
      apply In_removeAll in Hin. destruct Hin as [Hin Hne].
      pose proof (cleanText_chars t) as Hall. rewrite Forall_forall in Hall.
      destruct (priceChar_cases c (Hall c Hin)) as [Hd | Hd]; [exact Hd|].
      exfalso.
      destruct Hsep as [[-> ->] | [-> ->]]; destruct Hd as [-> | ->];
        try congruence; apply Hother; exact Hin. }
    assert (Hne : removeAll sep (cleanText t) <> []).
    { rewrite Hc. unfold removeAll. rewrite filter_app. cbn [filter].
      rewrite Ascii.eqb_refl. cbn [negb].
      destruct seg as [|d seg']; [discriminate|].
      cbn [filter].
      destruct (Ascii.eqb_spec d sep) as [->|_].
      - exfalso. apply Hseg. left. reflexivity.
      - cbn [negb]. intros E. apply app_eq_nil in E. destruct E; discriminate. }
    rewrite (@parseFloat_digits _ Hne Hdigits). reflexivity.
  - repeat split; eexists; (split; [vm_compute; reflexivity | reflexivity]).
Qed.

Lemma parsePrice_three_digit_rule_witness :
  parsePrice (lit "1.272") = Some (Fin (inject_Z 1272))
  /\ parsePrice (lit "12,5") = definedNumber (parseFloat (lit "12.5")).
Proof.
  split.
  - apply (proj1 parsePrice_three_digit_rule (lit "1.272") "."%char ","%char
             (lit "1") (lit "272")).
    + left. split; reflexivity.
    + vm_compute. reflexivity.
    + vm_compute. intuition discriminate.
    + vm_compute. intuition discriminate.
  - apply (proj1 parsePrice_three_digit_rule (lit "12,5") ","%char "."%char
             (lit "12") (lit "5")).
    + right. split; reflexivity.
    + vm_compute. reflexivity.
    + vm_compute. intuition discriminate.
    + vm_compute. intuition discriminate.
Defined.

(** The text given to [parseFloat] when both separators occur and [dec]
    is the one that occurs last. *)
Lemma normalizedNum_both dec other c pre seg :
  separators dec other ->
  c = pre ++ dec :: seg -> ~ In dec seg -> ~ In other seg -> In other pre ->
  normalizedNum c =
    if Ascii.eqb dec ","
    then replaceChar "," (lit ".") (removeAll "." c)
    else removeAll "," c.
Proof.
  intros Hsep Hc Hdec Hother Hpre.
  assert (Hin1 : In dec c) by (rewrite Hc; apply in_elt).
  assert (Hin2 : In other c) by (rewrite Hc; apply in_or_app; left; exact Hpre).
  pose proof (separators_neq _ _ Hsep) as Hne.
  assert (Hlast : lastIndexOf c dec = Z.of_nat (length pre))
    by (rewrite Hc; apply lastIndexOf_last; exact Hdec).
  assert (Hbefore : (lastIndexOf c other < Z.of_nat (length pre))%Z)
    by (rewrite Hc; apply lastIndexOf_before; [congruence | exact Hother]).
  unfold normalizedNum.
  rewrite !replaceAll_Lit_empty.
  destruct Hsep as [[-> ->] | [-> ->]].
  - rewrite (proj2 (includesChar_In c ",") Hin2).
    rewrite (proj2 (includesChar_In c ".") Hin1). cbn [andb].
    rewrite Hlast.
    destruct (Z.ltb_spec (Z.of_nat (length pre)) (lastIndexOf c ",")); [lia|].
    reflexivity.
  - rewrite (proj2 (includesChar_In c ",") Hin1).
    rewrite (proj2 (includesChar_In c ".") Hin2). cbn [andb].
    rewrite Hlast.
    destruct (Z.ltb_spec (lastIndexOf c ".") (Z.of_nat (length pre))); [|lia].
    reflexivity.
Qed.

(** C3.  Last separator wins.  When the cleaned token holds a dot and a
    comma, and [dec] is the one of the two that occurs last, the price is
    what [parseFloat] reads once every occurrence of the other symbol is
    removed and [dec] stands for the decimal point.  So ["1.234,56"] and
    ["1,234.56"] are both 1234.56. *)
Theorem parsePrice_last_separator_wins :
  (forall t dec other pre seg,
      separators dec other ->
      cleanText t = pre ++ dec :: seg ->
      ~ In dec seg -> ~ In other seg ->
      In other pre ->
      parsePrice t =
        definedNumber
          (parseFloat (asDecimalPoint dec (removeAll other (cleanText t)))))
  /\ isNumber (parsePrice (lit "1.234,56")) 1234.56
  /\ isNumber (parsePrice (lit "1,234.56")) 1234.56.
Proof.
  split.
  - intros t dec other pre seg Hsep Hc Hdec Hother Hpre.
    unfold parsePrice.
    rewrite Hc at 1. rewrite cleaned_not_empty.
    rewrite (normalizedNum_both dec other _ pre seg Hsep Hc Hdec Hother Hpre).
    destruct Hsep as [[-> ->] | [-> ->]].
    + cbn [Ascii.eqb Bool.eqb]. rewrite asDecimalPoint_dot. reflexivity.
    + cbn [Ascii.eqb Bool.eqb]. rewrite parseFloat_first_comma; [reflexivity|].
      apply Forall_forall. intros c Hin.
      apply In_removeAll in Hin. destruct Hin as [Hin Hne].
      pose proof (cleanText_chars t) as Hall. rewrite Forall_forall in Hall.
      destruct (priceChar_cases c (Hall c Hin)) as [Hd | [Hd | Hd]];
        [left; exact Hd | congruence | right; exact Hd].
  - repeat split; eexists; (split; [vm_compute; reflexivity | reflexivity]).
Qed.

Lemma parsePrice_last_separator_wins_witness :
  parsePrice (lit "1.234,56") = definedNumber (parseFloat (lit "1234.56"))
  /\ parsePrice (lit "1,234.56") = definedNumber (parseFloat (lit "1234.56")).
Proof.
  split.
  - apply (proj1 parsePrice_last_separator_wins (lit "1.234,56") ","%char "."%char
             (lit "1.234") (lit "56")).
    + right. split; reflexivity.
    + vm_compute. reflexivity.
    + vm_compute. intuition discriminate.
    + vm_compute. intuition discriminate.
    + vm_compute. intuition discriminate.
  - apply (proj1 parsePrice_last_separator_wins (lit "1,234.56") "."%char ","%char
             (lit "1,234") (lit "56")).
    + left. split; reflexivity.
    + vm_compute. reflexivity.
    + vm_compute. intuition discriminate.
    + vm_compute. intuition discriminate.
    + vm_compute. intuition discriminate.
Defined.

Import ParserSpec.

(** C1.  The sample receipt.  Whatever the current year, [parse] finds the
    vendor, the invoice number, the date and the subtotal of the sample,
    but it reports 10 as the tax (the rate in ["Tax (10%)"] is the first
    number after the keyword) and 80 as the total (the keyword ["total"] is
    first met inside ["Subtotal"]), not 8.00 and 88.00. *)
Theorem sample_receipt_fields : forall currentYear,
  let r := parse currentYear sampleReceipt in
  vendorName r = Some (lit "SUPERMARKET ABC")
  /\ invoiceNumber r = Some (lit "INV-2024-001")
  /\ date r = Some (lit "2024-01-15")
  /\ subtotalAmount r = Some (Fin 80)
  /\ taxAmount r = Some (Fin 10)
  /\ amount r = Some (Fin 80).
Proof.
  intros currentYear r. subst r.
  assert (Hdate : extractDate currentYear sampleReceipt = Some (lit "2024-01-15")).
  { unfold extractDate.
    replace (allDateMatches sampleReceipt) with [lit "2024-01-15"]
      by (vm_compute; reflexivity).
    cbn [find length Nat.ltb Nat.leb].
    destruct (isValidDate currentYear (lit "2024-01-15")); [reflexivity|].
    cbn [falsyText andb].
    replace (isEmpty (lit "2024-01-15")) with false by reflexivity.
    unfold replace.
    replace (exec false badYearRegex (lit "2024-01-15")) with (@None rmatch)
      by (vm_compute; reflexivity).
    reflexivity. }
  unfold parse. cbn [vendorName invoiceNumber date subtotalAmount taxAmount amount].
  rewrite Hdate.
  repeat split; vm_compute; reflexivity.
Qed.

(** C4.  The fallback after a total of zero.  On the receipt whose lines are
    ["TOTAL: 0.00"] and ["ITEM 5.00"] the total extractor finds the token
    ["0.00"], that is the amount 0, and the fallback resolver still runs and
    replaces it by 5, the largest positive number of the text. *)
Theorem fallback_runs_after_zero_total : forall currentYear,
  keywordTotal zeroTotalReceipt = Some (Some (Fin 0))
  /\ amount (parse currentYear zeroTotalReceipt) = Some (Fin 5).
Proof.
  intros currentYear. split; vm_compute; reflexivity.
Qed.

(** ** Positive numbers *)

Lemma isPositive_positive n : isPositive n = true -> positive n.
Proof.
  destruct n as [|neg|q]; simpl.
  - discriminate.
  - destruct neg; [discriminate | reflexivity].
  - intros H. apply andb_true_iff in H. destruct H as [H0 Hz].
    apply Qle_bool_iff in H0.
    apply Qle_lteq in H0. destruct H0 as [Hlt | Heq]; [exact Hlt|].
    exfalso. unfold roundsToZero in Hz.
    apply negb_true_iff in Hz.
    assert (Hle : Qle_bool (Qabs q) (1 # 2 ^ 1075) = true).
    { apply Qle_bool_iff. rewrite <- Heq. discriminate. }
    congruence.
Qed.

Lemma positive_nonneg n : positive n -> nonneg n.
Proof.
  destruct n as [|neg|q]; simpl; auto. apply Qlt_le_weak.
Qed.

Lemma max2_isPositive a b :
  a = Inf true \/ isPositive a = true ->
  isPositive b = true ->
  isPositive (max2 a b) = true.
Proof.
  intros Ha Hb.
  destruct a as [|[|]|p]; destruct b as [|[|]|q]; simpl in *;
    try discriminate; try reflexivity; try exact Hb;
    try (destruct Ha; discriminate).
  destruct Ha as [Ha|Ha]; [discriminate|].
  destruct (Qle_bool p q); assumption.
Qed.

Lemma fold_max2_isPositive : forall l acc,
  Forall (fun n => isPositive n = true) l ->
  isPositive acc = true ->
  isPositive (fold_left max2 l acc) = true.
Proof.
  induction l as [|n l IH]; intros acc Hl Hacc; simpl; [exact Hacc|].
  inversion Hl; subst. apply IH; [assumption|].
  apply max2_isPositive; [right|]; assumption.
Qed.

(** The largest of one or more positive numbers is positive. *)
Lemma Math_max_isPositive l :
  l <> [] -> Forall (fun n => isPositive n = true) l ->
  isPositive (Math_max l) = true.
Proof.
  destruct l as [|n l]; [congruence|]. intros _ Hl.
  inversion Hl; subst. unfold Math_max.
  change (fold_left max2 (n :: l) (Inf true))
    with (fold_left max2 l (max2 (Inf true) n)).
  apply fold_max2_isPositive; [assumption|].
  apply max2_isPositive; [left; reflexivity | assumption].
Qed.

Lemma numericPrices_isPositive ms :
  Forall (fun n => isPositive n = true) (numericPrices ms).
Proof.
  unfold numericPrices. apply Forall_flat_map.
  apply Forall_forall. intros p _.
  destruct (parsePrice p) as [n|]; [|constructor].
  destruct (isPositive n) eqn:Hn; constructor; [exact Hn | constructor].
Qed.

Lemma length_pos_not_nil {A} (l : list A) : (0 <? length l) = true <-> l <> [].
Proof.
  destruct l; simpl; split; intros H;
    try discriminate; try reflexivity.
  exfalso. apply H. reflexivity.
Qed.

(** What the fallback step returns: the amount it was given, or the largest
    of the positive prices of the text. *)
Lemma fallbackAmount_cases s current :
  fallbackAmount s current = current
  \/ (falsyNumber current = true
      /\ numericPrices (matchAll false fallbackRegex s) <> []
      /\ fallbackAmount s current
         = Some (Math_max (numericPrices (matchAll false fallbackRegex s)))).
Proof.
  unfold fallbackAmount.
  destruct (falsyNumber current); [|left; reflexivity].
  destruct (matchAll false fallbackRegex s) as [|m ms] eqn:Hms; [left; reflexivity|].
  destruct (0 <? length (numericPrices (m :: ms))) eqn:Hlen; [|left; reflexivity].
  right. apply length_pos_not_nil in Hlen. auto.
Qed.

Lemma fallbackAmount_set s current :
  falsyNumber current = true ->
  numericPrices (matchAll false fallbackRegex s) <> [] ->
  fallbackAmount s current
  = Some (Math_max (numericPrices (matchAll false fallbackRegex s))).
Proof.
  intros Hf Hne. unfold fallbackAmount. rewrite Hf.
  destruct (matchAll false fallbackRegex s) as [|m ms] eqn:Hms.
  - exfalso. apply Hne. reflexivity.
  - apply length_pos_not_nil in Hne. rewrite Hne. reflexivity.
Qed.

Lemma extractAmount_nonneg i re s n :
  flatten (extractAmount i re s) = Some n -> nonneg n.
Proof.
  unfold extractAmount.
  destruct (exec i re s) as [m|]; [|discriminate].
  destruct (group1 m) as [g|]; [|discriminate].
  simpl. apply parsePrice_nonneg.
Qed.

(** ** The fallback total *)

Lemma isPositive_numLe_refl a : isPositive a = true -> numLe a a.
Proof.
  destruct a as [|[|]|p]; simpl; try discriminate; auto. intros _. apply Qle_refl.
Qed.

Lemma max2_cases a b :
  isPositive a = true -> isPositive b = true ->
  (max2 a b = a \/ max2 a b = b) /\ numLe a (max2 a b) /\ numLe b (max2 a b).
Proof.
  destruct a as [|[|]|p]; destruct b as [|[|]|q]; simpl; try discriminate; auto.
  intros _ _. destruct (Qle_bool p q) eqn:E.
  - apply Qle_bool_iff in E. repeat split; auto. apply Qle_refl.
  - assert (q <= p)%Q.
    { destruct (Qlt_le_dec q p) as [H|H]; [apply Qlt_le_weak, H|].
      apply Qle_bool_iff in H. congruence. }
    repeat split; auto. apply Qle_refl.
Qed.

Lemma numLe_trans a b c :
  isPositive b = true -> numLe a b -> numLe b c -> numLe a c.
Proof.
  destruct a as [|[|]|p]; destruct b as [|[|]|q]; destruct c as [|[|]|r];
    simpl; try discriminate; try tauto.
  intros _. apply Qle_trans.
Qed.

Lemma fold_max2_isMaximum : forall l acc,
  isPositive acc = true ->
  Forall (fun n => isPositive n = true) l ->
  (fold_left max2 l acc = acc \/ In (fold_left max2 l acc) l)
  /\ numLe acc (fold_left max2 l acc)
  /\ Forall (fun n => numLe n (fold_left max2 l acc)) l.
Proof.
  induction l as [|n l IH]; intros acc Hacc Hl; cbn [fold_left].
  - split; [left; reflexivity|]. split; [|constructor].
    apply isPositive_numLe_refl, Hacc.
  - inversion Hl as [|n' l' Hn Hl']; subst.
    destruct (max2_cases acc n Hacc Hn) as [Hcase [Hle1 Hle2]].
    assert (Hpos : isPositive (max2 acc n) = true)
      by (apply max2_isPositive; auto).
    destruct (IH (max2 acc n) Hpos Hl') as [Hin [Hle Hall]].
    split; [|split].
    + destruct Hin as [Hin | Hin].
      * rewrite Hin. destruct Hcase as [-> | ->]; [left | right; left]; reflexivity.
      * right. right. exact Hin.
    + apply (numLe_trans _ _ _ Hpos Hle1 Hle).
    + constructor; [apply (numLe_trans _ _ _ Hpos Hle2 Hle) | exact Hall].
Qed.

(** [Math.max] of one or more positive numbers is their greatest. *)
Lemma Math_max_isMaximum l :
  l <> [] -> Forall (fun n => isPositive n = true) l ->
  isMaximumOf l (Math_max l).
Proof.
  destruct l as [|n l]; [congruence|]. intros _ Hl.
  inversion Hl as [|n' l' Hn Hl']; subst.
  unfold Math_max.
  change (fold_left max2 (n :: l) (Inf true))
    with (fold_left max2 l (max2 (Inf true) n)).
  assert (Hn' : max2 (Inf true) n = n) by (destruct n as [|[|]|q]; reflexivity).
  rewrite Hn'.
  destruct (fold_max2_isMaximum l n Hn Hl') as [Hin [Hle Hall]].
  split.
  - destruct Hin as [-> | Hin]; [left; reflexivity | right; exact Hin].
  - constructor; assumption.
Qed.

(** The prices kept by the fallback: the normalized tokens that pass the
    test [> 0]. *)
Lemma numericPrices_spec ms n :
  In n (numericPrices ms)
  <-> exists p, In p ms /\ parsePrice p = Some n /\ isPositive n = true.
Proof.
  unfold numericPrices. rewrite in_flat_map. split.
  - intros [p [Hp Hn]]. exists p. split; [exact Hp|].
    destruct (parsePrice p) as [n'|]; [|contradiction].
    destruct (isPositive n') eqn:E; [|contradiction].
    destruct Hn as [-> | []]. auto.
  - intros [p [Hp [Hn Hpos]]]. exists p. split; [exact Hp|].
    rewrite Hn, Hpos. left. reflexivity.
Qed.

(** What the fallback step does with the amount left by the total
    extractor: a truthy amount is kept; a falsy one (absent, or zero) is
    replaced by the greatest positive price of the text when there is one. *)
Lemma fallback_amount_reading currentYear s :
  let found := flatten (keywordTotal s) in
  let prices := numericPrices (matchAll false fallbackRegex s) in
  amount (parse currentYear s) =
    (if falsyNumber found
     then match prices with [] => found | _ => Some (Math_max prices) end
     else found)
  /\ (prices <> [] -> isMaximumOf prices (Math_max prices)).
Proof.
  intros found prices. split.
  - subst found prices. unfold parse, keywordTotal. cbn [amount].
    unfold fallbackAmount.
    destruct (falsyNumber (flatten (extractAmount true totalRegex s)));
      [|reflexivity].
    destruct (matchAll false fallbackRegex s) as [|m ms]; [reflexivity|].
    destruct (numericPrices (m :: ms)); reflexivity.
  - intros Hne. apply Math_max_isMaximum; [exact Hne|].
    apply numericPrices_isPositive.
Qed.

(** ** Signs of the amounts *)

(** C10.  Signs.  An amount, a subtotal or a tax present in the record is
    not negative; an amount set by the fallback resolver is strictly
    positive (as a double too: it passes the test [> 0]); and the reason
    is that the cleaned text of [parsePrice] holds digits, dots and commas
    only, so that no price is negative. *)
Theorem amounts_are_not_negative : forall currentYear s,
  (forall n, amount (parse currentYear s) = Some n -> nonneg n)
  /\ (forall n, subtotalAmount (parse currentYear s) = Some n -> nonneg n)
  /\ (forall n, taxAmount (parse currentYear s) = Some n -> nonneg n)
  /\ (setByFallback s ->
      exists n, amount (parse currentYear s) = Some n
                /\ positive n /\ isPositive n = true)
  /\ (forall t, Forall (fun c => priceChar c = true) (cleanText t))
  /\ (forall t n, parsePrice t = Some n -> nonneg n).
Proof.
  intros currentYear s.
  assert (Hmax : numericPrices (matchAll false fallbackRegex s) <> [] ->
                 isPositive (Math_max (numericPrices (matchAll false fallbackRegex s)))
                 = true).
  { intros Hne. apply Math_max_isPositive; [exact Hne|].
    apply numericPrices_isPositive. }
  split; [|split; [|split; [|split; [|split]]]];
    [ | | | |apply cleanText_chars|apply parsePrice_nonneg].
  - intros n. unfold parse. cbn [amount].
    destruct (fallbackAmount_cases s (flatten (extractAmount true totalRegex s)))
      as [-> | [_ [Hne ->]]].
    + apply extractAmount_nonneg.
    + intros E. inversion E; subst.
      apply positive_nonneg, isPositive_positive, Hmax, Hne.
  - intros n. apply extractAmount_nonneg.
  - intros n. apply extractAmount_nonneg.
  - intros [Hfalsy Hne]. unfold parse. cbn [amount].
    unfold keywordTotal in Hfalsy.
    rewrite (fallbackAmount_set s _ Hfalsy Hne).
    eexists. split; [reflexivity|].
    split; [apply isPositive_positive|]; apply Hmax, Hne.
Qed.

Lemma amounts_are_not_negative_witness :
  nonneg (Fin 80) /\ nonneg (Fin 80) /\ nonneg (Fin 10)
  /\ exists n, amount (parse 2025 (lit "ITEM 5.00")) = Some n
               /\ positive n /\ isPositive n = true.
Proof.
  destruct (amounts_are_not_negative 2025 sampleReceipt) as [H1 [H2 [H3 _]]].
  destruct (amounts_are_not_negative 2025 (lit "ITEM 5.00")) as [_ [_ [_ [H4 _]]]].
  split; [apply H1; vm_compute; reflexivity|].
  split; [apply H2; vm_compute; reflexivity|].
  split; [apply H3; vm_compute; reflexivity|].
  apply H4. split; [vm_compute; reflexivity | vm_compute; discriminate].
Defined.

(** ** The date *)

Lemma app_same_length {A} : forall (p p' r r' : list A),
  p ++ r = p' ++ r' -> length p = length p' -> p = p' /\ r = r'.
Proof.
  induction p as [|a p IH]; intros [|a' p'] r r' H Hlen; simpl in *;
    try discriminate; [auto|].
  injection H as -> H. injection Hlen as Hlen.
  destruct (IH p' r r' H Hlen) as [-> ->]. auto.
Qed.

Lemma digit_accepts c : accepts false false [CDigit] c = isDigit c.
Proof. unfold accepts, set_match, class_has. simpl. apply orb_false_r. Qed.

Lemma Forall_digit_accepts w :
  Forall (fun c => accepts false false [CDigit] c = true) w
  <-> Forall (fun c => isDigit c = true) w.
Proof.
  split; apply Forall_impl; intros c; rewrite digit_accepts; auto.
Qed.

(** A match of [/(\d{4})/] is a run of four digits, which it captures. *)
Lemma yearRegex_inv x y :
  Matches false yearRegex x y ->
  exists run, Span x run y /\ length run = 4
              /\ Forall (fun c => isDigit c = true) run /\ cap y = Some run.
Proof.
  intros H. apply Matches_Group_inv in H. destruct H as [y0 [H ->]].
  apply Matches_Repeat_Class_inv in H.
  destruct H as [w [Hs [_ [Hall [Hmin Hmax]]]]].
  specialize (Hmax 4 eq_refl). simpl in Hmin.
  exists w. repeat split; try apply Hs.
  - lia.
  - apply Forall_digit_accepts. exact Hall.
  - simpl. rewrite (Span_between _ _ _ Hs). reflexivity.
Qed.

Lemma yearRegex_intro p run rest :
  length run = 4 -> Forall (fun c => isDigit c = true) run ->
  MatchesAt false yearRegex p (run ++ rest).
Proof.
  intros Hlen Hall. eexists. unfold yearRegex, startAt.
  apply M_Group. apply Matches_Repeat_Class_intro.
  - apply Forall_digit_accepts. exact Hall.
  - lia.
  - intros m Hm. injection Hm as <-. lia.
Qed.

Lemma parseInt_digits ds :
  ds <> [] -> Forall (fun c => isDigit c = true) ds ->
  parseInt ds = Some (digitsValue ds).
Proof.
  intros Hne Hds. destruct ds as [|d ds]; [congruence|].
  inversion Hds as [|d' ds' Hd Hds']; subst.
  destruct (digit_facts d Hd) as [Hw [Hm [Hp _]]].
  unfold parseInt, trimStart. cbn [dropWhile]. rewrite Hw.
  cbn [signOf]. rewrite Hm, Hp.
  rewrite <- (app_nil_r (d :: ds)) at 1.
  rewrite (@span_app isDigit (d :: ds) [] Hds I). reflexivity.
Qed.

(** What [exec] finds for [/(\d{4})/]: the first run of four digits. *)
Lemma exec_yearRegex d :
  match exec false yearRegex d with
  | Some m => exists run, group1 m = Some run /\ firstYearRun d run
  | None => forall p run, ~ yearRunAt d p run
  end.
Proof.
  destruct (exec false yearRegex d) as [m|] eqn:E.
  - apply exec_leftmost in E. destruct E as [Hd [[y [HM [Hg [Hb Ha]]]] Hleft]].
    apply yearRegex_inv in HM. destruct HM as [run [Hs [Hlen [Hall Hcap]]]].
    exists run. split; [congruence|].
    exists (prefix m). split.
    + exists (suffix m). destruct Hs as [Hs _]. simpl in Hs.
      rewrite Ha in Hs. rewrite Hd, Hs. auto.
    + intros p' run' [rest' [Hd' [Hlen' Hall']]].
      destruct (Nat.le_gt_cases (length (prefix m)) (length p')) as [Hle|Hgt];
        [exact Hle|].
      exfalso. apply (Hleft p' (run' ++ rest') Hd' Hgt).
      apply yearRegex_intro; assumption.
  - intros p run [rest [Hd [Hlen Hall]]].
    apply (proj1 (exec_None false yearRegex d) E p (run ++ rest) Hd).
    apply yearRegex_intro; assumption.
Qed.

Lemma firstYearRun_unique d run run' :
  firstYearRun d run -> firstYearRun d run' -> run = run'.
Proof.
  intros [p [Hp Hmin]] [p' [Hp' Hmin']].
  pose proof (Hmin _ _ Hp') as H1. pose proof (Hmin' _ _ Hp) as H2.
  destruct Hp as [rest [Hd [Hlen _]]]. destruct Hp' as [rest' [Hd' [Hlen' _]]].
  rewrite Hd in Hd'.
  destruct (app_same_length _ _ _ _ Hd' ltac:(lia)) as [_ Hrest].
  apply app_same_length in Hrest; [apply Hrest | congruence].
Qed.

(** The validator reads the first run of four digits as the year. *)
Lemma isValidDate_spec currentYear d :
  isValidDate currentYear d = true <-> plausibleYear currentYear d.
Proof.
  unfold isValidDate. pose proof (exec_yearRegex d) as H.
  destruct (exec false yearRegex d) as [m|].
  - destruct H as [run [Hg Hfirst]]. rewrite Hg.
    assert (Hrun : parseInt run = Some (digitsValue run)).
    { destruct Hfirst as [p [[rest [_ [Hlen Hall]]] _]].
      apply parseInt_digits; [|exact Hall].
      intros ->. discriminate. }
    rewrite Hrun. split.
    + intros Hr. apply andb_true_iff in Hr. destruct Hr as [H1 H2].
      apply Z.leb_le in H1. apply Z.leb_le in H2.
      exists run. auto.
    + intros [run' [Hfirst' [H1 H2]]].
      rewrite (firstYearRun_unique d run run' Hfirst Hfirst').
      apply andb_true_iff. split; apply Z.leb_le; assumption.
  - split; [discriminate|].
    intros [run [[p [Hp _]] _]]. exfalso. apply (H p run Hp).
Qed.

Lemma spells_exact w : forall u, spells false w u -> u = list_ascii_of_string w.
Proof.
  unfold spells. induction (list_ascii_of_string w) as [|wc l IH]; intros u H.
  - inversion H. reflexivity.
  - inversion H as [|wc' c l' u' Hc Hrest]; subst.
    simpl in Hc. apply Ascii.eqb_eq in Hc. subst c.
    f_equal. apply IH. exact Hrest.
Qed.

Lemma spells_refl w : spells false w (list_ascii_of_string w).
Proof.
  unfold spells. induction (list_ascii_of_string w) as [|wc l IH]; constructor.
  - simpl. apply Ascii.eqb_refl.
  - exact IH.
Qed.

(** A match of [/202[6-9]/]. *)
Lemma badYearRegex_inv x y :
  Matches false badYearRegex x y ->
  exists dg, Span x (lit "202" ++ [dg]) y /\ in_range 54 57 dg = true.
Proof.
  intros H. apply Matches_Seq_inv in H. destruct H as [y0 [H1 H2]].
  apply Matches_word_inv in H1. destruct H1 as [u [Hs1 [_ Hu]]].
  apply spells_exact in Hu. subst u.
  apply Matches_Class_inv in H2. destruct H2 as [dg [Hs2 [Hdg _]]].
  exists dg. split; [apply (Span_app _ _ _ _ _ Hs1 Hs2)|].
  unfold accepts, set_match, class_has in Hdg. simpl in Hdg.
  rewrite orb_false_r in Hdg. exact Hdg.
Qed.

Lemma badYearRegex_intro c p rest :
  badYearAt c p rest ->
  exists tail, c = p ++ tail /\ MatchesAt false badYearRegex p tail.
Proof.
  intros [dg [Hc Hdg]]. exists (lit "202" ++ dg :: rest). split; [exact Hc|].
  exists (MState (dg :: rev (lit "202") ++ rev p) rest None).
  unfold badYearRegex, startAt.
  apply M_Seq with (y := MState (rev (lit "202") ++ rev p) (dg :: rest) None).
  - apply (Matches_word_intro false (dg :: rest) None "202" (lit "202") (rev p)).
    apply spells_refl.
  - apply (@M_Class false false [CRange "6" "9"] dg rest
             (MState (rev (lit "202") ++ rev p) (dg :: rest) None));
      [reflexivity|].
    simpl. rewrite orb_false_r. exact Hdg.
Qed.

(** The year correction replaces the first of 2026..2029, if any. *)
Lemma replace_badYear_spec yr c :
  yearCorrected yr c (replace false badYearRegex yr c).
Proof.
  unfold replace. destruct (exec false badYearRegex c) as [m|] eqn:E.
  - left. apply exec_leftmost in E.
    destruct E as [Hc [[y [HM [_ [_ Ha]]]] Hleft]].
    apply badYearRegex_inv in HM. destruct HM as [dg [[Hs _] Hdg]].
    simpl in Hs. rewrite Ha in Hs.
    exists (prefix m), (suffix m). split; [|split].
    + exists dg. split; [|exact Hdg].
      rewrite Hc, Hs. reflexivity.
    + intros p' rest' Hbad.
      destruct (Nat.le_gt_cases (length (prefix m)) (length p')) as [Hle|Hgt];
        [exact Hle|].
      exfalso. destruct (badYearRegex_intro _ _ _ Hbad) as [tail [Hsplit Hm]].
      apply (Hleft p' tail Hsplit Hgt Hm).
    + reflexivity.
  - right. split; [|reflexivity].
    intros p rest Hbad.
    destruct (badYearRegex_intro _ _ _ Hbad) as [tail [Hsplit Hm]].
    apply (proj1 (exec_None false badYearRegex c) E p tail Hsplit Hm).
Qed.

Lemma dateSep_accepts c :
  accepts false false [CChar "-"; CChar "/"; CChar "."; CChar " "] c = isDateSep c.
Proof. destruct c as [[] [] [] [] [] [] [] []]; reflexivity. Qed.

Lemma digitRun_inv x y lo hi :
  lo <= hi ->
  Matches false (Repeat digit lo (Some hi)) x y ->
  exists w, Span x w y /\ digitRun lo hi w.
Proof.
  intros Hle H. apply Matches_Repeat_Class_inv in H.
  destruct H as [w [Hs [_ [Hall [Hmin Hmax]]]]].
  specialize (Hmax hi eq_refl). simpl in Hmin.
  exists w. split; [exact Hs|]. split; [lia|].
  apply Forall_digit_accepts. exact Hall.
Qed.

(** A match of the date pattern has the shape of a date. *)
Lemma dateRegex_inv x y :
  Matches false dateRegex x y -> exists d, Span x d y /\ dateShaped d.
Proof.
  intros H. apply Matches_Group_inv in H. destruct H as [y0 [H ->]].
  unfold seq in H.
  apply Matches_Seq_inv in H. destruct H as [y1 [Ha H]].
  apply Matches_Seq_inv in H. destruct H as [y2 [Hs1 H]].
  apply Matches_Seq_inv in H. destruct H as [y3 [Hb H]].
  apply Matches_Seq_inv in H. destruct H as [y4 [Hs2 Hc]].
  apply digitRun_inv in Ha; [|lia]. destruct Ha as [a [Sa Ra]].
  apply digitRun_inv in Hb; [|lia]. destruct Hb as [b [Sb Rb]].
  apply digitRun_inv in Hc; [|lia]. destruct Hc as [c [Sc Rc]].
  apply Matches_Class_inv in Hs1. destruct Hs1 as [s1 [S1 [R1 _]]].
  apply Matches_Class_inv in Hs2. destruct Hs2 as [s2 [S2 [R2 _]]].
  rewrite dateSep_accepts in R1, R2.
  exists (a ++ [s1] ++ b ++ [s2] ++ c). split.
  - apply Span_capture.
    repeat (eapply Span_app; [eassumption|]). exact Sc.
  - exists a, s1, b, s2, c. repeat split; try apply Ra; try apply Rb;
      try apply Rc; assumption.
Qed.

Lemma dateShaped_not_empty d : dateShaped d -> isEmpty d = false.
Proof.
  intros [a [s1 [b [s2 [c [-> [[[Ha _] _] _]]]]]]].
  destruct a; [simpl in Ha; lia | reflexivity].
Qed.

(** Every candidate has the shape of a date. *)
Lemma allDateMatches_shaped s : Forall dateShaped (allDateMatches s).
Proof.
  unfold allDateMatches, matchAll. apply Forall_map.
  apply scan_Forall. intros bef aft y Hm.
  destruct (result_shape _ _ _ _ Hm) as [_ [_ [_ [Hb HM]]]].
  apply dateRegex_inv in HM. destruct HM as [d [[_ Hs] Hd]].
  simpl in Hs. rewrite Hb in Hs.
  apply app_inv_tail in Hs. apply (f_equal (@rev ascii)) in Hs.
  rewrite !rev_involutive in Hs. rewrite Hs. exact Hd.
Qed.

Lemma find_firstSuch {A} (ok : A -> bool) cs d :
  firstSuch ok cs d -> find ok cs = Some d.
Proof.
  intros [l1 [l2 [-> [Hd Hl1]]]].
  induction Hl1 as [|c l1 Hc _ IH]; simpl.
  - rewrite Hd. reflexivity.
  - rewrite Hc. exact IH.
Qed.

Lemma find_none_Forall {A} (ok : A -> bool) cs :
  Forall (fun c => ok c = false) cs -> find ok cs = None.
Proof.
  induction 1 as [|c cs Hc _ IH]; simpl; [reflexivity|].
  rewrite Hc. exact IH.
Qed.

Lemma firstSuch_In {A} (ok : A -> bool) cs d : firstSuch ok cs d -> In d cs.
Proof. intros [l1 [l2 [-> _]]]. apply in_elt. Qed.

Lemma find_Some_firstSuch {A} (ok : A -> bool) cs d :
  find ok cs = Some d -> firstSuch ok cs d.
Proof.
  induction cs as [|c cs IH]; simpl; [discriminate|].
  destruct (ok c) eqn:E.
  - intros H. injection H as <-. exists [], cs. auto.
  - intros H. destruct (IH H) as [l1 [l2 [-> [Hd Hl1]]]].
    exists (c :: l1), l2. auto.
Qed.

(** *** The current year as a text *)

Lemma uint_digits d :
  Forall (fun c => isDigit c = true) (lit (NilEmpty.string_of_uint d)).
Proof.
  induction d; cbn [NilEmpty.string_of_uint lit list_ascii_of_string];
    constructor; try reflexivity; exact IHd.
Qed.

Lemma uint_value_acc d : forall p,
  fold_left (fun acc c => (10 * acc + Z.of_nat (code c - 48))%Z)
            (lit (NilEmpty.string_of_uint d)) (Z.pos p)
  = Z.pos (Pos.of_uint_acc d p).
Proof.
  induction d; intros p;
    cbn [NilEmpty.string_of_uint lit list_ascii_of_string fold_left Pos.of_uint_acc];
    try reflexivity; rewrite <- IHd; f_equal;
    match goal with
    | |- context [Z.of_nat ?n] =>
        let v := eval vm_compute in (Z.of_nat n) in change (Z.of_nat n) with v
    end; lia.
Qed.

Lemma uint_value d :
  digitsValue (lit (NilEmpty.string_of_uint d)) = Z.of_N (Pos.of_uint d).
Proof.
  unfold digitsValue.
  induction d;
    cbn [NilEmpty.string_of_uint lit list_ascii_of_string fold_left Pos.of_uint];
    try reflexivity; try exact IHd; apply uint_value_acc.
Qed.

Lemma unorm_head d rest : Decimal.unorm d = Decimal.D0 rest -> rest = Decimal.Nil.
Proof.
  induction d; cbn; try discriminate; try (intros [= <-]; reflexivity).
  exact IHd.
Qed.

Lemma pos_to_uint_digits p :
  decimalDigits (Z.pos p) (lit (NilEmpty.string_of_uint (Pos.to_uint p))).
Proof.
  split; [|split; [apply uint_digits|split]].
  - pose proof (DecimalPos.Unsigned.to_uint_nonnil p) as H.
    destruct (Pos.to_uint p); [congruence | discriminate ..].
  - rewrite uint_value, DecimalPos.Unsigned.of_to. reflexivity.
  - intros rest Hr.
    pose proof (DecimalPos.Unsigned.to_of (Pos.to_uint p)) as Hn.
    rewrite DecimalPos.Unsigned.of_to in Hn. cbn [N.to_uint] in Hn.
    destruct (Pos.to_uint p) as [|u|u|u|u|u|u|u|u|u|u] eqn:E;
      cbn [NilEmpty.string_of_uint lit list_ascii_of_string] in Hr; try discriminate.
    injection Hr as <-. symmetry in Hn. apply unorm_head in Hn. rewrite Hn. reflexivity.
Qed.

Lemma toString_spec n : decimalWriting n (toString n).
Proof.
  unfold toString, decimalWriting.
  destruct n as [|p|p]; cbn [Z.to_int NilZero.string_of_int Z.abs Z.ltb Z.compare].
  - exists (lit "0"). split; [|reflexivity].
    split; [discriminate|]. split; [repeat constructor|]. split; [reflexivity|].
    intros rest [= <-]. reflexivity.
  - exists (lit (NilEmpty.string_of_uint (Pos.to_uint p))).
    split; [apply pos_to_uint_digits|].
    unfold NilZero.string_of_uint.
    pose proof (DecimalPos.Unsigned.to_uint_nonnil p) as H.
    destruct (Pos.to_uint p); [congruence | reflexivity ..].
  - exists (lit (NilEmpty.string_of_uint (Pos.to_uint p))).
    split; [apply pos_to_uint_digits|].
    unfold NilZero.string_of_uint.
    pose proof (DecimalPos.Unsigned.to_uint_nonnil p) as H.
    destruct (Pos.to_uint p); [congruence | reflexivity ..].
Qed.

Lemma decimalWriting_value n t :
  decimalWriting n t ->
  (0 <= n)%Z -> t <> [] /\ Forall (fun c => isDigit c = true) t /\ digitsValue t = n.
Proof.
  intros [ds [[Hne [Hd [Hv _]]] ->]] Hn.
  replace (n <? 0)%Z with false by (symmetry; apply Z.ltb_ge; exact Hn).
  rewrite Z.abs_eq in Hv by exact Hn. auto.
Qed.


(** *** The candidates *)

Lemma dateRegex_intro_at d : dateShaped d ->
  forall bef rest, exists y, Matches false dateRegex (MState bef (d ++ rest) None) y.
Proof.
  intros [a [s1 [b [s2 [c [-> [[[La Ua] Ha] [H1 [[[Lb Ub] Hb] [H2 [[Lc Uc] Hc]]]]]]]]]]]
         bef rest.
  unfold dateRegex, seq. eexists.
  apply M_Group.
  rewrite <- !app_assoc. cbn [app]. rewrite <- !app_assoc. cbn [app].
  eapply M_Seq.
  { apply Matches_Repeat_Class_intro.
    - apply Forall_digit_accepts, Ha.
    - exact La.
    - intros m Hm. injection Hm as <-. exact Ua. }
  eapply M_Seq.
  { eapply M_Class; [reflexivity|].
    change (accepts false false [CChar "-"; CChar "/"; CChar "."; CChar " "] s1 = true).
    rewrite dateSep_accepts. exact H1. }
  cbn [before cap].
  eapply M_Seq.
  { apply (Matches_Repeat_Class_intro false false [CDigit] (s2 :: c ++ rest) None b).
    - apply Forall_digit_accepts, Hb.
    - exact Lb.
    - intros m Hm. injection Hm as <-. exact Ub. }
  eapply M_Seq.
  { eapply M_Class; [reflexivity|].
    change (accepts false false [CChar "-"; CChar "/"; CChar "."; CChar " "] s2 = true).
    rewrite dateSep_accepts. exact H2. }
  cbn [before cap].
  apply (Matches_Repeat_Class_intro false false [CDigit] rest None c).
  - apply Forall_digit_accepts, Hc.
  - exact Lc.
  - intros m Hm. injection Hm as <-. exact Uc.
Qed.

Lemma dateSep_not_digit c : isDateSep c = true -> isDigit c = false.
Proof. destruct c as [[] [] [] [] [] [] [] []]; intros H; try discriminate; reflexivity. Qed.

(** Two runs that start at the same place and end before a unit outside
    the run are the same. *)
Lemma run_then_stop (p : ascii -> bool) : forall a a' s s' r r',
  Forall (fun c => p c = true) a -> Forall (fun c => p c = true) a' ->
  p s = false -> p s' = false ->
  a ++ s :: r = a' ++ s' :: r' -> a = a' /\ s = s' /\ r = r'.
Proof.
  induction a as [|c a IH]; intros a' s s' r r' Ha Ha' Hs Hs' E;
    destruct a' as [|c' a']; cbn [app] in E.
  - injection E as -> ->. auto.
  - injection E as -> _. apply Forall_inv in Ha'. congruence.
  - injection E as -> _. apply Forall_inv in Ha. congruence.
  - injection E as -> E.
    apply Forall_inv_tail in Ha, Ha'.
    destruct (IH a' s s' r r' Ha Ha' Hs Hs' E) as [-> [-> ->]]. auto.
Qed.


(** A run at the start of a text is no longer than the longest one. *)
Lemma run_within (p : ascii -> bool) : forall c post run rest,
  Forall (fun d => p d = true) c ->
  match rest with d :: _ => p d = false | [] => True end ->
  c ++ post = run ++ rest -> length c <= length run.
Proof.
  induction c as [|d c IH]; intros post run rest Hc Hrest E; [simpl; lia|].
  destruct run as [|d' run].
  - exfalso. cbn [app] in E. subst rest. apply Forall_inv in Hc. congruence.
  - cbn [app] in E. injection E as _ E. cbn [length].
    apply Forall_inv_tail in Hc. specialize (IH post run rest Hc Hrest E). lia.
Qed.

Lemma Span_state x w y :
  Span x w y -> y = MState (rev w ++ before x) (after y) (cap y).
Proof. intros [_ Hb]. destruct y as [b a c]. cbn in *. rewrite Hb. reflexivity. Qed.

(** At a position, the date pattern reads the longest text that has the
    shape of a date. *)
Lemma matchAt_dateRegex_longest bef rest y :
  matchAt false dateRegex bef rest = Some y ->
  forall d' post', rest = d' ++ post' -> dateShaped d' ->
                   length d' <= length (matched (result bef y)).
Proof.
  intros Hm d' post' Hrest Hd'.
  destruct (result_shape _ _ _ _ Hm) as [_ [_ [_ [Hbef _]]]].
  assert (Hlen : length (before y) = length (matched (result bef y)) + length bef)
    by (rewrite Hbef, length_app, length_rev; reflexivity).
  clear Hbef. revert Hlen. generalize (length (matched (result bef y))).
  intros L Hlen.
  unfold matchAt in Hm.
  destruct (matcher false dateRegex (MState bef rest None) (fun y => Ok y))
    as [| |y0] eqn:E; try discriminate.
  injection Hm as ->.
  set (x := MState bef rest None) in *.
  change (matcher false dateRegex x (fun y => Ok y))
    with (matcher false (Repeat digit 1 (Some 4)) x (fun y1 =>
          matcher false dateSep y1 (fun y2 =>
          matcher false (Repeat digit 1 (Some 2)) y2 (fun y3 =>
          matcher false dateSep y3 (fun y4 =>
          matcher false (Repeat digit 2 (Some 4)) y4 (fun y5 =>
          Ok (capture x y5))))))) in E.
  apply matcher_sound in E. destruct E as [y1 [M1 E]].
  apply matcher_sound in E. destruct E as [y2 [M2 E]].
  apply matcher_sound in E. destruct E as [y3 [M3 E]].
  apply matcher_sound in E. destruct E as [y4 [M4 E]].
  apply digitRun_inv in M1; [|lia]. destruct M1 as [a [Sa [_ Ha]]].
  apply digitRun_inv in M3; [|lia]. destruct M3 as [b [Sb [_ Hb]]].
  apply Matches_Class_inv in M2. destruct M2 as [s1 [S1 [R1 _]]].
  apply Matches_Class_inv in M4. destruct M4 as [s2 [S2 [R2 _]]].
  rewrite dateSep_accepts in R1, R2.
  pose proof (Span_app _ _ _ _ _ Sa (Span_app _ _ _ _ _ S1
                (Span_app _ _ _ _ _ Sb S2))) as S4.
  destruct S4 as [Haft Hbef4]. cbn [before after x] in Haft, Hbef4.
  destruct Hd' as [a' [s1' [b' [s2' [c' [-> [[_ Ha'] [H1' [[_ Hb'] [H2' [[Lc' Uc'] Hc']]]]]]]]]]].
  rewrite Hrest in Haft. rewrite <- !app_assoc in Haft. cbn [app] in Haft.
  rewrite <- !app_assoc in Haft. cbn [app] in Haft.
  destruct (run_then_stop isDigit _ _ _ _ _ _ Ha' Ha
              (dateSep_not_digit _ H1') (dateSep_not_digit _ R1) Haft)
    as [-> [-> Haft1]].
  destruct (run_then_stop isDigit _ _ _ _ _ _ Hb' Hb
              (dateSep_not_digit _ H2') (dateSep_not_digit _ R2) Haft1)
    as [-> [-> Haft2]].
  destruct (span isDigit (after y4)) as [run rest4] eqn:Hspan.
  apply span_spec in Hspan. destruct Hspan as [Hy4 [Hrun Hrest4]].
  rewrite Hy4 in Haft2.
  pose proof (run_within isDigit c' post' run rest4 Hc' Hrest4 Haft2) as Hcr.
  destruct y4 as [bef4 aft4 cp4]. cbn [before after] in *. subst aft4.
  change (matcher false (Repeat digit 2 (Some 4))
                  (MState bef4 (run ++ rest4) cp4) (fun y5 => Ok (capture x y5)))
    with (repeatMatcher (@matcher mstate false digit) (S (2 + length (run ++ rest4)))
                        2 (Some 4) (MState bef4 (run ++ rest4) cp4)
                        (fun y5 => Ok (capture x y5))) in E.
  assert (Hrun' : Forall (fun c => xorb false (set_match false (class_has [CDigit]) c)
                                   = true) run).
  { eapply Forall_impl; [|exact Hrun]. intros c Hc.
    change (accepts false false [CDigit] c = true). rewrite digit_accepts. exact Hc. }
  assert (Hrest4' : match rest4 with
                    | d :: _ => xorb false (set_match false (class_has [CDigit]) d)
                                = false
                    | [] => True
                    end).
  { destruct rest4 as [|d rest4]; [exact I|].
    change (accepts false false [CDigit] d = false). rewrite digit_accepts.
    exact Hrest4. }
  pose proof (@repeat_unit_greedy_bounded mstate (@matcher mstate false digit)
                _ (capture x) (fun x k => eq_refl) run rest4 bef4 cp4
                (S (2 + length (run ++ rest4))) 2 (Some 4) Hrun' Hrest4') as G.
  cbv beta iota zeta in G.
  assert (Htake : length c' <= Nat.min 4 (length run)) by (apply Nat.min_glb; lia).
  remember (Nat.min 4 (length run)) as take eqn:Heqtake.
  rewrite G in E; [|lia | rewrite length_app; lia].
  injection E as <-. cbn [capture before] in Hlen. rewrite Hbef4 in Hlen.
  rewrite !length_app, !length_rev, length_firstn, !length_app in Hlen.
  cbn [length] in Hlen.
  rewrite !length_app. cbn [length]. rewrite length_app. cbn [length]. lia.
Qed.

Lemma scan_candidates : forall n aft bef,
  length aft < n ->
  candidatesOf aft (map matched (scan false dateRegex bef aft 0)).
Proof.
  induction n as [|n IH]; intros aft bef Hn; [lia|].
  rewrite (@scan_step false dateRegex) by (cbn; lia).
  destruct (execFrom false dateRegex bef aft) as [m|] eqn:E.
  - destruct (@execFrom_leftmost false dateRegex aft bef m E)
      as [p [y [Hp [Ha [HM [_ [Hb [_ Hleft]]]]]]]].
    destruct (@execFrom_matchAt false dateRegex aft bef m E) as [p2 [rest2 [y2 [Ha2 [Hm2 Hres]]]]].
    assert (Hp2 : p2 = p).
    { rewrite Hres in Hp. cbn [result prefix] in Hp.
      rewrite rev_app_distr, rev_involutive in Hp.
      apply app_inv_head in Hp. exact Hp. }
    subst p2.
    assert (Hrest2 : rest2 = matched m ++ suffix m).
    { rewrite Ha2 in Ha. apply app_inv_head in Ha. exact Ha. }
    apply dateRegex_inv in HM. destruct HM as [d [[_ Sd] Hd]].
    cbn [before] in Sd. rewrite Hb in Sd. apply app_inv_tail in Sd.
    apply (f_equal (@rev ascii)) in Sd. rewrite !rev_involutive in Sd. subst d.
    cbn [map]. apply CandidatesNext with (pre := p) (post := suffix m).
    + split; [exact Ha|]. split.
      * split; [reflexivity|]. split; [exact Hd|].
        intros d' post' Hs' Hd'. rewrite Hres.
        apply (matchAt_dateRegex_longest _ _ _ Hm2 d' post'); [|exact Hd'].
        rewrite Hrest2. exact Hs'.
      * intros pre' d' post' Hs' Hd'.
        destruct (le_lt_dec (length p) (length pre')) as [Hle|Hlt]; [exact Hle|].
        exfalso.
        destruct (dateRegex_intro_at d' Hd' (rev pre' ++ bef) post') as [z Hz].
        exact (Hleft pre' (d' ++ post') Hs' Hlt z Hz).
    + apply IH.
      pose proof (f_equal (@length ascii) Ha) as L. rewrite !length_app in L.
      pose proof (dateShaped_not_empty _ Hd) as Hne.
      destruct (matched m); [discriminate|]. cbn [length] in L. lia.
  - cbn [map]. apply CandidatesNone.
    intros pre d post Hs Hd.
    destruct (dateRegex_intro_at d Hd (rev pre ++ bef) post) as [z Hz].
    exact (@execFrom_None false dateRegex aft bef E pre (d ++ post) Hs z Hz).
Qed.

Lemma allDateMatches_candidates s : candidatesOf s (allDateMatches s).
Proof. apply (scan_candidates (S (length s))). lia. Qed.

Lemma firstCandidate_unique s pre d post pre' d' post' :
  firstCandidate s pre d post -> firstCandidate s pre' d' post' ->
  pre = pre' /\ d = d' /\ post = post'.
Proof.
  intros [Hs [[_ [Hd Hmax]] Hleft]] [Hs' [[_ [Hd' Hmax'] ] Hleft']].
  pose proof (Hleft pre' d' post' Hs' Hd') as L1.
  pose proof (Hleft' pre d post Hs Hd) as L2.
  assert (Hpre : pre = pre').
  { rewrite Hs' in Hs.
    apply (f_equal (firstn (length pre))) in Hs.
    rewrite firstn_app, firstn_all2 in Hs by lia.
    replace (length pre - length pre') with 0 in Hs by lia.
    cbn [firstn] in Hs. rewrite app_nil_r in Hs.
    rewrite firstn_app, Nat.sub_diag, firstn_all in Hs. cbn [firstn] in Hs.
    rewrite app_nil_r in Hs. symmetry. exact Hs. }
  subst pre'. rewrite Hs in Hs'. apply app_inv_head in Hs'.
  pose proof (Hmax d' post' Hs' Hd') as M1.
  pose proof (Hmax' d post (eq_sym Hs') Hd) as M2.
  assert (Hdd : d = d').
  { apply (f_equal (firstn (length d))) in Hs'.
    rewrite firstn_app, Nat.sub_diag, firstn_all in Hs'. cbn [firstn] in Hs'.
    rewrite app_nil_r in Hs'.
    rewrite firstn_app, firstn_all2 in Hs' by lia.
    replace (length d - length d') with 0 in Hs' by lia.
    cbn [firstn] in Hs'. rewrite app_nil_r in Hs'. exact Hs'. }
  subst d'. apply app_inv_head in Hs'. auto.
Qed.

Lemma candidatesOf_unique s cs : candidatesOf s cs ->
  forall cs', candidatesOf s cs' -> cs' = cs.
Proof.
  induction 1 as [s Hno | s pre d post cs Hf Hc IH]; intros cs' H'.
  - inversion H' as [|s0 pre' d' post' cs0 Hf' Hc']; subst; [reflexivity|].
    exfalso. destruct Hf' as [Hs [[_ [Hd _]] _]]. exact (Hno pre' d' post' Hs Hd).
  - inversion H' as [s0 Hno|s0 pre' d' post' cs0 Hf' Hc']; subst.
    + exfalso. destruct Hf as [Hs [[_ [Hd _]] _]]. exact (Hno pre d post Hs Hd).
    + destruct (firstCandidate_unique s pre' d' post' pre d post Hf' Hf) as [-> [-> ->]].
      f_equal. apply IH. exact Hc'.
Qed.

(** C5.  The date.  The candidates are the texts found by the date
    pattern, in order of appearance: each is the first text with the shape
    of a date that starts after the candidate before it, and the longest
    one at its place, which fixes the list.  The date is the first
    candidate that the validator accepts; when there are candidates and
    none is accepted, it is the first candidate with the first of the years
    2026..2029 written in it (if any) replaced by the current year in
    decimal digits; when there is no candidate it is absent.  The
    validator accepts a candidate exactly when its first run of four
    digits is a year from 2000 to the year after the current one. *)
Theorem date_is_first_plausible_candidate : forall currentYear s,
  let cs := allDateMatches s in
  (Forall dateShaped cs /\ inOrderIn s cs
   /\ candidatesOf s cs /\ (forall cs', candidatesOf s cs' -> cs' = cs))
  /\ (forall d, firstSuch (isValidDate currentYear) cs d ->
                date (parse currentYear s) = Some d)
  /\ (forall c rest,
        cs = c :: rest ->
        Forall (fun d => isValidDate currentYear d = false) cs ->
        exists c', date (parse currentYear s) = Some c'
                   /\ yearCorrected (toString currentYear) c c'
                   /\ decimalWriting currentYear (toString currentYear))
  /\ (cs = [] -> date (parse currentYear s) = None)
  /\ (forall d, isValidDate currentYear d = true <-> plausibleYear currentYear d).
Proof.
  intros currentYear s cs.
  pose proof (allDateMatches_shaped s) as Hshape. fold cs in Hshape.
  split.
  { split; [exact Hshape|]. split; [apply matchAll_in_order|].
    split; [apply allDateMatches_candidates|].
    apply candidatesOf_unique, allDateMatches_candidates. }
  unfold parse. cbn [date]. unfold extractDate. fold cs.
  split; [|split; [|split]].
  - intros d Hd. rewrite (find_firstSuch _ _ _ Hd). cbn [falsyText].
    rewrite Forall_forall in Hshape.
    rewrite (dateShaped_not_empty d (Hshape d (firstSuch_In _ _ _ Hd))).
    reflexivity.
  - intros c rest Hcs Hall. rewrite (find_none_Forall _ _ Hall).
    rewrite Hcs in *. cbn [falsyText length Nat.ltb Nat.leb andb].
    inversion Hshape as [|c0 rest0 Hc _]; subst.
    rewrite (dateShaped_not_empty c Hc).
    eexists. split; [reflexivity|].
    split; [apply replace_badYear_spec | apply toString_spec].
  - intros ->. reflexivity.
  - intros d. apply isValidDate_spec.
Qed.

Lemma date_is_first_plausible_candidate_witness :
  (candidatesOf twoDatesReceipt [lit "01/01/1999"; lit "15/03/2024"]
   /\ date (parse 2025 twoDatesReceipt) = Some (lit "15/03/2024"))
  /\ (exists c', date (parse 2025 futureDatesReceipt) = Some c'
                 /\ yearCorrected (toString 2025) (lit "05/05/2027") c'
                 /\ decimalWriting 2025 (toString 2025))
  /\ date (parse 2025 futureDatesReceipt) = Some (lit "05/05/2025")
  /\ date (parse 2025 (lit "no date here")) = None
  /\ plausibleYear 2025 (lit "2024-01-15").
Proof.
  assert (E1 : allDateMatches twoDatesReceipt = [lit "01/01/1999"; lit "15/03/2024"])
    by (vm_compute; reflexivity).
  assert (E2 : allDateMatches futureDatesReceipt = [lit "05/05/2027"; lit "06/06/2028"])
    by (vm_compute; reflexivity).
  split; [split|split; [|split; [|split]]].
  - rewrite <- E1.
    exact (proj1 (proj2 (proj2 (proj1
             (date_is_first_plausible_candidate 2025 twoDatesReceipt))))).
  - apply (proj1 (proj2 (date_is_first_plausible_candidate 2025 twoDatesReceipt))).
    rewrite E1. exists [lit "01/01/1999"], []. split; [reflexivity|].
    split; [vm_compute; reflexivity|].
    constructor; [vm_compute; reflexivity | constructor].
  - apply (proj1 (proj2 (proj2
             (date_is_first_plausible_candidate 2025 futureDatesReceipt)))
             (lit "05/05/2027") [lit "06/06/2028"] E2).
    rewrite E2.
    constructor; [vm_compute; reflexivity|].
    constructor; [vm_compute; reflexivity | constructor].
  - vm_compute. reflexivity.
  - apply (proj1 (proj2 (proj2 (proj2
             (date_is_first_plausible_candidate 2025 (lit "no date here")))))).
    vm_compute. reflexivity.
  - apply (proj2 (proj2 (proj2 (proj2
             (date_is_first_plausible_candidate 2025 (lit "no date here")))))
             (lit "2024-01-15")).
    vm_compute. reflexivity.
Defined.


(** ** The clock *)










(** ** The vendor *)

Lemma startsWith_spec w : forall s,
  startsWith w s = true <-> exists b, s = w ++ b.
Proof.
  induction w as [|a w IH]; intros s; simpl.
  - split; [intros _; exists s; reflexivity | reflexivity].
  - destruct s as [|c s].
    + split; [discriminate | intros [b Hb]; discriminate].
    + rewrite andb_true_iff, IH. split.
      * intros [Ha [b ->]]. apply Ascii.eqb_eq in Ha. subst. exists b. reflexivity.
      * intros [b Hb]. injection Hb as -> ->.
        split; [apply Ascii.eqb_refl | exists b; reflexivity].
Qed.

(** [includes] is the substring test. *)
Lemma includes_spec w : forall u, includes u w = true <-> isSubstring w u.
Proof.
  induction u as [|c u IH].
  - simpl. rewrite orb_false_r, startsWith_spec. split.
    + intros [b Hb]. exists [], b. exact Hb.
    + intros [a [b Hab]]. destruct a; [exists b; exact Hab | discriminate].
  - cbn [includes]. rewrite orb_true_iff, startsWith_spec, IH. split.
    + intros [[b Hb] | [a [b Hab]]].
      * exists [], b. exact Hb.
      * exists (c :: a), b. rewrite Hab. reflexivity.
    + intros [a [b Hab]]. destruct a as [|c' a].
      * left. exists b. exact Hab.
      * right. injection Hab as _ Hab. exists a, b. exact Hab.
Qed.

Lemma space_accepts c : accepts false false [CSpace] c = isWhiteSpace c.
Proof. unfold accepts, set_match, class_has. simpl. apply orb_false_r. Qed.

Lemma Span_start_nil p rest w y :
  Span (startAt p rest) w y -> rest = w ++ after y /\ before y = rev w ++ rev p.
Proof. intros [Ha Hb]. simpl in *. auto. Qed.

(** A match of [/^(CALLE|AV|JR)\.?\s/] is an address prefix. *)
Lemma addressRegex_inv p rest y :
  Matches false addressRegex (startAt p rest) y ->
  p = [] /\ addressPrefixed rest.
Proof.
  unfold addressRegex, seq. intros H.
  apply Matches_Seq_inv in H. destruct H as [y0 [Hbol H]].
  apply Matches_Bol_inv in Hbol. destruct Hbol as [-> Hp]. simpl in Hp.
  assert (p = []) as ->.
  { apply (f_equal (@rev ascii)) in Hp. rewrite rev_involutive in Hp. exact Hp. }
  split; [reflexivity|].
  apply Matches_Seq_inv in H. destruct H as [y1 [Hkw H]].
  apply Matches_Seq_inv in H. destruct H as [y2 [Hdot Hsp]].
  apply Matches_Group_inv in Hkw. destruct Hkw as [y1' [Hkw ->]].
  apply Matches_anyOf_inv in Hkw. destruct Hkw as [kw [Hin Hkw]].
  apply Matches_word_inv in Hkw. destruct Hkw as [u [Su [_ Hu]]].
  apply spells_exact in Hu. subst u.
  apply (Span_capture _ _ _ (startAt [] rest)) in Su.
  apply Matches_Class_inv in Hsp. destruct Hsp as [c [Sc [Hc _]]].
  rewrite space_accepts in Hc.
  exists kw, c, (after y). split; [exact Hin|]. split; [exact Hc|].
  apply Matches_opt_inv in Hdot. destruct Hdot as [-> | Hdot].
  - left. pose proof (Span_app _ _ _ _ _ Su Sc) as S.
    apply Span_start_nil in S. destruct S as [S _].
    rewrite S, <- app_assoc. reflexivity.
  - right. apply Matches_Lit_inv in Hdot. destruct Hdot as [d [Sd [Hd _]]].
    unfold set_match in Hd. apply Ascii.eqb_eq in Hd. subst d.
    pose proof (Span_app _ _ _ _ _ Su (Span_app _ _ _ _ _ Sd Sc)) as S.
    apply Span_start_nil in S. destruct S as [S _].
    rewrite S, <- app_assoc. reflexivity.
Qed.

Lemma addressRegex_intro u :
  addressPrefixed u -> MatchesAt false addressRegex [] u.
Proof.
  intros [kw [c [rest [Hin [Hc Hu]]]]].
  assert (Hkw : forall tail,
    Matches false (Group (anyOf ["CALLE"; "AV"; "JR"]%string))
            (startAt [] (lit kw ++ tail))
            (capture (startAt [] (lit kw ++ tail))
                     (MState (rev (lit kw) ++ []) tail None))).
  { intros tail. apply M_Group. apply (Matches_anyOf_intro false _ kw); [exact Hin|].
    apply (Matches_word_intro false tail None kw (lit kw) []). apply spells_refl. }
  assert (Hsp : forall bef cp,
    Matches false (Class false [CSpace]) (MState bef (c :: rest) cp)
            (MState (c :: bef) rest cp)).
  { intros bef cp.
    apply (@M_Class false false [CSpace] c rest (MState bef (c :: rest) cp));
      [reflexivity|].
    change (accepts false false [CSpace] c = true).
    rewrite space_accepts. exact Hc. }
  unfold MatchesAt, addressRegex, seq.
  destruct Hu as [-> | ->]; eexists.
  - apply M_Seq with (y := startAt [] (lit kw ++ c :: rest));
      [apply M_Bol; reflexivity|].
    eapply M_Seq; [apply Hkw|].
    eapply M_Seq; [apply Matches_opt_skip|]. apply Hsp.
  - apply M_Seq with (y := startAt [] (lit kw ++ "."%char :: c :: rest));
      [apply M_Bol; reflexivity|].
    eapply M_Seq; [apply Hkw|].
    eapply M_Seq; [|apply Hsp].
    apply Matches_opt_take.
    + apply (@M_Lit false "."%char "."%char (c :: rest)
               (capture (startAt [] (lit kw ++ "."%char :: c :: rest))
                        (MState (rev (lit kw) ++ []) ("."%char :: c :: rest) None)));
        reflexivity.
    + unfold endIndex. simpl. lia.
Qed.

(** The address test of the vendor loop. *)
Lemma test_addressRegex u :
  test false addressRegex u = true <-> addressPrefixed u.
Proof.
  unfold test. destruct (exec false addressRegex u) as [m|] eqn:E.
  - split; [intros _ | reflexivity].
    apply exec_leftmost in E. destruct E as [Hu [[y [HM _]] _]].
    apply addressRegex_inv in HM. destruct HM as [Hp Haddr].
    rewrite Hu, Hp. exact Haddr.
  - split; [discriminate|]. intros H. exfalso.
    apply (proj1 (exec_None false addressRegex u) E [] u eq_refl).
    apply addressRegex_intro. exact H.
Qed.

Lemma alnum_accepts c :
  accepts false false [CRange "a" "z"; CRange "A" "Z"; CRange "0" "9"] c = isAlnum c.
Proof. destruct c as [[] [] [] [] [] [] [] []]; reflexivity. Qed.

(** The content test of the line filter. *)
Lemma test_alnumRegex l :
  test false alnumRegex l = true <-> exists c, In c l /\ isAlnum c = true.
Proof.
  unfold test. destruct (exec false alnumRegex l) as [m|] eqn:E.
  - split; [intros _ | reflexivity].
    apply exec_leftmost in E. destruct E as [Hl [[y [HM _]] _]].
    apply Matches_Class_inv in HM. destruct HM as [c [Sc [Hc _]]].
    rewrite alnum_accepts in Hc.
    apply Span_start_nil in Sc. destruct Sc as [Sc _].
    exists c. split; [|exact Hc].
    rewrite Hl, Sc. apply in_or_app. right. left. reflexivity.
  - split; [discriminate|]. intros [c [Hin Hc]]. exfalso.
    apply in_split in Hin. destruct Hin as [l1 [l2 Hl]].
    apply (proj1 (exec_None false alnumRegex l) E l1 (c :: l2) Hl).
    exists (MState (c :: rev l1) l2 None).
    apply (@M_Class false false _ c l2 (startAt l1 (c :: l2))); [reflexivity|].
    change (accepts false false [CRange "a" "z"; CRange "A" "Z"; CRange "0" "9"] c = true).
    rewrite alnum_accepts. exact Hc.
Qed.

Lemma lines_spec s l : In l (lines s) <-> normalizedLine s l.
Proof.
  unfold lines, normalizedLine.
  rewrite filter_In, in_map_iff, andb_true_iff, Nat.ltb_lt, test_alnumRegex.
  split.
  - intros [[raw [Ht Hin]] [Hlen Hc]]. exists raw. auto.
  - intros [raw [Hin [Ht [Hlen Hc]]]]. split; [exists raw|]; auto.
Qed.

Lemma vendorCandidate_spec l : vendorCandidate l = true <-> qualifies l.
Proof.
  unfold vendorCandidate, qualifies.
  rewrite !andb_true_iff, !negb_true_iff, Nat.ltb_lt.
  assert (Hskip : existsb (fun w => includes (toUpperCase l) w) skipWords = false
                  <-> forall w, In w skipWords -> ~ isSubstring w (toUpperCase l)).
  { split.
    - intros H w Hin Hsub. apply includes_spec in Hsub.
      assert (existsb (fun w => includes (toUpperCase l) w) skipWords = true)
        by (apply existsb_exists; exists w; auto).
      congruence.
    - intros H. destruct (existsb _ skipWords) eqn:E; [|reflexivity].
      apply existsb_exists in E. destruct E as [w [Hin Hw]].
      apply includes_spec in Hw. exfalso. apply (H w Hin Hw). }
  assert (Haddr : test false addressRegex (toUpperCase l) = false
                  <-> ~ addressPrefixed (toUpperCase l)).
  { rewrite <- test_addressRegex.
    destruct (test false addressRegex (toUpperCase l)); split; congruence. }
  rewrite Hskip, Haddr. tauto.
Qed.

(** *** Lines, trimming and upper case *)

Lemma split_not_empty sep s : split sep s <> [].
Proof.
  destruct s as [|c s]; simpl; [discriminate|].
  destruct (Ascii.eqb c sep); [discriminate|].
  destruct (split sep s); discriminate.
Qed.

Lemma joinLines_cons l ls : ls <> [] -> joinLines (l :: ls) = l ++ newLine :: joinLines ls.
Proof. destruct ls; [congruence | reflexivity]. Qed.

Lemma split_joinLines : forall parts,
  parts <> [] -> Forall (fun p => ~ In newLine p) parts ->
  split newLine (joinLines parts) = parts.
Proof.
  assert (Hsplit : forall p rest, ~ In newLine p ->
            split newLine (p ++ newLine :: rest) = p :: split newLine rest).
  { induction p as [|c p IH]; intros rest Hp.
    - cbn [app split]. rewrite Ascii.eqb_refl. reflexivity.
    - cbn [app split].
      destruct (Ascii.eqb_spec c newLine) as [->|_];
        [exfalso; apply Hp; left; reflexivity|].
      rewrite IH by (intros H; apply Hp; right; exact H). reflexivity. }
  induction parts as [|p parts IH]; intros Hne Hall; [congruence|].
  apply Forall_cons_iff in Hall. destruct Hall as [Hp Hall].
  destruct parts as [|q parts'].
  - cbn [joinLines]. apply split_notIn. exact Hp.
  - rewrite joinLines_cons by discriminate.
    rewrite (Hsplit p _ Hp), IH; [reflexivity | discriminate | exact Hall].
Qed.

Lemma split_no_separator sep : forall s p, In p (split sep s) -> ~ In sep p.
Proof.
  induction s as [|c s IH]; simpl; intros p Hp.
  - destruct Hp as [<- | []]. intros [].
  - destruct (Ascii.eqb c sep) eqn:E.
    + destruct Hp as [<- | Hp]; [intros [] | apply IH, Hp].
    + pose proof (split_not_empty sep s) as Hne.
      destruct (split sep s) as [|part parts]; [congruence|].
      destruct Hp as [<- | Hp].
      * intros [-> | Hin]; [rewrite Ascii.eqb_refl in E; discriminate|].
        apply (IH part (or_introl eq_refl) Hin).
      * apply IH. right. exact Hp.
Qed.

Lemma dropWhile_head (p : ascii -> bool) s :
  match s with c :: _ => p c = false | [] => True end -> dropWhile p s = s.
Proof. destruct s as [|c s]; simpl; [reflexivity|]. intros ->. reflexivity. Qed.



























(** ** The invoice number *)

Lemma token_accepts c :
  accepts true false [CRange "A" "Z"; CRange "0" "9"; CChar "-"] c = tokenChar c.
Proof. destruct c as [[] [] [] [] [] [] [] []]; reflexivity. Qed.

Lemma space_accepts_i c : accepts true false [CSpace] c = isWhiteSpace c.
Proof. destruct c as [[] [] [] [] [] [] [] []]; reflexivity. Qed.

Lemma invoiceSep_accepts c :
  accepts true false [CChar ":"; CChar "#"; CChar "."] c = isInvoiceSep c.
Proof. destruct c as [[] [] [] [] [] [] [] []]; reflexivity. Qed.

Lemma Forall_accepts (f g : ascii -> bool) w :
  (forall c, f c = g c) ->
  Forall (fun c => f c = true) w <-> Forall (fun c => g c = true) w.
Proof.
  intros H. split; apply Forall_impl; intros c; rewrite H; auto.
Qed.

(** A match of the invoice pattern: a label, a gap, and the token, which is
    captured. *)
Lemma invoiceRegex_inv p rest y :
  Matches true invoiceRegex (startAt p rest) y ->
  exists kw gap tok,
    rest = kw ++ gap ++ tok ++ after y
    /\ (exists a, In a invoiceAliases /\ spells true a kw)
    /\ invoiceGap gap
    /\ tok <> [] /\ Forall (fun c => tokenChar c = true) tok
    /\ cap y = Some tok.
Proof.
  unfold invoiceRegex, seq. intros H.
  apply Matches_Seq_inv in H. destruct H as [y1 [Hkw H]].
  apply Matches_Seq_inv in H. destruct H as [y2 [Hsp1 H]].
  apply Matches_Seq_inv in H. destruct H as [y3 [Hsep H]].
  apply Matches_Seq_inv in H. destruct H as [y4 [Hsp2 Htok]].
  apply Matches_anyOf_inv in Hkw. destruct Hkw as [a [Hin Hkw]].
  apply Matches_word_inv in Hkw. destruct Hkw as [kw [Skw [_ Hspell]]].
  apply Matches_Repeat_Class_inv in Hsp1.
  destruct Hsp1 as [sp1 [S1 [_ [H1 _]]]].
  apply Matches_Repeat_Class_inv in Hsep.
  destruct Hsep as [sepr [S2 [_ [H2 [_ Hlen]]]]].
  apply Matches_Repeat_Class_inv in Hsp2.
  destruct Hsp2 as [sp2 [S3 [_ [H3 _]]]].
  apply Matches_Group_inv in Htok. destruct Htok as [y5 [Htok ->]].
  apply Matches_Repeat_Class_inv in Htok.
  destruct Htok as [tok [S4 [_ [H4 [Hmin _]]]]].
  simpl in Hmin.
  exists kw, (sp1 ++ sepr ++ sp2), tok.
  pose proof (Span_app _ _ _ _ _ Skw
               (Span_app _ _ _ _ _ S1
                 (Span_app _ _ _ _ _ S2 (Span_app _ _ _ _ _ S3 S4)))) as S.
  apply Span_start_nil in S. destruct S as [S _].
  split; [rewrite S, <- !app_assoc; reflexivity|].
  split; [exists a; auto|].
  split.
  - exists sp1, sepr, sp2. split; [reflexivity|].
    split; [apply (Forall_accepts _ _ _ space_accepts_i), H1|].
    split; [apply (Forall_accepts _ _ _ invoiceSep_accepts), H2|].
    split; [apply (Hlen 1 eq_refl)|].
    apply (Forall_accepts _ _ _ space_accepts_i), H3.
  - split; [intros ->; simpl in Hmin; lia|].
    split; [apply (Forall_accepts _ _ _ token_accepts), H4|].
    simpl. rewrite (Span_between _ _ _ S4). reflexivity.
Qed.

Lemma invoiceRegex_intro pre kw gap tok post :
  (exists a, In a invoiceAliases /\ spells true a kw) ->
  invoiceGap gap ->
  tok <> [] -> Forall (fun c => tokenChar c = true) tok ->
  MatchesAt true invoiceRegex pre (kw ++ gap ++ tok ++ post).
Proof.
  intros [a [Hin Hspell]] [sp1 [sepr [sp2 [-> [H1 [H2 [Hlen H3]]]]]]] Hne H4.
  rewrite <- !app_assoc.
  unfold MatchesAt, invoiceRegex, seq, startAt. eexists.
  eapply M_Seq.
  { apply (Matches_anyOf_intro true _ a); [exact Hin|].
    apply Matches_word_intro. exact Hspell. }
  eapply M_Seq.
  { apply Matches_Repeat_Class_intro.
    - apply (Forall_accepts _ _ _ space_accepts_i), H1.
    - lia.
    - discriminate. }
  eapply M_Seq.
  { apply Matches_Repeat_Class_intro.
    - apply (Forall_accepts _ _ _ invoiceSep_accepts), H2.
    - lia.
    - intros m Hm. injection Hm as <-. exact Hlen. }
  eapply M_Seq.
  { apply Matches_Repeat_Class_intro.
    - apply (Forall_accepts _ _ _ space_accepts_i), H3.
    - lia.
    - discriminate. }
  apply M_Group. apply Matches_Repeat_Class_intro.
  - apply (Forall_accepts _ _ _ token_accepts), H4.
  - destruct tok; [congruence | simpl; lia].
  - discriminate.
Qed.

(** What [exec] finds for the invoice pattern. *)
Lemma exec_invoiceRegex s :
  match exec true invoiceRegex s with
  | Some m =>
      exists tok, group1 m = Some tok
                  /\ invoiceLabelled s (prefix m) tok (suffix m)
                  /\ forall pre' tok' post',
                       invoiceLabelled s pre' tok' post' ->
                       length (prefix m) <= length pre'
  | None => forall pre tok post, ~ invoiceLabelled s pre tok post
  end.
Proof.
  destruct (exec true invoiceRegex s) as [m|] eqn:E.
  - apply exec_leftmost in E. destruct E as [Hs [[y [HM [Hg [_ Ha]]]] Hleft]].
    apply invoiceRegex_inv in HM.
    destruct HM as [kw [gap [tok [Hrest [Hlabel [Hgap [Hne [Htok Hcap]]]]]]]].
    exists tok. split; [rewrite Hg; exact Hcap|]. split.
    + exists kw, gap. rewrite Ha in Hrest. rewrite Hs, Hrest. auto.
    + intros pre' tok' post' [kw' [gap' [Hs' [Hl' [Hg' [Hne' Ht']]]]]].
      destruct (Nat.le_gt_cases (length (prefix m)) (length pre')) as [Hle|Hgt];
        [exact Hle|].
      exfalso. apply (Hleft pre' _ Hs' Hgt).
      apply invoiceRegex_intro; assumption.
  - intros pre tok post [kw [gap [Hs [Hl [Hg [Hne Ht]]]]]].
    apply (proj1 (exec_None true invoiceRegex s) E pre _ Hs).
    apply invoiceRegex_intro; assumption.
Qed.
















(** ** The steps that cannot fail *)

(** A match of a keyword-anchored amount pattern sets capture 1. *)
Lemma amountRegex_captures keywords s :
  match exec true (amountRegex keywords) s with
  | Some m => group1 m <> None
  | None => True
  end.
Proof.
  destruct (exec true (amountRegex keywords) s) as [m|] eqn:E; [|exact I].
  apply exec_leftmost in E. destruct E as [_ [[y [HM [Hg _]]] _]].
  unfold amountRegex, seq in HM.
  apply Matches_Seq_inv in HM. destruct HM as [y1 [_ HM]].
  apply Matches_Seq_inv in HM. destruct HM as [y2 [_ HM]].
  apply Matches_Seq_inv in HM. destruct HM as [y3 [_ HM]].
  apply Matches_Seq_inv in HM. destruct HM as [y4 [_ HM]].
  apply Matches_Group_inv in HM. destruct HM as [y5 [_ ->]].
  rewrite Hg. discriminate.
Qed.

(** The steps of [parse] other than the spread call cannot fail: no run
    of a pattern uses up the fuel of the matcher (the backtracking search
    ends with a match or a failure); [split] never returns the empty array,
    so the last part read by [parsePrice] exists; and every match whose
    capture 1 the source reads (the year, the invoice number, the amounts)
    has set it. *)
Lemma parse_steps_defined :
  (forall i re bef aft,
        matcher i re (MState bef aft None) (fun y => Ok y) <> Exhausted)
  /\ (forall sep s, split sep s <> [])
  /\ (forall s, match exec false yearRegex s with
                | Some m => group1 m <> None
                | None => True
                end)
  /\ (forall s, match exec true invoiceRegex s with
                | Some m => group1 m <> None
                | None => True
                end)
  /\ (forall keywords s, match exec true (amountRegex keywords) s with
                         | Some m => group1 m <> None
                         | None => True
                         end).
Proof.
  split; [|split; [|split; [|split]]].
  - intros i re bef aft. apply matcher_not_exhausted. intros y _. discriminate.
  - apply split_not_empty.
  - intros s. pose proof (exec_yearRegex s) as H.
    destruct (exec false yearRegex s) as [m|]; [|exact I].
    destruct H as [run [Hg _]]. rewrite Hg. discriminate.
  - intros s. pose proof (exec_invoiceRegex s) as H.
    destruct (exec true invoiceRegex s) as [m|]; [|exact I].
    destruct H as [tok [Hg _]]. rewrite Hg. discriminate.
  - apply amountRegex_captures.
Qed.

(** * Further properties of the code *)

Import ExtraSpec.

(** ** The cleaned text of [parsePrice] *)

Lemma separator_accepts c :
  accepts false false [CChar "."; CChar ","] c = isSeparator c.
Proof. destruct c as [[] [] [] [] [] [] [] []]; reflexivity. Qed.

(** A match of [/[.,]+$/] is a non-empty run of separators that ends the
    text. *)
Lemma trailingPunct_inv p rest y :
  Matches false trailingPunct (startAt p rest) y ->
  rest <> [] /\ Forall (fun c => isSeparator c = true) rest /\ after y = [].
Proof.
  unfold trailingPunct, plus. intros H.
  apply Matches_Seq_inv in H. destruct H as [y0 [Hrun Heol]].
  apply Matches_Eol_inv in Heol. destruct Heol as [-> Hend].
  apply Matches_Repeat_Class_inv in Hrun.
  destruct Hrun as [w [Hs [_ [Hall [Hmin _]]]]].
  apply Span_start_nil in Hs. destruct Hs as [Hs _].
  rewrite Hend, app_nil_r in Hs. subst w. simpl in Hmin.
  split; [intros ->; simpl in Hmin; lia|].
  split; [|exact Hend].
  apply (Forall_accepts _ _ _ separator_accepts). exact Hall.
Qed.

Lemma trailingPunct_intro p rest :
  rest <> [] -> Forall (fun c => isSeparator c = true) rest ->
  MatchesAt false trailingPunct p rest.
Proof.
  intros Hne Hall. unfold MatchesAt, trailingPunct, plus, startAt.
  exists (MState (rev rest ++ rev p) [] None).
  apply M_Seq with (y := MState (rev rest ++ rev p) [] None).
  - rewrite <- (app_nil_r rest) at 1.
    apply Matches_Repeat_Class_intro.
    + apply (Forall_accepts _ _ _ separator_accepts). exact Hall.
    + destruct rest; [congruence | simpl; lia].
    + discriminate.
  - apply M_Eol. reflexivity.
Qed.

Lemma list_last_cases {A} (l : list A) : l = [] \/ exists body d, l = body ++ [d].
Proof.
  destruct (rev l) as [|d r] eqn:E.
  - left. apply (f_equal (@rev A)) in E. rewrite rev_involutive in E. exact E.
  - right. exists (rev r), d.
    apply (f_equal (@rev A)) in E. rewrite rev_involutive in E. exact E.
Qed.

(** What [s.replace(/[.,]+$/, '')] leaves, on a text of digits, dots and
    commas: nothing, or a text that ends with a digit. *)
Lemma strip_trailingPunct s :
  Forall (fun c => priceChar c = true) s ->
  replace false trailingPunct [] s = []
  \/ endsWithDigit (replace false trailingPunct [] s).
Proof.
  intros Hs.
  assert (Hlast : forall body d,
             (forall rest, s = body ++ d :: rest ->
                           ~ MatchesAt false trailingPunct body [d]) ->
             In d s -> isSeparator d = false -> isDigit d = true).
  { intros body d _ Hin Hsep. rewrite Forall_forall in Hs.
    destruct (priceChar_cases d (Hs d Hin)) as [Hd | [-> | ->]];
      [exact Hd | discriminate | discriminate]. }
  unfold replace. destruct (exec false trailingPunct s) as [m|] eqn:E.
  - apply exec_leftmost in E.
    destruct E as [Hsplit [[y [HM [_ [_ Ha]]]] Hleft]].
    apply trailingPunct_inv in HM. destruct HM as [Hne [Hall Hend]].
    rewrite <- Ha, Hend. simpl. rewrite app_nil_r.
    destruct (list_last_cases (prefix m)) as [Hp | [body [d Hp]]]; [left; exact Hp|].
    right. exists body, d. split; [exact Hp|].
    destruct (isSeparator d) eqn:Hd.
    + exfalso.
      apply (Hleft body (d :: matched m ++ suffix m)).
      * rewrite Hsplit, Hp, <- app_assoc. reflexivity.
      * rewrite Hp, length_app. simpl. lia.
      * apply trailingPunct_intro; [discriminate|].
        constructor; [exact Hd | exact Hall].
    + apply (Hlast body d).
      * intros rest _ Hm. destruct Hm as [z Hz].
        apply trailingPunct_inv in Hz. destruct Hz as [_ [Hz _]].
        inversion Hz; congruence.
      * rewrite Hsplit, Hp. apply in_or_app. left. apply in_or_app. right.
        left. reflexivity.
      * exact Hd.
  - destruct (list_last_cases s) as [Hp | [body [d Hp]]]; [left; exact Hp|].
    right. exists body, d. split; [exact Hp|].
    destruct (isSeparator d) eqn:Hd.
    + exfalso.
      apply (proj1 (exec_None false trailingPunct s) E body [d] Hp).
      apply trailingPunct_intro; [discriminate|].
      constructor; [exact Hd | constructor].
    + apply (Hlast body d).
      * intros rest _ Hm. destruct Hm as [z Hz].
        apply trailingPunct_inv in Hz. destruct Hz as [_ [Hz _]].
        inversion Hz; congruence.
      * rewrite Hp. apply in_or_app. right. left. reflexivity.
      * exact Hd.
Qed.

(** [trim] leaves alone a text with no white space at its ends. *)
Lemma trim_trimmed s : trimmed s -> trim s = s.
Proof.
  intros [Hhead Hlast]. unfold trim, trimEnd, trimStart.
  rewrite (dropWhile_head _ s Hhead), (dropWhile_head _ (rev s) Hlast).
  apply rev_involutive.
Qed.

Lemma priceChars_trimmed s :
  Forall (fun c => priceChar c = true) s -> trimmed s.
Proof.
  intros H. split.
  - destruct H as [|c s Hc _]; [exact I|]. apply (priceChar_facts c Hc).
  - apply Forall_rev in H. destruct H as [|c s' Hc _]; [exact I|].
    apply (priceChar_facts c Hc).
Qed.

Lemma filter_all {A} (p : A -> bool) l :
  Forall (fun c => p c = true) l -> filter p l = l.
Proof.
  induction 1 as [|c l Hc _ IH]; simpl; [reflexivity|].
  rewrite Hc, IH. reflexivity.
Qed.

(** [s.replace(/[.,]+$/, '')] leaves alone a text that is empty or ends
    with a digit. *)
Lemma strip_trailingPunct_id s :
  s = [] \/ endsWithDigit s -> replace false trailingPunct [] s = s.
Proof.
  intros Hs. unfold replace.
  destruct (exec false trailingPunct s) as [m|] eqn:E; [|reflexivity].
  exfalso. apply exec_leftmost in E. destruct E as [Hsplit [[y [HM _]] _]].
  apply trailingPunct_inv in HM. destruct HM as [Hne [Hall _]].
  destruct (list_last_cases (matched m ++ suffix m)) as [Hr | [body' [d' Hr]]];
    [contradiction|].
  rewrite Hr in Hall. apply Forall_app in Hall. destruct Hall as [_ Hall].
  apply Forall_inv in Hall. rename Hall into Hd'.
  destruct Hs as [-> | [body [d [Hs Hd]]]].
  - symmetry in Hsplit. apply app_eq_nil in Hsplit. destruct Hsplit as [_ Hsplit].
    rewrite Hr in Hsplit. apply app_eq_nil in Hsplit. destruct Hsplit; discriminate.
  - rewrite Hr, app_assoc, Hs in Hsplit.
    apply app_inj_tail in Hsplit. destruct Hsplit as [_ <-].
    destruct (digit_facts d Hd) as [_ [_ [_ [_ [Hdot [Hcomma _]]]]]].
    unfold isSeparator in Hd'. rewrite Hdot, Hcomma in Hd'. discriminate.
Qed.

(** The units of the cleaned text are units of the text. *)
Lemma In_dropWhile (p : ascii -> bool) c : forall s, In c (dropWhile p s) -> In c s.
Proof.
  induction s as [|d s IH]; simpl; [auto|].
  destruct (p d); [intros H; right; apply IH, H | auto].
Qed.

Lemma In_trim c s : In c (trim s) -> In c s.
Proof.
  unfold trim, trimEnd, trimStart. intros H.
  apply in_rev, In_dropWhile, in_rev, In_dropWhile in H. exact H.
Qed.

Lemma In_replace_empty i re c s : In c (replace i re [] s) -> In c s.
Proof.
  unfold replace. destruct (exec i re s) as [m|] eqn:E; [|auto].
  apply exec_shape in E. intros H. rewrite E.
  simpl in H. apply in_app_or in H.
  apply in_or_app. destruct H as [H | H]; [left; exact H|].
  right. apply in_or_app. right. exact H.
Qed.

Lemma In_cleanText c t : In c (cleanText t) -> In c t.
Proof.
  unfold cleanText, notPriceChar. intros H.
  apply In_replace_empty, In_trim in H.
  rewrite replaceAll_negClass_empty in H. apply filter_In in H. apply H.
Qed.

(** A digit of the text survives the cleaning. *)
Lemma digit_In_cleanText d t : In d t -> isDigit d = true -> In d (cleanText t).
Proof.
  intros Hin Hd. unfold cleanText, notPriceChar.
  rewrite replaceAll_negClass_empty.
  set (s1 := filter (class_has [CDigit; CChar "."; CChar ","]) t).
  assert (H1 : In d s1).
  { apply filter_In. split; [exact Hin|].
    rewrite priceClass_priceChar. apply digit_priceChar, Hd. }
  assert (Hs1 : Forall (fun c => priceChar c = true) s1).
  { apply Forall_forall. intros c Hc. apply filter_In in Hc.
    rewrite <- priceClass_priceChar. apply Hc. }
  rewrite (trim_trimmed s1 (priceChars_trimmed s1 Hs1)).
  unfold replace. destruct (exec false trailingPunct s1) as [m|] eqn:E; [|exact H1].
  apply exec_leftmost in E. destruct E as [Hsplit [[y [HM _]] _]].
  apply trailingPunct_inv in HM. destruct HM as [_ [Hall _]].
  rewrite Hsplit in H1. apply in_app_or in H1. destruct H1 as [H1 | H1].
  - apply in_or_app. left. exact H1.
  - exfalso. rewrite Forall_forall in Hall. specialize (Hall d H1).
    destruct (digit_facts d Hd) as [_ [_ [_ [_ [Hdot [Hcomma _]]]]]].
    unfold isSeparator in Hall. rewrite Hdot, Hcomma in Hall. discriminate.
Qed.

(** The cleaned text is empty or ends with a digit. *)
Lemma cleanText_ends t : cleanText t = [] \/ endsWithDigit (cleanText t).
Proof.
  unfold cleanText. apply strip_trailingPunct.
  unfold notPriceChar. rewrite replaceAll_negClass_empty.
  apply Forall_trim, Forall_forall. intros c Hc. apply filter_In in Hc.
  rewrite <- priceClass_priceChar. apply Hc.
Qed.

(** It is empty exactly when the text holds no digit. *)
Lemma cleanText_nil_iff t :
  cleanText t = [] <-> forall c, In c t -> isDigit c = false.
Proof.
  split.
  - intros Hnil c Hin. destruct (isDigit c) eqn:Hd; [|reflexivity].
    pose proof (digit_In_cleanText c t Hin Hd) as H. rewrite Hnil in H.
    contradiction.
  - intros Hno. destruct (cleanText_ends t) as [H | [body [d [H Hd]]]]; [exact H|].
    exfalso.
    assert (Hin : In d (cleanText t))
      by (rewrite H; apply in_or_app; right; left; reflexivity).
    apply In_cleanText in Hin. rewrite (Hno d Hin) in Hd. discriminate.
Qed.

(** X1.  The cleaned text of [parsePrice] never ends with a dot or a
    comma: it is empty, exactly when the text holds no digit, or it ends
    with a digit; and all its units are digits, dots and commas taken from
    the text. *)
Theorem cleanText_shape : forall t,
  (cleanText t = [] \/ endsWithDigit (cleanText t))
  /\ (cleanText t = [] <-> forall c, In c t -> isDigit c = false)
  /\ (forall c, In c (cleanText t) -> In c t /\ priceChar c = true).
Proof.
  intros t.
  split; [apply cleanText_ends|]. split; [apply cleanText_nil_iff|].
  intros c Hc. split; [apply In_cleanText, Hc|].
  pose proof (cleanText_chars t) as Hall. rewrite Forall_forall in Hall.
  apply Hall, Hc.
Qed.

(** X2.  Cleaning is idempotent: the cleaned text is left as it is by a
    second cleaning, so [parsePrice] gives the same result on a text and
    on its cleaned form. *)
Theorem cleanText_idempotent : forall t,
  cleanText (cleanText t) = cleanText t
  /\ parsePrice (cleanText t) = parsePrice t.
Proof.
  intros t.
  assert (H : cleanText (cleanText t) = cleanText t).
  { pose proof (cleanText_ends t) as Hshape.
    pose proof (cleanText_chars t) as Hall.
    unfold cleanText at 1. unfold notPriceChar.
    rewrite replaceAll_negClass_empty.
    rewrite filter_all
      by (eapply Forall_impl; [|exact Hall];
          intros c Hc; rewrite priceClass_priceChar; exact Hc).
    rewrite (trim_trimmed _ (priceChars_trimmed _ Hall)).
    apply strip_trailingPunct_id. exact Hshape. }
  split; [exact H|]. unfold parsePrice. rewrite H. reflexivity.
Qed.

Lemma no_separator_filter t :
  (forall c, In c t -> isSeparator c = false) ->
  filter (class_has [CDigit; CChar "."; CChar ","]) t = filter isDigit t.
Proof.
  intros H. apply filter_ext_in. intros c Hc. specialize (H c Hc).
  rewrite priceClass_priceChar. unfold priceChar, isSeparator in *.
  apply orb_false_iff in H. destruct H as [-> ->].
  rewrite !orb_false_r. reflexivity.
Qed.

(** X3.  A text with neither dot nor comma, whose digits write an integer
    of at most 2^53 (every such integer is a double), is read as that
    integer, whatever else the text holds (currency signs, letters,
    spaces); without any digit it gives no price. *)
Theorem parsePrice_without_separator : forall t,
  (forall c, In c t -> isSeparator c = false) ->
  (digitsValue (filter isDigit t) <= 2 ^ 53)%Z ->
  parsePrice t =
    if existsb isDigit t
    then Some (Fin (inject_Z (digitsValue (filter isDigit t))))
    else None.
Proof.
  intros t Hnosep _. destruct (existsb isDigit t) eqn:Hex.
  - apply existsb_exists in Hex. destruct Hex as [d [Hin Hd]].
    assert (Hds : Forall (fun c => isDigit c = true) (filter isDigit t)).
    { apply Forall_forall. intros c Hc. apply filter_In in Hc. apply Hc. }
    assert (Hne : filter isDigit t <> []).
    { intros E. assert (Hd' : In d (filter isDigit t)) by (apply filter_In; auto).
      rewrite E in Hd'. contradiction. }
    assert (Hclean : cleanText t = filter isDigit t).
    { unfold cleanText, notPriceChar.
      rewrite replaceAll_negClass_empty, (no_separator_filter t Hnosep).
      assert (Hpc : Forall (fun c => priceChar c = true) (filter isDigit t)).
      { eapply Forall_impl; [|exact Hds]. intros c. apply digit_priceChar. }
      rewrite (trim_trimmed _ (priceChars_trimmed _ Hpc)).
      apply strip_trailingPunct_id.
      destruct (list_last_cases (filter isDigit t)) as [E | [body [e E]]];
        [left; exact E|].
      right. exists body, e. split; [exact E|].
      rewrite Forall_forall in Hds. apply Hds. rewrite E.
      apply in_or_app. right. left. reflexivity. }
    unfold parsePrice. rewrite Hclean.
    destruct (filter isDigit t) as [|d0 ds] eqn:E; [congruence|].
    cbn [isEmpty].
    assert (Hnorm : normalizedNum (d0 :: ds) = d0 :: ds).
    { unfold normalizedNum.
      assert (Hno : forall c, In c (d0 :: ds) -> isSeparator c = false).
      { intros c Hc. apply Hnosep. rewrite <- E in Hc. apply filter_In in Hc. apply Hc. }
      rewrite (includesChar_notIn (d0 :: ds) ","), (includesChar_notIn (d0 :: ds) ".").
      - reflexivity.
      - intros Hc. specialize (Hno _ Hc). discriminate.
      - intros Hc. specialize (Hno _ Hc). discriminate. }
    rewrite Hnorm, (@parseFloat_digits (d0 :: ds)); [reflexivity | discriminate | exact Hds].
  - unfold parsePrice.
    rewrite (proj2 (cleanText_nil_iff t)); [reflexivity|].
    intros c Hc. destruct (isDigit c) eqn:Hd; [|reflexivity].
    assert (existsb isDigit t = true) by (apply existsb_exists; exists c; auto).
    congruence.
Qed.

Lemma parsePrice_without_separator_witness :
  parsePrice (lit "$ 1500 USD") = Some (Fin (inject_Z 1500)).
Proof.
  apply (parsePrice_without_separator (lit "$ 1500 USD")).
  - intros c Hc. vm_compute in Hc.
    repeat (destruct Hc as [<- | Hc]; [reflexivity|]). contradiction.
  - vm_compute. discriminate.
Defined.


(** ** The vendor name *)

Lemma dropWhile_suffix (p : ascii -> bool) s : exists a, s = a ++ dropWhile p s.
Proof.
  induction s as [|c s [a IH]]; simpl; [exists []; reflexivity|].
  destruct (p c); [exists (c :: a); simpl; congruence | exists []; reflexivity].
Qed.

Lemma dropWhile_first (p : ascii -> bool) s :
  match dropWhile p s with c :: _ => p c = false | [] => True end.
Proof.
  induction s as [|c s IH]; simpl; [exact I|].
  destruct (p c) eqn:E; [exact IH | exact E].
Qed.

(** The trimmed text is a part of the text. *)
Lemma trim_substring s : isSubstring (trim s) s.
Proof.
  unfold trim, trimEnd, trimStart.
  destruct (dropWhile_suffix isWhiteSpace s) as [a Ha].
  destruct (dropWhile_suffix isWhiteSpace (rev (dropWhile isWhiteSpace s))) as [b Hb].
  exists a, (rev b).
  rewrite <- rev_app_distr, <- Hb, rev_involutive. exact Ha.
Qed.

(** [trim] leaves no white space at either end. *)
Lemma trimmed_trim s : trimmed (trim s).
Proof.
  unfold trim, trimEnd, trimStart. split.
  - pose proof (dropWhile_first isWhiteSpace s) as Hh.
    destruct (dropWhile_suffix isWhiteSpace (rev (dropWhile isWhiteSpace s))) as [b Hb].
    apply (f_equal (@rev ascii)) in Hb. rewrite rev_involutive, rev_app_distr in Hb.
    destruct (rev (dropWhile isWhiteSpace (rev (dropWhile isWhiteSpace s))))
      as [|c r]; [exact I|].
    rewrite Hb in Hh. exact Hh.
  - rewrite rev_involutive. apply dropWhile_first.
Qed.

Lemma split_head_prefix sep : forall s, exists b, s = hd [] (split sep s) ++ b.
Proof.
  induction s as [|c s [b IH]]; simpl; [exists []; reflexivity|].
  destruct (Ascii.eqb c sep); [exists (c :: s); reflexivity|].
  pose proof (split_not_empty sep s) as Hne.
  destruct (split sep s) as [|part parts]; [congruence|].
  exists b. simpl in *. congruence.
Qed.

(** Every part given by [split] is a part of the text, without the
    separator. *)
Lemma split_substring sep : forall s p, In p (split sep s) -> isSubstring p s.
Proof.
  induction s as [|c s IH]; simpl; intros p Hp.
  - destruct Hp as [<- | []]. exists [], []. reflexivity.
  - destruct (Ascii.eqb c sep).
    + destruct Hp as [<- | Hp]; [exists [], (c :: s); reflexivity|].
      destruct (IH p Hp) as [a [b ->]]. exists (c :: a), b. reflexivity.
    + pose proof (split_not_empty sep s) as Hne.
      destruct (split_head_prefix sep s) as [b Hb].
      destruct (split sep s) as [|part parts]; [congruence|].
      destruct Hp as [<- | Hp].
      * exists [], b. simpl in *. congruence.
      * destruct (IH p (or_intror Hp)) as [a [b' ->]]. exists (c :: a), b'. reflexivity.
Qed.

Lemma isSubstring_trans a b c : isSubstring a b -> isSubstring b c -> isSubstring a c.
Proof.
  intros [p [q ->]] [p' [q' ->]]. exists (p' ++ p), (q ++ q').
  rewrite <- !app_assoc. reflexivity.
Qed.

(** X4.  Whatever the text, a vendor name that [parse] returns is a piece
    of one line of the text with the white space at its ends removed: it
    occurs in the text, holds no line feed, neither starts nor ends with
    a white space, is from 4 to 49 units long and holds a letter or a
    digit. *)
Theorem vendor_name_shape : forall currentYear s v,
  vendorName (parse currentYear s) = Some v ->
  isSubstring v s
  /\ ~ In newLine v
  /\ trimmed v
  /\ 3 < length v < 50
  /\ exists c, In c v /\ isAlnum c = true.
Proof.
  intros currentYear s v H. unfold parse in H. cbn [vendorName] in H.
  apply find_some in H. destruct H as [Hin Hok].
  apply lines_spec in Hin. destruct Hin as [raw [Hraw [-> [Hlen Hc]]]].
  apply vendorCandidate_spec in Hok. destruct Hok as [_ [_ Hlt]].
  split; [|split; [|split; [|split]]].
  - apply (isSubstring_trans _ raw); [apply trim_substring|].
    apply (split_substring newLine). exact Hraw.
  - intros Hnl. apply In_trim in Hnl.
    apply (split_no_separator newLine s raw Hraw Hnl).
  - apply trimmed_trim.
  - split; assumption.
  - exact Hc.
Qed.

Lemma vendor_name_shape_witness :
  isSubstring (lit "ACME STORE") facturaReceipt
  /\ ~ In newLine (lit "ACME STORE")
  /\ trimmed (lit "ACME STORE")
  /\ 3 < length (lit "ACME STORE") < 50
  /\ exists c, In c (lit "ACME STORE") /\ isAlnum c = true.
Proof.
  apply (vendor_name_shape 2025 facturaReceipt (lit "ACME STORE")).
  vm_compute. reflexivity.
Defined.

(** ** When a price is defined *)

Lemma normalizedNum_head d rest :
  isDigit d = true -> exists rest', normalizedNum (d :: rest) = d :: rest'.
Proof.
  intros Hd.
  destruct (digit_facts d Hd) as [_ [_ [_ [_ [Hdot [Hcomma _]]]]]].
  unfold normalizedNum.
  rewrite !replaceAll_Lit_empty, replaceAll_Lit_dot.
  unfold removeAll, asDecimalPoint.
  destruct (includesChar (d :: rest) ","), (includesChar (d :: rest) ".");
    cbn [andb orb].
  - destruct (_ <? _)%Z; cbn [filter map]; rewrite ?Hdot, ?Hcomma; cbn [negb replaceChar];
      rewrite ?Hcomma; eexists; reflexivity.
  - destruct (_ =? 3); cbn [filter map]; rewrite ?Hcomma; cbn [negb];
      eexists; reflexivity.
  - destruct (_ =? 3); cbn [filter map]; rewrite ?Hdot, ?Hcomma; cbn [negb];
      eexists; reflexivity.
  - eexists; reflexivity.
Qed.

Lemma parseFloat_head d rest :
  isDigit d = true -> exists q, parseFloat (d :: rest) = Fin q /\ (0 <= q)%Q.
Proof.
  intros Hd. rewrite parseFloat_unsigned by (apply digit_priceChar, Hd).
  unfold readUnsigned. cbn [span]. rewrite Hd.
  destruct (span isDigit rest) as [a b].
  destruct (match b with
            | c :: s2' => if Ascii.eqb c "." then span isDigit s2' else ([], b)
            | [] => ([], b)
            end) as [fp s3].
  cbn [app]. eexists. split; [reflexivity|].
  apply scale10_nonneg, digitsValue_nonneg.
Qed.

Lemma parsePrice_starts_digit t :
  startsWithDigit (cleanText t) ->
  exists q, parsePrice t = Some (Fin q) /\ (0 <= q)%Q.
Proof.
  intros [d [rest [E Hd]]]. unfold parsePrice. rewrite E. cbn [isEmpty].
  destruct (normalizedNum_head d rest Hd) as [rest' ->].
  destruct (parseFloat_head d rest' Hd) as [q [-> Hq]].
  exists q. split; [reflexivity | exact Hq].
Qed.

(** The cleaned text starts as the text does, once the units that are
    not digits, dots or commas are dropped. *)
Lemma cleanText_first_digit t pre d rest :
  t = pre ++ d :: rest ->
  Forall (fun c => priceChar c = false) pre ->
  isDigit d = true ->
  startsWithDigit (cleanText t).
Proof.
  intros Ht Hpre Hd.
  assert (Hne : cleanText t <> []).
  { intros E. rewrite cleanText_nil_iff in E.
    rewrite (E d) in Hd; [discriminate|]. rewrite Ht. apply in_elt. }
  assert (HF : exists X, filter (class_has [CDigit; CChar "."; CChar ","]) t = d :: X).
  { rewrite Ht, filter_app. cbn [filter].
    rewrite priceClass_priceChar, (digit_priceChar d Hd).
    assert (E : filter (class_has [CDigit; CChar "."; CChar ","]) pre = []).
    { clear -Hpre. induction Hpre as [|c pre Hc _ IH]; [reflexivity|].
      cbn [filter]. rewrite priceClass_priceChar, Hc. exact IH. }
    rewrite E. eexists. reflexivity. }
  destruct HF as [X HF].
  assert (Hall : Forall (fun c => priceChar c = true)
                        (filter (class_has [CDigit; CChar "."; CChar ","]) t)).
  { apply Forall_forall. intros c Hc. apply filter_In in Hc.
    rewrite <- priceClass_priceChar. apply Hc. }
  unfold cleanText, notPriceChar in *.
  rewrite replaceAll_negClass_empty in *.
  rewrite (trim_trimmed _ (priceChars_trimmed _ Hall)) in *.
  rewrite HF in *. unfold replace in *.
  destruct (exec false trailingPunct (d :: X)) as [m|] eqn:E.
  - apply exec_leftmost in E. destruct E as [Hs [[y [HM [_ [_ Ha]]]] _]].
    apply trailingPunct_inv in HM. destruct HM as [_ [_ Hend]].
    rewrite <- Ha, Hend in *. cbn [app] in Hne. rewrite app_nil_r in Hne |- *.
    destruct (prefix m) as [|c pm]; [congruence|].
    cbn [app] in *. injection Hs as <- _.
    exists d, pm. auto.
  - exists d, X. auto.
Qed.

(** A digit is not enough: two dots before it and [parseFloat] has
    nothing to read. *)
Lemma parsePrice_two_dots : parsePrice (lit "..5") = None.
Proof. vm_compute. reflexivity. Qed.

(** X5.  A text whose first digit, dot or comma is a digit always gives a
    price, and the price is a number that is not negative. *)
Theorem parsePrice_defined : forall t pre d rest,
  t = pre ++ d :: rest ->
  Forall (fun c => priceChar c = false) pre ->
  isDigit d = true ->
  exists q, parsePrice t = Some (Fin q) /\ (0 <= q)%Q.
Proof.
  intros t pre d rest Ht Hpre Hd.
  apply parsePrice_starts_digit.
  apply (cleanText_first_digit t pre d rest Ht Hpre Hd).
Qed.

Lemma parsePrice_defined_witness :
  exists q, parsePrice (lit "USD 12.5x") = Some (Fin q) /\ (0 <= q)%Q.
Proof.
  apply (parsePrice_defined (lit "USD 12.5x") (lit "USD ") "1"%char (lit "2.5x")).
  - reflexivity.
  - repeat constructor.
  - reflexivity.
Defined.

(** ** The amount tokens *)

Lemma digit09_accepts i c : accepts i false [CRange "0" "9"] c = isDigit c.
Proof. destruct i; destruct c as [[] [] [] [] [] [] [] []]; reflexivity. Qed.

Lemma dotComma_accepts i c :
  accepts i false [CChar "."; CChar ","] c = isSeparator c.
Proof. destruct i; destruct c as [[] [] [] [] [] [] [] []]; reflexivity. Qed.

(** The text read by a quantified pattern is made of the texts read by
    its iterations. *)
Lemma Matches_Repeat_words i r (P : text -> Prop) :
  P [] -> (forall a b, P a -> P b -> P (a ++ b)) ->
  (forall x y, Matches i r x y -> exists w, Span x w y /\ P w) ->
  forall min max x y,
    Matches i (Repeat r min max) x y -> exists w, Span x w y /\ P w.
Proof.
  intros Hnil Happ Hr min max x y H.
  remember (Repeat r min max) as rr eqn:E.
  revert min max E.
  induction H as [x|c d rest x Ha Hp|inv' items' d rest x Ha Hp
                  |r1 r2 x y z H1 IH1 H2 IH2|r1 r2 x y H1 IH1|r1 r2 x y H2 IH2
                  |r0 min' max' x Hdone|r0 min' max' x y z Hmax H1 IH1 Hprog H2 IH2
                  |r0 x y H1 IH1|x Hb|x Ha|x Hw];
    intros min max E; try discriminate.
  - exists []. split; [apply Span_nil | exact Hnil].
  - injection E as -> -> ->.
    destruct (Hr _ _ H1) as [w1 [S1 P1]].
    destruct (IH2 _ _ eq_refl) as [w2 [S2 P2]].
    exists (w1 ++ w2). split; [apply (Span_app _ _ _ _ _ S1 S2) | apply Happ; assumption].
Qed.

Lemma sepDigits_inv i lo hi x y :
  Matches i (Seq dotComma (Repeat digit09 lo hi)) x y ->
  exists g ds, Span x g y /\ sepThenDigits g ds
               /\ atLeast lo hi <= length ds
               /\ (forall m, hi = Some m -> length ds <= m).
Proof.
  intros H. apply Matches_Seq_inv in H. destruct H as [y1 [Hs Hd]].
  apply Matches_Class_inv in Hs. destruct Hs as [sep [Ss [Hsep _]]].
  apply Matches_Repeat_Class_inv in Hd.
  destruct Hd as [ds [Sd [_ [Hall [Hmin Hmax]]]]].
  rewrite dotComma_accepts in Hsep.
  exists (sep :: ds), ds. split; [apply (Span_app _ _ _ _ _ Ss Sd)|].
  split; [|split; assumption].
  exists sep. split; [reflexivity|]. split; [exact Hsep|].
  apply (Forall_accepts _ _ _ (digit09_accepts i)). exact Hall.
Qed.

(** A match of the number pattern reads and captures a token of the
    amount shape. *)
Lemma numberPattern_inv i x y :
  Matches i numberPattern x y ->
  exists w, Span x w y /\ cap y = Some w /\ amountShaped w.
Proof.
  unfold numberPattern, seq. intros H.
  apply Matches_Group_inv in H. destruct H as [y0 [H ->]].
  apply Matches_Seq_inv in H. destruct H as [y1 [Ha H]].
  apply Matches_Seq_inv in H. destruct H as [y2 [Hg Hf]].
  apply Matches_Repeat_Class_inv in Ha.
  destruct Ha as [a [Sa [_ [Hall [Hmin Hmax]]]]].
  specialize (Hmax 3 eq_refl). simpl in Hmin.
  apply (Forall_accepts _ _ _ (digit09_accepts i)) in Hall.
  apply (@Matches_Repeat_words i _
           (fun w => exists groups,
                w = concat groups
                /\ Forall (fun g => exists ds, sepThenDigits g ds /\ length ds = 3)
                          groups)) in Hg.
  - destruct Hg as [gs [Sg [groups [-> Hgroups]]]].
    assert (Hfrac : exists frac, Span y2 frac y0
              /\ (frac = [] \/ exists ds, sepThenDigits frac ds /\ ds <> [])).
    { apply Matches_opt_inv in Hf. destruct Hf as [-> | Hf].
      - exists []. split; [apply Span_nil | left; reflexivity].
      - apply sepDigits_inv in Hf. destruct Hf as [g [ds [Sf [Hsd [Hlo _]]]]].
        exists g. split; [exact Sf|]. right. exists ds. split; [exact Hsd|].
        intros ->. simpl in Hlo. lia. }
    destruct Hfrac as [frac [Sf Hfrac]].
    pose proof (Span_app _ _ _ _ _ Sa (Span_app _ _ _ _ _ Sg Sf)) as S.
    exists (a ++ concat groups ++ frac). split; [apply Span_capture, S|].
    split; [simpl; rewrite (Span_between _ _ _ S); reflexivity|].
    exists a, groups, frac. repeat split; auto; lia.
  - exists []. split; [reflexivity | constructor].
  - intros u v [g1 [-> H1]] [g2 [-> H2]]. exists (g1 ++ g2).
    split; [symmetry; apply concat_app | apply Forall_app; auto].
  - intros x' y' Hm. apply sepDigits_inv in Hm.
    destruct Hm as [g [ds [Sg' [Hsd [Hlo Hhi]]]]].
    specialize (Hhi 3 eq_refl). simpl in Hlo.
    exists g. split; [exact Sg'|]. exists [g]. split; [simpl; rewrite app_nil_r; reflexivity|].
    constructor; [|constructor]. exists ds. split; [exact Hsd | lia].
Qed.

Lemma endsWithDigit_app pre s : endsWithDigit s -> endsWithDigit (pre ++ s).
Proof.
  intros [body [d [-> Hd]]]. exists (pre ++ body), d.
  rewrite app_assoc. auto.
Qed.

Lemma digits_end ds :
  ds <> [] -> Forall (fun c => isDigit c = true) ds -> endsWithDigit ds.
Proof.
  intros Hne Hall.
  destruct (list_last_cases ds) as [-> | [body [d ->]]]; [congruence|].
  exists body, d. split; [reflexivity|].
  apply Forall_app in Hall. destruct Hall as [_ Hall].
  apply Forall_inv in Hall. exact Hall.
Qed.

Lemma sepThenDigits_chars g ds :
  sepThenDigits g ds -> Forall (fun c => priceChar c = true) g.
Proof.
  intros [sep [-> [Hsep Hds]]]. constructor.
  - unfold priceChar, isSeparator in *. rewrite <- orb_assoc, Hsep.
    apply orb_true_r.
  - eapply Forall_impl; [|exact Hds]. intros c. apply digit_priceChar.
Qed.

Lemma sepThenDigits_end g ds : sepThenDigits g ds -> ds <> [] -> endsWithDigit g.
Proof.
  intros [sep [-> [_ Hds]]] Hne.
  apply (endsWithDigit_app [sep]). apply digits_end; assumption.
Qed.

(** An amount token starts and ends with a digit and holds digits, dots
    and commas only. *)
Lemma amountShaped_facts w :
  amountShaped w ->
  startsWithDigit w /\ endsWithDigit w /\ Forall (fun c => priceChar c = true) w.
Proof.
  intros [a [groups [frac [-> [[[Hlo Hhi] Ha] [Hgroups Hfrac]]]]]].
  assert (Hane : a <> []) by (intros ->; simpl in Hlo; lia).
  split; [|split].
  - destruct a as [|d a']; [congruence|].
    exists d, (a' ++ concat groups ++ frac). split; [reflexivity|].
    apply Forall_inv in Ha. exact Ha.
  - destruct Hfrac as [-> | [ds [Hsd Hne]]].
    + rewrite app_nil_r.
      destruct (list_last_cases groups) as [-> | [gs [g ->]]].
      * simpl. rewrite app_nil_r. apply digits_end; assumption.
      * rewrite concat_app. simpl. rewrite app_nil_r.
        apply endsWithDigit_app, endsWithDigit_app.
        apply Forall_app in Hgroups. destruct Hgroups as [_ Hg].
        apply Forall_inv in Hg. destruct Hg as [ds [Hsd Hlen]].
        apply (sepThenDigits_end g ds Hsd). intros ->. discriminate.
    + apply endsWithDigit_app, endsWithDigit_app.
      apply (sepThenDigits_end frac ds Hsd Hne).
  - apply Forall_app. split.
    + eapply Forall_impl; [|exact Ha]. intros c. apply digit_priceChar.
    + apply Forall_app. split.
      * apply Forall_concat. eapply Forall_impl; [|exact Hgroups].
        intros g [ds [Hsd _]]. apply (sepThenDigits_chars g ds Hsd).
      * destruct Hfrac as [-> | [ds [Hsd _]]]; [constructor|].
        apply (sepThenDigits_chars frac ds Hsd).
Qed.

(** Cleaning leaves alone a text of digits, dots and commas that is
    empty or ends with a digit. *)
Lemma cleanText_id s :
  Forall (fun c => priceChar c = true) s ->
  s = [] \/ endsWithDigit s -> cleanText s = s.
Proof.
  intros Hall Hend. unfold cleanText, notPriceChar.
  rewrite replaceAll_negClass_empty.
  rewrite filter_all
    by (eapply Forall_impl; [|exact Hall];
        intros c Hc; rewrite priceClass_priceChar; exact Hc).
  rewrite (trim_trimmed _ (priceChars_trimmed _ Hall)).
  apply strip_trailingPunct_id. exact Hend.
Qed.

(** An amount token is read as it is: nothing is cleaned away, and the
    price is a number that is not negative. *)
Lemma parsePrice_amountShaped w :
  amountShaped w ->
  cleanText w = w /\ exists q, parsePrice w = Some (Fin q) /\ (0 <= q)%Q.
Proof.
  intros H. destruct (amountShaped_facts w H) as [Hs [He Hall]].
  assert (E : cleanText w = w) by (apply cleanText_id; auto).
  split; [exact E|]. apply parsePrice_starts_digit. rewrite E. exact Hs.
Qed.

Lemma amountRegex_inv keywords p rest y :
  Matches true (amountRegex keywords) (startAt p rest) y ->
  exists lead tok,
    rest = lead ++ tok ++ after y /\ cap y = Some tok /\ amountShaped tok.
Proof.
  unfold amountRegex, seq. intros H.
  apply Matches_Seq_inv in H. destruct H as [y1 [Hkw H]].
  apply Matches_Seq_inv in H. destruct H as [y2 [Hgap H]].
  apply Matches_Seq_inv in H. destruct H as [y3 [Hsep H]].
  apply Matches_Seq_inv in H. destruct H as [y4 [Hsp Htok]].
  apply Matches_anyOf_inv in Hkw. destruct Hkw as [a [_ Hkw]].
  apply Matches_word_inv in Hkw. destruct Hkw as [kw [S1 _]].
  apply Matches_Repeat_Class_inv in Hgap. destruct Hgap as [gap [S2 _]].
  apply Matches_Repeat_Class_inv in Hsep. destruct Hsep as [sepr [S3 _]].
  apply Matches_Repeat_Class_inv in Hsp. destruct Hsp as [sp [S4 _]].
  apply numberPattern_inv in Htok. destruct Htok as [tok [S5 [Hcap Hshape]]].
  pose proof (Span_app _ _ _ _ _ S1
               (Span_app _ _ _ _ _ S2
                 (Span_app _ _ _ _ _ S3 (Span_app _ _ _ _ _ S4 S5)))) as S.
  apply Span_start_nil in S. destruct S as [S _].
  exists (kw ++ gap ++ sepr ++ sp), tok.
  split; [rewrite S, <- !app_assoc; reflexivity | auto].
Qed.

(** What the keyword patterns find. *)
Lemma exec_amountRegex keywords s m :
  exec true (amountRegex keywords) s = Some m ->
  exists tok q,
    group1 m = Some tok /\ amountShaped tok /\ isSubstring tok s
    /\ parsePrice tok = Some (Fin q) /\ (0 <= q)%Q.
Proof.
  intros E. apply exec_leftmost in E.
  destruct E as [Hs [[y [HM [Hg [_ Ha]]]] _]].
  apply amountRegex_inv in HM. destruct HM as [lead [tok [Hrest [Hcap Hshape]]]].
  destruct (parsePrice_amountShaped tok Hshape) as [_ [q [Hq Hpos]]].
  exists tok, q. split; [rewrite Hg; exact Hcap|]. split; [exact Hshape|].
  split; [|auto].
  exists (prefix m ++ lead), (after y). rewrite Hs, Hrest, <- !app_assoc. reflexivity.
Qed.

Lemma extractAmount_defined keywords s :
  match exec true (amountRegex keywords) s with
  | Some m => exists q, extractAmount true (amountRegex keywords) s = Some (Some (Fin q))
  | None => extractAmount true (amountRegex keywords) s = None
  end.
Proof.
  unfold extractAmount.
  destruct (exec true (amountRegex keywords) s) as [m|] eqn:E; [|reflexivity].
  destruct (exec_amountRegex keywords s m E) as [tok [q [-> [_ [_ [-> _]]]]]].
  exists q. reflexivity.
Qed.

Lemma flatten_extractAmount_None keywords s :
  flatten (extractAmount true (amountRegex keywords) s) = None
  <-> exec true (amountRegex keywords) s = None.
Proof.
  pose proof (extractAmount_defined keywords s) as H.
  destruct (exec true (amountRegex keywords) s) as [m|].
  - destruct H as [q ->]. simpl. split; discriminate.
  - rewrite H. simpl. tauto.
Qed.

(** X6.  The keyword amounts.  When one of the three keyword patterns
    matches, the token it captures has the amount shape (one to three
    digits, groups of a separator and three digits, at most one last group
    of a separator and digits), occurs in the text, and is always read as
    a number that is not negative.  So the tax and the subtotal
    are absent exactly when their pattern does not match, and the amount
    is present whenever the total pattern matches. *)
Theorem keyword_amounts_defined : forall currentYear s,
  (forall keywords m,
      exec true (amountRegex keywords) s = Some m ->
      exists tok q,
        group1 m = Some tok /\ amountShaped tok /\ isSubstring tok s
        /\ parsePrice tok = Some (Fin q) /\ (0 <= q)%Q)
  /\ (taxAmount (parse currentYear s) = None <-> exec true taxRegex s = None)
  /\ (subtotalAmount (parse currentYear s) = None
      <-> exec true subtotalRegex s = None)
  /\ (amount (parse currentYear s) = None -> exec true totalRegex s = None).
Proof.
  intros currentYear s. split; [|split; [|split]].
  - intros keywords m. apply exec_amountRegex.
  - apply flatten_extractAmount_None.
  - apply flatten_extractAmount_None.
  - unfold parse. cbn [amount]. intros H.
    apply flatten_extractAmount_None.
    destruct (fallbackAmount_cases s (flatten (extractAmount true totalRegex s)))
      as [E | [_ [_ E]]]; rewrite E in H; [exact H | discriminate].
Qed.

Lemma keyword_amounts_defined_witness :
  exists m, exec true taxRegex (lit "IVA: 1.250,00") = Some m
            /\ exists tok q,
                 group1 m = Some tok /\ amountShaped tok
                 /\ isSubstring tok (lit "IVA: 1.250,00")
                 /\ parsePrice tok = Some (Fin q) /\ (0 <= q)%Q.
Proof.
  eexists. split; [vm_compute; reflexivity|].
  eapply (proj1 (keyword_amounts_defined 2025 (lit "IVA: 1.250,00"))
                ["tax"; "iva"; "impuesto"; "itbms"; "vat"]%string).
  vm_compute. reflexivity.
Defined.

Lemma dateRegex_intro d : dateShaped d ->
  forall p rest, MatchesAt false dateRegex p (d ++ rest).
Proof.
  intros Hd p rest. exact (dateRegex_intro_at d Hd (rev p) rest).
Qed.


Lemma inOrderIn_head s c cs : inOrderIn s (c :: cs) -> isSubstring c s.
Proof.
  intros [gaps [Hlen ->]].
  destruct gaps as [|g gaps]; [discriminate|].
  simpl. exists g, (weave gaps cs). reflexivity.
Qed.

(** No date is returned exactly when the pattern finds no candidate. *)
Lemma extractDate_None_iff currentYear s :
  extractDate currentYear s = None <-> allDateMatches s = [].
Proof.
  pose proof (allDateMatches_shaped s) as Hshape.
  unfold extractDate. split.
  - intros H.
    destruct (allDateMatches s) as [|c cs] eqn:E; [reflexivity|].
    exfalso.
    destruct (find (isValidDate currentYear) (c :: cs)) as [f|] eqn:Ef.
    + apply find_some in Ef. destruct Ef as [Hin _].
      rewrite Forall_forall in Hshape.
      cbn [falsyText] in H.
      rewrite (dateShaped_not_empty f (Hshape f Hin)) in H. discriminate.
    + apply Forall_inv in Hshape.
      cbn [falsyText length Nat.ltb Nat.leb andb] in H.
      rewrite (dateShaped_not_empty c Hshape) in H. discriminate.
  - intros ->. reflexivity.
Qed.

(** X7.  The date is absent exactly when no piece of the text has the
    shape of a date (one to four digits, a separator, one or two digits,
    a separator, two to four digits): as soon as the text holds such a
    piece, a date is returned, valid or not. *)
Theorem date_absent_iff : forall currentYear s,
  date (parse currentYear s) = None
  <-> forall d, isSubstring d s -> ~ dateShaped d.
Proof.
  intros currentYear s. unfold parse. cbn [date].
  rewrite extractDate_None_iff.
  pose proof (allDateMatches_shaped s) as Hshape.
  pose proof (matchAll_in_order false dateRegex s) as Horder.
  fold (allDateMatches s) in Horder.
  split.
  - intros Hnil d [a [b Hs]] Hd.
    apply matchAll_nil in Hnil.
    apply (proj1 (exec_None false dateRegex s) Hnil a (d ++ b) Hs).
    apply dateRegex_intro. exact Hd.
  - intros Hno.
    destruct (allDateMatches s) as [|c cs] eqn:E; [reflexivity|].
    exfalso. apply (Hno c).
    + apply (inOrderIn_head s c cs Horder).
    + apply Forall_inv in Hshape. exact Hshape.
Qed.

(** ** The fallback candidates *)

Lemma fallbackRegex_inv x y :
  Matches false fallbackRegex x y -> exists w, Span x w y /\ amountShaped w.
Proof.
  unfold fallbackRegex, seq. intros H.
  apply Matches_Seq_inv in H. destruct H as [y1 [Hb1 H]].
  apply Matches_Seq_inv in H. destruct H as [y2 [Hn Hb2]].
  apply Matches_WordBoundary_inv in Hb1. destruct Hb1 as [-> _].
  apply Matches_WordBoundary_inv in Hb2. destruct Hb2 as [-> _].
  apply numberPattern_inv in Hn. destruct Hn as [w [S [_ Hw]]].
  exists w. auto.
Qed.

Lemma fallbackAmount_keep s current :
  numericPrices (matchAll false fallbackRegex s) = [] ->
  fallbackAmount s current = current.
Proof.
  intros E. unfold fallbackAmount.
  destruct (falsyNumber current); [|reflexivity].
  destruct (matchAll false fallbackRegex s) as [|m ms]; [reflexivity|].
  rewrite E. reflexivity.
Qed.

(** X8.  The total.  A total found by the keyword pattern is kept unless
    it is zero.  Otherwise the amount is the greatest of the positive
    prices read from the fallback candidates, which are pieces of the
    text of the amount shape, taken in order and without overlap; when no
    candidate has a positive price the keyword result stays.  So the
    amount is absent exactly when the total pattern does not match and no
    candidate has a positive price. *)
Theorem fallback_total : forall currentYear s,
  let found := flatten (extractAmount true totalRegex s) in
  let cands := matchAll false fallbackRegex s in
  let prices := numericPrices cands in
  (Forall amountShaped cands /\ inOrderIn s cands)
  /\ (forall n, In n prices
                <-> exists p, In p cands /\ parsePrice p = Some n
                              /\ isPositive n = true)
  /\ (falsyNumber found = false -> amount (parse currentYear s) = found)
  /\ (falsyNumber found = true -> prices <> [] ->
      exists n, amount (parse currentYear s) = Some n /\ isMaximumOf prices n)
  /\ (prices = [] -> amount (parse currentYear s) = found)
  /\ (amount (parse currentYear s) = None
      <-> exec true totalRegex s = None /\ prices = []).
Proof.
  intros currentYear s found cands prices.
  assert (Hkeep : prices = [] -> amount (parse currentYear s) = found).
  { intros E. unfold parse. cbn [amount]. apply fallbackAmount_keep. exact E. }
  assert (Hset : falsyNumber found = true -> prices <> [] ->
                 amount (parse currentYear s) = Some (Math_max prices)).
  { intros Hf Hne. unfold parse. cbn [amount].
    apply fallbackAmount_set; assumption. }
  split; [split|split; [|split; [|split; [|split]]]].
  - apply matchAll_Forall. apply fallbackRegex_inv.
  - apply matchAll_in_order.
  - intros n. apply numericPrices_spec.
  - intros Hf. unfold parse. cbn [amount]. unfold fallbackAmount.
    unfold found in Hf |- *. rewrite Hf. reflexivity.
  - intros Hf Hne. exists (Math_max prices). split; [apply Hset; assumption|].
    apply Math_max_isMaximum; [exact Hne | apply numericPrices_isPositive].
  - exact Hkeep.
  - split.
    + intros H.
      assert (Hp : prices = []).
      { destruct prices as [|n l] eqn:E; [reflexivity|]. exfalso.
        destruct (falsyNumber found) eqn:Hf.
        - rewrite Hset in H; [discriminate | reflexivity | discriminate].
        - assert (Hk : amount (parse currentYear s) = found).
          { unfold parse. cbn [amount]. unfold fallbackAmount.
            unfold found in Hf |- *. rewrite Hf. reflexivity. }
          rewrite Hk in H. rewrite H in Hf. discriminate. }
      split; [|exact Hp].
      apply flatten_extractAmount_None.
      change (found = None). rewrite <- (Hkeep Hp). exact H.
    + intros [Hex Hp]. rewrite (Hkeep Hp). subst found.
      apply flatten_extractAmount_None. exact Hex.
Qed.

Lemma fallback_total_witness :
  amount (parse 2025 zeroTotalReceipt)
  = flatten (extractAmount true totalRegex zeroTotalReceipt)
  \/ exists n, amount (parse 2025 zeroTotalReceipt) = Some n
               /\ isMaximumOf (numericPrices (matchAll false fallbackRegex zeroTotalReceipt)) n.
Proof.
  right.
  apply (proj1 (proj2 (proj2 (proj2 (fallback_total 2025 zeroTotalReceipt))))).
  - vm_compute. reflexivity.
  - vm_compute. discriminate.
Defined.

(** * The spread call of [parse] *)

(** ** What a call of [parse] returns *)

Lemma fallbackAmountOutcome_cases limit s current :
  fallbackAmountOutcome limit s current
  = if falsyNumber current
       && (limit <? length (numericPrices (matchAll false fallbackRegex s)))
    then Throws RangeError
    else Returns (fallbackAmount s current).
Proof.
  unfold fallbackAmountOutcome, fallbackAmount, Math_max_spread.
  destruct (falsyNumber current); [|reflexivity]. cbn [andb].
  destruct (matchAll false fallbackRegex s) as [|m ms]; [destruct limit; reflexivity|].
  destruct (numericPrices (m :: ms)) as [|p ps] eqn:E.
  - cbn [length]. destruct limit; reflexivity.
  - replace (0 <? length (p :: ps)) with true by reflexivity.
    destruct (limit <? length (p :: ps)); reflexivity.
Qed.

(** A call of [parse] raises [RangeError] when step 6 is entered with more
    positive prices than the spread call takes, and returns the record
    [parse] otherwise. *)
Lemma parseOutcome_cases limit y s :
  parseOutcome limit y s
  = if falsyNumber (flatten (extractAmount true totalRegex s))
       && (limit <? length (numericPrices (matchAll false fallbackRegex s)))
    then Throws RangeError
    else Returns (parse y s).
Proof.
  unfold parseOutcome, parse. rewrite fallbackAmountOutcome_cases.
  destruct (falsyNumber _ && _); reflexivity.
Qed.

Lemma parseOutcome_returns limit y s r :
  parseOutcome limit y s = Returns r -> r = parse y s.
Proof.
  rewrite parseOutcome_cases. destruct (_ && _); [discriminate|].
  intros [= <-]. reflexivity.
Qed.

(** ** A text of many prices *)

Lemma manyPrices_S n : manyPrices (S n) = "1"%char :: " "%char :: manyPrices n.
Proof. reflexivity. Qed.

Lemma fallback_match_one bef rest :
  atBoundary bef ->
  exists y, Matches false fallbackRegex
                    (MState bef ("1"%char :: " "%char :: rest) None) y.
Proof.
  intros Hb. eexists. unfold fallbackRegex, numberPattern, seq.
  eapply M_Seq.
  { apply M_WordBoundary. unfold prevIsWord, nextIsWord. cbn [before after].
    destruct bef as [|c bef]; [reflexivity|]. red in Hb. rewrite Hb. reflexivity. }
  eapply M_Seq.
  { apply M_Group. eapply M_Seq.
    { apply (Matches_Repeat_Class_intro false false [CRange "0" "9"]
               (" "%char :: rest) None ["1"%char] bef 1 (Some 3)).
      - repeat constructor.
      - simpl. lia.
      - intros m [= <-]. simpl. lia. }
    eapply M_Seq.
    { apply M_RepDone. right. reflexivity. }
    apply Matches_opt_skip. }
  apply M_WordBoundary. reflexivity.
Qed.

Lemma matchAt_fallback_one bef rest :
  atBoundary bef ->
  exists y, matchAt false fallbackRegex bef ("1"%char :: " "%char :: rest) = Some y
            /\ matched (result bef y) = lit "1".
Proof.
  intros Hb. destruct (fallback_match_one bef rest Hb) as [y0 H0].
  destruct (matchAt false fallbackRegex bef ("1"%char :: " "%char :: rest)) as [y|] eqn:E;
    [|exfalso; exact (matchAt_complete H0 E)].
  exists y. split; [reflexivity|].
  destruct (result_shape _ _ _ _ E) as [Ha [_ [_ [Hbef HM]]]].
  apply fallbackRegex_inv in HM. destruct HM as [w [[Hw1 Hw2] Hshape]].
  cbn [before after] in Hw1, Hw2.
  assert (Hmw : matched (result bef y) = w).
  { rewrite Hbef in Hw2. apply app_inv_tail in Hw2.
    apply (f_equal (@rev ascii)) in Hw2. rewrite !rev_involutive in Hw2. exact Hw2. }
  rewrite Hmw.
  destruct (amountShaped_facts w Hshape) as [[d [w' [-> Hd]]] [_ Hchars]].
  cbn [app] in Hw1. injection Hw1 as <- Hw1.
  destruct w' as [|c w']; [reflexivity|].
  cbn [app] in Hw1. injection Hw1 as <- _.
  apply Forall_inv_tail, Forall_inv in Hchars. discriminate.
Qed.

Lemma matchAt_fallback_space bef rest :
  matchAt false fallbackRegex bef (" "%char :: rest) = None.
Proof.
  destruct (matchAt false fallbackRegex bef (" "%char :: rest)) as [y|] eqn:E;
    [|reflexivity].
  exfalso. apply matchAt_Some, fallbackRegex_inv in E.
  destruct E as [w [[Hw1 _] Hshape]]. cbn [after] in Hw1.
  destruct (amountShaped_facts w Hshape) as [[d [w' [-> Hd]]] _].
  cbn [app] in Hw1. injection Hw1 as <- _. discriminate.
Qed.

Lemma scan_manyPrices : forall n bef,
  atBoundary bef ->
  map matched (scan false fallbackRegex bef (manyPrices n) 0) = repeat (lit "1") n.
Proof.
  induction n as [|n IH]; intros bef Hb.
  - cbn [manyPrices repeat concat scan].
    destruct (matchAt false fallbackRegex bef []) as [y|] eqn:E; [|reflexivity].
    exfalso. apply matchAt_Some, fallbackRegex_inv in E.
    destruct E as [w [[Hw1 _] Hshape]]. cbn [after] in Hw1.
    destruct (amountShaped_facts w Hshape) as [[d [w' [-> Hd]]] _]. discriminate.
  - rewrite manyPrices_S. cbn [scan].
    destruct (matchAt_fallback_one bef (manyPrices n) Hb) as [y [-> Hm]].
    rewrite Hm. cbn [length lit list_ascii_of_string Nat.sub map repeat].
    rewrite Hm. f_equal.
    cbn [scan]. rewrite matchAt_fallback_space. apply IH. reflexivity.
Qed.

(** The fallback finds each of the [n] prices. *)
Lemma matchAll_manyPrices n :
  matchAll false fallbackRegex (manyPrices n) = repeat (lit "1") n.
Proof. apply scan_manyPrices. exact I. Qed.

Lemma numericPrices_ones n : numericPrices (repeat (lit "1") n) = repeat (Fin 1) n.
Proof.
  induction n as [|n IH]; [reflexivity|].
  cbn [repeat numericPrices flat_map].
  replace (parsePrice (lit "1")) with (Some (Fin 1)) by (vm_compute; reflexivity).
  replace (isPositive (Fin 1)) with true by (vm_compute; reflexivity).
  cbn [app]. f_equal. exact IH.
Qed.

Lemma matchAt_total_one_space bef c rest :
  c = "1"%char \/ c = " "%char ->
  matchAt true totalRegex bef (c :: rest) = None.
Proof. intros [-> | ->]; reflexivity. Qed.

(** No keyword of the total stands in the text. *)
Lemma execFrom_total_manyPrices : forall n bef,
  execFrom true totalRegex bef (manyPrices n) = None.
Proof.
  induction n as [|n IH]; intros bef; [reflexivity|].
  rewrite manyPrices_S. cbn [execFrom].
  rewrite !matchAt_total_one_space by auto. apply IH.
Qed.

(** C8, the code against the claim.  [parse] raises an error on a text it
    can receive: on the text made of [1] and a space written [n] times no
    keyword of the total is found, step 6 finds the [n] prices and hands
    them to [Math.max(...numericPrices)] as the arguments of one call,
    which raises [RangeError] as soon as [n] is more than the engine takes.
    Whatever that number is, some text goes beyond it.  With [n] within
    the limit the same call returns the record, with the amount 1. *)
Theorem parse_raises_on_many_prices : forall argumentLimit currentYear n,
  0 < n ->
  (argumentLimit < n ->
   parseOutcome argumentLimit currentYear (manyPrices n) = Throws RangeError)
  /\ (n <= argumentLimit ->
      parseOutcome argumentLimit currentYear (manyPrices n)
      = Returns (parse currentYear (manyPrices n))
      /\ amount (parse currentYear (manyPrices n)) = Some (Fin 1)).
Proof.
  intros limit y n Hn.
  assert (Hlen : length (numericPrices (matchAll false fallbackRegex (manyPrices n))) = n)
    by (rewrite matchAll_manyPrices, numericPrices_ones; apply repeat_length).
  assert (Htotal : extractAmount true totalRegex (manyPrices n) = None)
    by (unfold extractAmount, exec; rewrite execFrom_total_manyPrices; reflexivity).
  rewrite parseOutcome_cases, Htotal, Hlen. cbn [flatten falsyNumber andb].
  split; intros H.
  - replace (limit <? n) with true by (symmetry; apply Nat.ltb_lt; exact H).
    reflexivity.
  - replace (limit <? n) with false by (symmetry; apply Nat.ltb_ge; exact H).
    split; [reflexivity|].
    unfold parse. cbn [amount]. rewrite Htotal. cbn [flatten].
    unfold fallbackAmount. cbn [falsyNumber].
    rewrite matchAll_manyPrices.
    destruct n as [|n]; [lia|].
    change (repeat (lit "1") (S n)) with (lit "1" :: repeat (lit "1") n).
    cbv iota beta zeta.
    change (lit "1" :: repeat (lit "1") n) with (repeat (lit "1") (S n)).
    rewrite numericPrices_ones. cbn [repeat length Nat.ltb Nat.leb].
    f_equal. clear. unfold Math_max. cbn [fold_left].
    replace (max2 (Inf true) (Fin 1)) with (Fin 1) by reflexivity.
    induction n as [|n IH]; [reflexivity|]. cbn [repeat fold_left].
    replace (max2 (Fin 1) (Fin 1)) with (Fin 1) by reflexivity. exact IH.
Qed.

Lemma parse_raises_on_many_prices_witness :
  parseOutcome 2 2025 (manyPrices 3) = Throws RangeError
  /\ parseOutcome 3 2025 (manyPrices 3) = Returns (parse 2025 (manyPrices 3)).
Proof.
  split.
  - apply (parse_raises_on_many_prices 2 2025 3); lia.
  - apply (parse_raises_on_many_prices 3 2025 3); lia.
Defined.

(** * The earlier implementation *)

Import EarlierSpec.


(** A loop that ends found the matches of the [g] flag. *)
Lemma execLoop_Some i r : 1 <= minLen r -> forall fuel aft bef ms,
  EarlierParser.execLoop fuel i r bef aft = Some ms -> ms = scan i r bef aft 0.
Proof.
  intros Hmin. induction fuel as [|fuel IH]; intros aft bef ms; [discriminate|].
  cbn [EarlierParser.execLoop]. rewrite (scan_step i r Hmin).
  destruct (execFrom i r bef aft) as [m|]; [|intros [= <-]; reflexivity].
  destruct (EarlierParser.execLoop fuel i r _ _) as [ms'|] eqn:E; [|discriminate].
  intros [= <-]. f_equal. apply IH. exact E.
Qed.


(** ** The price token *)

Lemma digitOrComma_accepts i c :
  accepts i false [CDigit; CChar ","] c = isDigitOrComma c.
Proof. destruct i; destruct c as [[] [] [] [] [] [] [] []]; reflexivity. Qed.

Lemma digit_accepts_any i c : accepts i false [CDigit] c = isDigit c.
Proof. destruct i; destruct c as [[] [] [] [] [] [] [] []]; reflexivity. Qed.

Lemma dot_match i d : set_match i (Ascii.eqb ".") d = true <-> d = "."%char.
Proof.
  split; [|intros ->; destruct i; reflexivity].
  destruct i; destruct d as [[] [] [] [] [] [] [] []]; vm_compute; intros H;
    first [reflexivity | discriminate H].
Qed.

Lemma priceToken_inv i x y :
  Matches i EarlierParser.priceToken x y ->
  exists w run dd, Span x w y /\ cap y = Some w /\ priceTokenOf w run dd.
Proof.
  unfold EarlierParser.priceToken, EarlierParser.digitOrComma, seq, plus, digit.
  intros H.
  apply Matches_Group_inv in H. destruct H as [y0 [H ->]].
  apply Matches_Seq_inv in H. destruct H as [y1 [Hrun H]].
  apply Matches_Seq_inv in H. destruct H as [y2 [Hdot Hdd]].
  apply Matches_Repeat_Class_inv in Hrun.
  destruct Hrun as [run [S1 [_ [Hall1 [Hmin1 _]]]]]. simpl in Hmin1.
  apply Matches_Lit_inv in Hdot. destruct Hdot as [d [S2 [Hd _]]].
  apply dot_match in Hd. subst d.
  apply Matches_Repeat_Class_inv in Hdd.
  destruct Hdd as [dd [S3 [_ [Hall2 [Hmin2 Hmax2]]]]].
  specialize (Hmax2 2 eq_refl). simpl in Hmin2.
  pose proof (Span_app _ _ _ _ _ S1 (Span_app _ _ _ _ _ S2 S3)) as S.
  exists (run ++ ["."%char] ++ dd), run, dd.
  split; [apply Span_capture, S|].
  split; [simpl; rewrite (Span_between _ _ _ S); reflexivity|].
  split; [reflexivity|]. split; [intros ->; simpl in Hmin1; lia|].
  split; [apply (Forall_accepts _ _ _ (digitOrComma_accepts i)), Hall1|].
  split; [lia|]. apply (Forall_accepts _ _ _ (digit_accepts_any i)), Hall2.
Qed.

Lemma priceToken_intro i w run dd :
  priceTokenOf w run dd ->
  forall p rest, MatchesAt i EarlierParser.priceToken p (w ++ rest).
Proof.
  intros [-> [Hne [Hrun [[Lo Hi] Hdd]]]] p rest.
  unfold MatchesAt, EarlierParser.priceToken, EarlierParser.digitOrComma,
    seq, plus, digit, startAt.
  eexists. apply M_Group. rewrite <- app_assoc. cbn [app].
  eapply M_Seq.
  { apply Matches_Repeat_Class_intro.
    - apply (Forall_accepts _ _ _ (digitOrComma_accepts i)), Hrun.
    - destruct run; [congruence | simpl; lia].
    - discriminate. }
  eapply M_Seq.
  { eapply M_Lit; [reflexivity|]. apply dot_match. reflexivity. }
  cbn [before cap].
  apply (Matches_Repeat_Class_intro i false [CDigit] rest None dd).
  - apply (Forall_accepts _ _ _ (digit_accepts_any i)), Hdd.
  - exact Lo.
  - intros m Hm. injection Hm as <-. exact Hi.
Qed.

Lemma app_cons_unique {A} (c : A) : forall a a' b b',
  ~ In c a -> ~ In c a' -> a ++ c :: b = a' ++ c :: b' -> a = a' /\ b = b'.
Proof.
  induction a as [|x a IH]; intros [|x' a'] b b' Ha Ha' E; cbn [app] in E.
  - injection E as ->. auto.
  - injection E as <- _. exfalso. apply Ha'. left. reflexivity.
  - injection E as -> _. exfalso. apply Ha. left. reflexivity.
  - injection E as -> E.
    destruct (IH a' b b') as [-> ->]; auto.
    + intros H. apply Ha. right. exact H.
    + intros H. apply Ha'. right. exact H.
Qed.

Lemma run_has_no_dot run :
  Forall (fun c => isDigitOrComma c = true) run -> ~ In "."%char run.
Proof.
  intros H Hin. rewrite Forall_forall in H. specialize (H _ Hin). discriminate.
Qed.

(** A price token is written in one way only, and no proper prefix of it
    is a price token. *)
Lemma priceToken_prefix w run dd w' run' dd' rest :
  priceTokenOf w run dd -> priceTokenOf w' run' dd' -> w = w' ++ rest ->
  run' = run /\ dd' = dd /\ rest = [] /\ w' = w.
Proof.
  intros [-> [_ [Hrun [[Lo Hi] Hdd]]]] [-> [_ [Hrun' [[Lo' Hi'] Hdd']]]] E.
  rewrite <- app_assoc in E. cbn [app] in E.
  apply app_cons_unique in E; try (apply run_has_no_dot; assumption).
  destruct E as [-> E].
  assert (Hlen : length dd = length dd' + length rest)
    by (rewrite E, length_app; reflexivity).
  assert (rest = []) by (destruct rest; [reflexivity | simpl in Hlen; lia]).
  subst rest. rewrite app_nil_r in E. subst dd'. auto.
Qed.

Lemma removeAll_digits run :
  Forall (fun c => isDigitOrComma c = true) run ->
  Forall (fun c => isDigit c = true) (removeAll "," run).
Proof.
  intros H. apply Forall_forall. intros c Hc.
  apply In_removeAll in Hc. destruct Hc as [Hin Hne].
  rewrite Forall_forall in H. specialize (H c Hin).
  unfold isDigitOrComma in H. apply orb_true_iff in H.
  destruct H as [H | H]; [exact H|].
  apply Ascii.eqb_eq in H. congruence.
Qed.

Lemma removeAll_token run dd :
  Forall (fun c => isDigit c = true) dd ->
  removeAll "," (run ++ "."%char :: dd) = removeAll "," run ++ "."%char :: dd.
Proof.
  intros Hdd. unfold removeAll. rewrite filter_app. cbn [filter].
  change (negb (Ascii.eqb "." ",")) with true. cbv iota.
  rewrite (filter_all (fun c => negb (Ascii.eqb c ",")) dd); [reflexivity|].
  eapply Forall_impl; [|exact Hdd]. intros c Hc.
  destruct (digit_facts c Hc) as [_ [_ [_ [_ [_ [Hcomma _]]]]]].
  rewrite Hcomma. reflexivity.
Qed.

(** The value of a price token: its digits, read as hundredths. *)
Lemma token_value run dd :
  Forall (fun c => isDigitOrComma c = true) run ->
  digitRun 2 2 dd ->
  definedNumber (parseFloat (replaceAll false (Lit ",") [] (run ++ "."%char :: dd)))
  = Some (hundredths (removeAll "," run ++ dd)).
Proof.
  intros Hrun [[Lo Hi] Hdd].
  rewrite replaceAll_Lit_empty, (removeAll_token run dd Hdd).
  rewrite (@parseFloat_point (removeAll "," run) dd (removeAll_digits run Hrun)).
  assert (Hspan : span isDigit dd = (dd, [])).
  { rewrite <- (app_nil_r dd) at 1. apply span_app; [exact Hdd | exact I]. }
  rewrite Hspan.
  assert (Hlen : length dd = 2) by lia.
  destruct (removeAll "," run ++ dd) as [|d0 l] eqn:E.
  - apply app_eq_nil in E. destruct E as [_ ->]. discriminate.
  - rewrite Hlen. reflexivity.
Qed.

(** What [exec] finds for the price token. *)
Lemma exec_priceToken i t :
  match exec i EarlierParser.priceToken t with
  | Some m =>
      exists run dd,
        priceTokenOf (matched m) run dd
        /\ group1 m = Some (matched m)
        /\ t = prefix m ++ matched m ++ suffix m
        /\ forall p rest, t = p ++ rest -> length p < length (prefix m) ->
                          ~ MatchesAt i EarlierParser.priceToken p rest
  | None => forall w run dd, isSubstring w t -> ~ priceTokenOf w run dd
  end.
Proof.
  destruct (exec i EarlierParser.priceToken t) as [m|] eqn:E.
  - apply exec_leftmost in E. destruct E as [Hs [[y [HM [Hg [Hb Ha]]]] Hleft]].
    apply priceToken_inv in HM. destruct HM as [w [run [dd [S [Hcap Hw]]]]].
    apply Span_start_nil in S. destruct S as [_ S].
    rewrite Hb in S. apply app_inv_tail in S.
    apply (f_equal (@rev ascii)) in S. rewrite !rev_involutive in S. subst w.
    exists run, dd. split; [exact Hw|]. split; [congruence|]. split; [exact Hs|].
    exact Hleft.
  - intros w run dd [a [b Hs]] Hw.
    apply (proj1 (exec_None i EarlierParser.priceToken t) E a (w ++ b) Hs).
    apply (priceToken_intro i w run dd Hw).
Qed.

(** What the earlier [parsePrice] returns, by the outcome of [exec]. *)
Lemma earlier_parsePrice_exec t :
  match exec false EarlierParser.priceToken t with
  | Some m =>
      exists run dd,
        priceTokenOf (matched m) run dd
        /\ EarlierParser.parsePrice t = Some (hundredths (removeAll "," run ++ dd))
  | None => EarlierParser.parsePrice t = None
  end.
Proof.
  pose proof (exec_priceToken false t) as H.
  unfold EarlierParser.parsePrice.
  destruct (exec false EarlierParser.priceToken t) as [m|]; [|reflexivity].
  destruct H as [run [dd [Hw [Hg _]]]]. rewrite Hg.
  exists run, dd. split; [exact Hw|].
  destruct Hw as [Hm [_ [Hrun Hdd]]].
  rewrite Hm. apply (token_value run dd Hrun Hdd).
Qed.

(** A text that is itself a price token is read whole. *)
Lemma earlier_parsePrice_token t run dd :
  priceTokenOf t run dd ->
  EarlierParser.parsePrice t = Some (hundredths (removeAll "," run ++ dd)).
Proof.
  intros Ht.
  pose proof (exec_priceToken false t) as H.
  pose proof (earlier_parsePrice_exec t) as Hv.
  destruct (exec false EarlierParser.priceToken t) as [m|].
  - destruct H as [run1 [dd1 [Hw [_ [Hs Hleft]]]]].
    destruct Hv as [run2 [dd2 [Hw2 ->]]].
    assert (Hp : prefix m = []).
    { destruct (prefix m) as [|c pm] eqn:Ep; [reflexivity|]. exfalso.
      apply (Hleft [] t eq_refl); [simpl; lia|].
      rewrite <- (app_nil_r t). apply (priceToken_intro false t run dd Ht). }
    rewrite Hp in Hs. cbn [app] in Hs.
    destruct (priceToken_prefix t run dd (matched m) run2 dd2 (suffix m) Ht Hw2 Hs)
      as [-> [-> _]].
    reflexivity.
  - exfalso. apply (H t run dd); [|exact Ht].
    exists [], []. rewrite app_nil_r. reflexivity.
Qed.

Lemma hundredths_nonneg ds : nonneg (hundredths ds).
Proof. apply scale10_nonneg, digitsValue_nonneg. Qed.

(** The value read in the token that [exec] finds. *)
Lemma earlier_parsePrice_value t m :
  exec false EarlierParser.priceToken t = Some m ->
  EarlierParser.parsePrice t = definedNumber (parseFloat (removeAll "," (matched m))).
Proof.
  intros E. pose proof (exec_priceToken false t) as H.
  unfold EarlierParser.parsePrice. rewrite E in *.
  destruct H as [run [dd [_ [Hg _]]]]. rewrite Hg, replaceAll_Lit_empty. reflexivity.
Qed.

(** X9.  The earlier [parsePrice] reads the first price token of the
    text: a run of digits and commas, a dot and two digits.  It returns
    nothing exactly when the text holds no such token.  A price it
    returns is what [parseFloat] reads in the first token of the text,
    commas removed; it is not negative; and when the token has at most 20
    digits (the precision that the language keeps of a decimal literal) it
    is the double nearest to the number of hundredths that the digits
    write.  A text that is itself a token is read whole, so that
    "1,200.50" is 1200.50. *)
Theorem earlier_parsePrice_reading : forall t,
  (EarlierParser.parsePrice t = None
   <-> forall w run dd, isSubstring w t -> ~ priceTokenOf w run dd)
  /\ (forall n, EarlierParser.parsePrice t = Some n ->
        exists pre w post run dd,
          t = pre ++ w ++ post /\ priceTokenOf w run dd
          /\ (forall pre' w' post' run' dd',
                t = pre' ++ w' ++ post' -> priceTokenOf w' run' dd' ->
                length pre <= length pre')
          /\ Some n = definedNumber (parseFloat (removeAll "," w))
          /\ nonneg n
          /\ (length (removeAll "," run ++ dd) <= 20 ->
              n = hundredths (removeAll "," run ++ dd)))
  /\ (forall run dd, priceTokenOf t run dd ->
        EarlierParser.parsePrice t = definedNumber (parseFloat (removeAll "," t))
        /\ (length (removeAll "," run ++ dd) <= 20 ->
            EarlierParser.parsePrice t
            = Some (hundredths (removeAll "," run ++ dd)))).
Proof.
  intros t. pose proof (exec_priceToken false t) as H.
  pose proof (earlier_parsePrice_exec t) as Hv.
  split; [|split].
  - destruct (exec false EarlierParser.priceToken t) as [m|].
    + destruct H as [run [dd [Hw [_ [Hs _]]]]]. destruct Hv as [run2 [dd2 [_ ->]]].
      split; [discriminate|]. intros Hno. exfalso.
      apply (Hno (matched m) run dd); [|exact Hw].
      exists (prefix m), (suffix m). exact Hs.
    + rewrite Hv. split; [intros _; exact H | reflexivity].
  - destruct (exec false EarlierParser.priceToken t) as [m|] eqn:E;
      [|rewrite Hv; discriminate].
    destruct H as [_ [_ [_ [_ [Hs Hleft]]]]]. destruct Hv as [run [dd [Hw Hp]]].
    intros n Hn. rewrite Hp in Hn. injection Hn as <-.
    exists (prefix m), (matched m), (suffix m), run, dd.
    split; [exact Hs|]. split; [exact Hw|]. split; [|split; [|split]].
    + intros pre' w' post' run' dd' Hs' Hw'.
      destruct (le_lt_dec (length (prefix m)) (length pre')) as [Hle|Hlt]; [exact Hle|].
      exfalso. apply (Hleft pre' (w' ++ post') Hs' Hlt).
      apply (priceToken_intro false w' run' dd' Hw').
    + rewrite <- (earlier_parsePrice_value t m E). symmetry. exact Hp.
    + apply hundredths_nonneg.
    + intros _. reflexivity.
  - intros run dd Ht.
    pose proof (earlier_parsePrice_token t run dd Ht) as Hp. split; [|intros _; exact Hp].
    destruct (exec false EarlierParser.priceToken t) as [m|] eqn:E.
    + destruct H as [run1 [dd1 [Hw [_ [Hs Hleft]]]]].
      assert (Hpre : prefix m = []).
      { destruct (prefix m) as [|c pm] eqn:Ep; [reflexivity|]. exfalso.
        apply (Hleft [] t eq_refl); [simpl; lia|].
        rewrite <- (app_nil_r t). apply (priceToken_intro false t run dd Ht). }
      rewrite Hpre in Hs. cbn [app] in Hs.
      destruct (priceToken_prefix t run dd (matched m) run1 dd1 (suffix m) Ht Hw Hs)
        as [_ [_ [_ Hm]]].
      rewrite (earlier_parsePrice_value t m E), Hm. reflexivity.
    + exfalso. apply (H t run dd); [|exact Ht].
      exists [], []. rewrite app_nil_r. reflexivity.
Qed.

Lemma earlier_parsePrice_reading_witness :
  EarlierParser.parsePrice (lit "1,200.50") = Some (hundredths (lit "120050")).
Proof.
  apply (proj2 (proj2 (proj2 (earlier_parsePrice_reading (lit "1,200.50")))
                      (lit "1,200") (lit "50")
                      ltac:(repeat split; try discriminate; simpl; try lia;
                            repeat constructor))).
  simpl. lia.
Defined.


(** ** The earlier [parse] *)

Lemma earlier_parse_fields fuel s r :
  EarlierParser.parse fuel s = Some r ->
  rawText r = s
  /\ vendorName r = hd_error (EarlierParser.lines s)
  /\ date r = option_map matched (exec false dateRegex s)
  /\ subtotalAmount r = flatten (EarlierParser.extractAmount EarlierParser.subtotalRegex s)
  /\ taxAmount r = flatten (EarlierParser.extractAmount EarlierParser.taxRegex s).
Proof.
  unfold EarlierParser.parse. intros H.
  destruct (falsyNumber _).
  - destruct (EarlierParser.execLoop _ _ _ _ _) as [ms|]; [|discriminate].
    injection H as <-. cbn [rawText vendorName date subtotalAmount taxAmount].
    destruct (exec false dateRegex s); auto.
  - injection H as <-. cbn [rawText vendorName date subtotalAmount taxAmount].
    destruct (exec false dateRegex s); auto.
Qed.

(** A call of the earlier [parse], by the number of prices. *)
Lemma earlier_parseOutcome_cases limit fuel s :
  EarlierParser.parseOutcome limit fuel s
  = if falsyNumber (flatten (EarlierParser.extractAmount EarlierParser.totalRegex s))
    then match EarlierParser.execLoop fuel false EarlierParser.priceRegex [] s with
         | Some ms =>
             if limit <? length (EarlierParser.allPrices ms)
             then Some (Throws RangeError)
             else option_map (@Returns _) (EarlierParser.parse fuel s)
         | None => None
         end
    else option_map (@Returns _) (EarlierParser.parse fuel s).
Proof.
  unfold EarlierParser.parseOutcome, EarlierParser.parse, Math_max_spread.
  destruct (falsyNumber _); [|reflexivity].
  destruct (EarlierParser.execLoop _ _ _ _ _) as [ms|]; [|reflexivity].
  destruct (EarlierParser.allPrices ms) as [|p ps] eqn:E.
  - cbn [length]. destruct limit; reflexivity.
  - replace (0 <? length (p :: ps)) with true by reflexivity.
    destruct (limit <? length (p :: ps)); reflexivity.
Qed.

Lemma earlier_parseOutcome_returns limit fuel s r :
  EarlierParser.parseOutcome limit fuel s = Some (Returns r) ->
  EarlierParser.parse fuel s = Some r.
Proof.
  rewrite earlier_parseOutcome_cases.
  destruct (falsyNumber _).
  - destruct (EarlierParser.execLoop _ _ _ _ _) as [ms|]; [|discriminate].
    destruct (limit <? _); [discriminate|].
    destruct (EarlierParser.parse fuel s); cbn; [intros [= <-]; reflexivity | discriminate].
  - destruct (EarlierParser.parse fuel s); cbn; [intros [= <-]; reflexivity | discriminate].
Qed.




(** ** The earlier vendor name *)

Lemma dropWhile_nil_iff (p : ascii -> bool) s :
  dropWhile p s = [] <-> Forall (fun c => p c = true) s.
Proof.
  induction s as [|c s IH]; simpl.
  - split; [constructor | reflexivity].
  - destruct (p c) eqn:E.
    + rewrite IH. split; [intros H; constructor; assumption|].
      intros H. apply Forall_inv_tail in H. exact H.
    + split; [discriminate|]. intros H. apply Forall_inv in H. congruence.
Qed.

(** [trim] gives the empty text exactly on a blank text. *)
Lemma trim_nil_iff s : trim s = [] <-> blank s.
Proof.
  unfold trim, trimEnd, trimStart, blank.
  rewrite <- dropWhile_nil_iff. split.
  - intros H. apply (f_equal (@rev ascii)) in H.
    rewrite rev_involutive in H. cbn [rev] in H.
    apply dropWhile_nil_iff in H. apply Forall_rev in H.
    rewrite rev_involutive in H.
    pose proof (dropWhile_first isWhiteSpace s) as Hh.
    destruct (dropWhile isWhiteSpace s) as [|c r]; [reflexivity|].
    apply Forall_inv in H. congruence.
  - intros ->. reflexivity.
Qed.

Lemma hd_filter_find {A} (f : A -> bool) l : hd_error (filter f l) = find f l.
Proof.
  induction l as [|a l IH]; simpl; [reflexivity|].
  destruct (f a); [reflexivity | exact IH].
Qed.

Lemma split_blank : forall s,
  Forall blank (split newLine s) <-> blank s.
Proof.
  induction s as [|c s IH]; simpl.
  - split; intros _; repeat constructor.
  - destruct (Ascii.eqb_spec c newLine) as [->|Hne].
    + split.
      * intros H. apply Forall_inv_tail in H. apply IH in H.
        constructor; [reflexivity | exact H].
      * intros H. apply Forall_inv_tail in H. apply IH in H.
        constructor; [constructor | exact H].
    + pose proof (split_not_empty newLine s) as Hs.
      destruct (split newLine s) as [|part parts]; [congruence|].
      split.
      * intros H. inversion H as [|x l Hx Hl]; subst.
        inversion Hx as [|y l' Hc Hpart]; subst.
        constructor; [exact Hc|]. apply IH. constructor; assumption.
      * intros H. inversion H as [|y l' Hc Hs']; subst.
        apply IH in Hs'. inversion Hs' as [|x l Hx Hl]; subst.
        constructor; [constructor; assumption | exact Hl].
Qed.

Lemma earlier_lines_head s :
  hd_error (EarlierParser.lines s)
  = find (fun l => 0 <? length l) (map trim (split newLine s)).
Proof. unfold EarlierParser.lines. apply hd_filter_find. Qed.

Lemma not_blank_trim raw : (0 <? length (trim raw)) = false <-> blank raw.
Proof.
  rewrite <- trim_nil_iff.
  destruct (trim raw); simpl; split; intros H; try reflexivity; discriminate.
Qed.

(** X11.  The earlier vendor name is the first line of the text that is
    not blank, without the white space at its ends; it is absent exactly
    when the whole text is white space. *)
Theorem earlier_vendor_is_first_line : forall fuel s r,
  EarlierParser.parse fuel s = Some r ->
  (vendorName r = None <-> blank s)
  /\ (forall v, vendorName r = Some v ->
        exists l1 raw l2,
          split newLine s = l1 ++ raw :: l2
          /\ Forall blank l1 /\ ~ blank raw /\ v = trim raw
          /\ v <> [] /\ trimmed v /\ isSubstring v s).
Proof.
  intros fuel s r Hr.
  destruct (earlier_parse_fields fuel s r Hr) as [_ [Hv _]].
  rewrite Hv, earlier_lines_head. split.
  - rewrite <- split_blank. split.
    + intros H. apply Forall_forall. intros raw Hin.
      apply not_blank_trim.
      pose proof (find_none _ _ H (trim raw) (in_map trim _ _ Hin)) as Hf.
      exact Hf.
    + intros H. apply find_none_Forall. apply Forall_map.
      eapply Forall_impl; [|exact H]. intros raw Hb.
      apply not_blank_trim. exact Hb.
  - intros v Hf. apply find_Some_firstSuch in Hf.
    destruct Hf as [m1 [m2 [Hm [Hok Hm1]]]].
    apply map_eq_app in Hm. destruct Hm as [l1 [l2' [Hs [<- Hm]]]].
    apply map_eq_cons in Hm. destruct Hm as [raw [l2 [-> [<- _]]]].
    exists l1, raw, l2. split; [exact Hs|]. split; [|split; [|split; [|split; [|split]]]].
    + rewrite Forall_map in Hm1. eapply Forall_impl; [|exact Hm1].
      intros l Hl. apply not_blank_trim. exact Hl.
    + intros Hb. apply not_blank_trim in Hb. congruence.
    + reflexivity.
    + intros E. rewrite E in Hok. discriminate.
    + apply trimmed_trim.
    + apply (isSubstring_trans _ raw); [apply trim_substring|].
      apply (split_substring newLine). rewrite Hs. apply in_elt.
Qed.

Lemma earlier_vendor_is_first_line_witness :
  exists r,
    EarlierParser.parse 20 (lit "   " ++ newLine :: lit "  ACME ") = Some r
    /\ (vendorName r = None <-> blank (lit "   " ++ newLine :: lit "  ACME "))
    /\ (forall v, vendorName r = Some v ->
          exists l1 raw l2,
            split newLine (lit "   " ++ newLine :: lit "  ACME ") = l1 ++ raw :: l2
            /\ Forall blank l1 /\ ~ blank raw /\ v = trim raw
            /\ v <> [] /\ trimmed v
            /\ isSubstring v (lit "   " ++ newLine :: lit "  ACME ")).
Proof.
  eexists. split; [vm_compute; reflexivity|].
  apply (earlier_vendor_is_first_line 20 (lit "   " ++ newLine :: lit "  ACME ")).
  vm_compute. reflexivity.
Defined.

(** ** The earlier date, and the later one *)

Lemma hd_error_map {A B} (f : A -> B) l :
  hd_error (map f l) = option_map f (hd_error l).
Proof. destruct l; reflexivity. Qed.

Lemma earlier_date_head fuel s r :
  EarlierParser.parse fuel s = Some r ->
  date r = hd_error (allDateMatches s).
Proof.
  intros Hr. destruct (earlier_parse_fields fuel s r Hr) as [_ [_ [Hd _]]].
  rewrite Hd. unfold allDateMatches, matchAll, exec.
  rewrite hd_error_map, scan_head. reflexivity.
Qed.

(** X12.  The two implementations on the date.  The earlier [parse]
    returns the first candidate of the date pattern as it is.  The later
    one returns a date for the same texts, and the same date whenever
    that first candidate passes its validation. *)
Theorem earlier_date_is_first_candidate : forall fuel s r currentYear,
  EarlierParser.parse fuel s = Some r ->
  date r = hd_error (allDateMatches s)
  /\ (date r = None <-> date (parse currentYear s) = None)
  /\ (forall d, date r = Some d -> isValidDate currentYear d = true ->
                date (parse currentYear s) = Some d).
Proof.
  intros fuel s r currentYear Hr.
  pose proof (earlier_date_head fuel s r Hr) as Hd.
  split; [exact Hd|]. rewrite Hd. unfold parse. cbn [date]. split.
  - rewrite extractDate_None_iff.
    destruct (allDateMatches s); simpl; split; intros H; try reflexivity;
      discriminate.
  - intros d Hhd Hvalid. unfold extractDate.
    pose proof (allDateMatches_shaped s) as Hshape.
    destruct (allDateMatches s) as [|c cs]; [discriminate|].
    injection Hhd as ->. cbn [find]. rewrite Hvalid. cbn [falsyText].
    apply Forall_inv in Hshape.
    rewrite (dateShaped_not_empty d Hshape). reflexivity.
Qed.

Lemma earlier_date_is_first_candidate_witness :
  exists r,
    EarlierParser.parse 30 (lit "Date: 2024-01-15") = Some r
    /\ date r = hd_error (allDateMatches (lit "Date: 2024-01-15"))
    /\ (date r = None <-> date (parse 2025 (lit "Date: 2024-01-15")) = None)
    /\ (forall d, date r = Some d -> isValidDate 2025 d = true ->
                  date (parse 2025 (lit "Date: 2024-01-15")) = Some d).
Proof.
  eexists. split; [vm_compute; reflexivity|].
  apply (earlier_date_is_first_candidate 30 (lit "Date: 2024-01-15")).
  vm_compute. reflexivity.
Defined.

(** ** The earlier amounts *)

Lemma earlier_amountRegex_inv keywords p rest y :
  Matches true (EarlierParser.amountRegex keywords) (startAt p rest) y ->
  exists tok run dd, cap y = Some tok /\ priceTokenOf tok run dd.
Proof.
  unfold EarlierParser.amountRegex, seq. intros H.
  apply Matches_Seq_inv in H. destruct H as [y1 [_ H]].
  apply Matches_Seq_inv in H. destruct H as [y2 [_ H]].
  apply Matches_Seq_inv in H. destruct H as [y3 [_ H]].
  apply Matches_Seq_inv in H. destruct H as [y4 [_ H]].
  apply priceToken_inv in H. destruct H as [w [run [dd [_ [Hcap Hw]]]]].
  exists w, run, dd. auto.
Qed.

Lemma earlier_extractAmount_hundredths keywords s n :
  flatten (EarlierParser.extractAmount (EarlierParser.amountRegex keywords) s) = Some n ->
  exists ds, Forall (fun c => isDigit c = true) ds /\ n = hundredths ds.
Proof.
  unfold EarlierParser.extractAmount.
  destruct (exec true (EarlierParser.amountRegex keywords) s) as [m|] eqn:E;
    [|discriminate].
  apply exec_leftmost in E. destruct E as [_ [[y [HM [Hg _]]] _]].
  apply earlier_amountRegex_inv in HM. destruct HM as [tok [run [dd [Hcap Hw]]]].
  rewrite Hg, Hcap. cbn [flatten].
  rewrite (earlier_parsePrice_token tok run dd Hw).
  intros H. injection H as <-.
  exists (removeAll "," run ++ dd). split; [|reflexivity].
  destruct Hw as [_ [_ [Hrun [_ Hdd]]]]. apply Forall_app. split; [|exact Hdd].
  apply removeAll_digits. exact Hrun.
Qed.

Lemma truthy_nonneg_isPositive n : truthy n = true -> nonneg n -> isPositive n = true.
Proof.
  destruct n as [|neg|q]; simpl; [discriminate| |].
  - intros _ ->. reflexivity.
  - intros -> Hq. rewrite andb_true_r. apply Qle_bool_iff. exact Hq.
Qed.

Lemma earlier_allPrices_spec ms n :
  In n (EarlierParser.allPrices ms) ->
  truthy n = true
  /\ exists m g, In m ms /\ group1 m = Some g /\ EarlierParser.parsePrice g = Some n.
Proof.
  unfold EarlierParser.allPrices. rewrite in_flat_map.
  intros [m [Hm Hn]].
  destruct (group1 m) as [g|] eqn:Hg; [|contradiction].
  destruct (EarlierParser.parsePrice g) as [n'|] eqn:Hp; [|contradiction].
  destruct (truthy n') eqn:Ht; [|contradiction].
  destruct Hn as [<- | []]. split; [exact Ht|]. exists m, g. auto.
Qed.

Lemma earlier_parsePrice_hundredths t n :
  EarlierParser.parsePrice t = Some n ->
  exists ds, Forall (fun c => isDigit c = true) ds /\ n = hundredths ds.
Proof.
  pose proof (earlier_parsePrice_exec t) as H.
  destruct (exec false EarlierParser.priceToken t) as [m|].
  - destruct H as [run [dd [Hw ->]]]. intros E. injection E as <-.
    exists (removeAll "," run ++ dd). split; [|reflexivity].
    destruct Hw as [_ [_ [Hrun [_ Hdd]]]]. apply Forall_app. split; [|exact Hdd].
    apply removeAll_digits. exact Hrun.
  - rewrite H. discriminate.
Qed.

Lemma earlier_parsePrice_nonneg t n :
  EarlierParser.parsePrice t = Some n -> nonneg n.
Proof.
  intros H. apply earlier_parsePrice_hundredths in H. destruct H as [ds [_ ->]].
  apply hundredths_nonneg.
Qed.

(** X13.  No amount, subtotal or tax of a record returned by the earlier
    [parse] is negative; and an amount that is not the one found by the
    keyword pattern, that is one set by the fallback, is strictly
    positive and is the price read in a match of the price pattern. *)
Theorem earlier_amounts_are_not_negative : forall argumentLimit fuel s r,
  EarlierParser.parseOutcome argumentLimit fuel s = Some (Returns r) ->
  (forall n, amount r = Some n \/ subtotalAmount r = Some n \/ taxAmount r = Some n ->
             nonneg n)
  /\ (forall n, amount r = Some n ->
                amount r <> flatten (EarlierParser.extractAmount
                                       EarlierParser.totalRegex s) ->
                isPositive n = true
                /\ exists m g, In m (scan false EarlierParser.priceRegex [] s 0)
                               /\ group1 m = Some g
                               /\ EarlierParser.parsePrice g = Some n).
Proof.
  intros limit fuel s r Hout.
  pose proof (earlier_parseOutcome_returns limit fuel s r Hout) as Hr.
  destruct (earlier_parse_fields fuel s r Hr) as [_ [_ [_ [Hsub Htax]]]].
  assert (Hkw : forall keywords n,
            flatten (EarlierParser.extractAmount (EarlierParser.amountRegex keywords) s)
            = Some n -> nonneg n).
  { intros keywords n H. apply earlier_extractAmount_hundredths in H.
    destruct H as [ds [_ ->]]. apply hundredths_nonneg. }
  assert (Hprices : forall ms, Forall (fun n => isPositive n = true)
                                      (EarlierParser.allPrices ms)).
  { intros ms. apply Forall_forall. intros n Hn.
    apply earlier_allPrices_spec in Hn. destruct Hn as [Ht [m [g [_ [_ Hp]]]]].
    apply truthy_nonneg_isPositive; [exact Ht|].
    apply (earlier_parsePrice_nonneg g n Hp). }
  assert (Hamount :
    amount r = flatten (EarlierParser.extractAmount EarlierParser.totalRegex s)
    \/ exists ms, EarlierParser.execLoop fuel false EarlierParser.priceRegex [] s = Some ms
                  /\ EarlierParser.allPrices ms <> []
                  /\ amount r = Some (Math_max (EarlierParser.allPrices ms))).
  { unfold EarlierParser.parse in Hr.
    destruct (falsyNumber _).
    - destruct (EarlierParser.execLoop _ _ _ _ _) as [ms|]; [|discriminate].
      injection Hr as <-. cbn [amount].
      destruct (0 <? length (EarlierParser.allPrices ms)) eqn:El;
        [|left; reflexivity].
      right. exists ms. split; [reflexivity|]. split; [|reflexivity].
      intros E. rewrite E in El. discriminate.
    - injection Hr as <-. left. reflexivity. }
  split.
  - intros n [Hn | [Hn | Hn]].
    + destruct Hamount as [E | [ms [_ [Hne E]]]]; rewrite E in Hn.
      * apply (Hkw _ _ Hn).
      * injection Hn as <-. apply positive_nonneg, isPositive_positive.
        apply Math_max_isPositive; [exact Hne | apply Hprices].
    + rewrite Hsub in Hn. apply (Hkw _ _ Hn).
    + rewrite Htax in Hn. apply (Hkw _ _ Hn).
  - intros n Hn Hdiff.
    destruct Hamount as [E | [ms [Hloop [Hne E]]]]; [contradiction|].
    rewrite E in Hn. injection Hn as <-.
    split; [apply Math_max_isPositive; [exact Hne | apply Hprices]|].
    destruct (Math_max_isMaximum _ Hne (Hprices ms)) as [Hin _].
    apply earlier_allPrices_spec in Hin. destruct Hin as [_ [m [g [Hm [Hg Hp]]]]].
    exists m, g. split; [|auto].
    rewrite <- (execLoop_Some false EarlierParser.priceRegex ltac:(cbn; lia)
                  fuel s [] ms Hloop).
    exact Hm.
Qed.

Lemma earlier_amounts_are_not_negative_witness :
  exists r,
    EarlierParser.parseOutcome 100 40 (lit "ITEM 5.00 and 12.50") = Some (Returns r)
    /\ (forall n, amount r = Some n \/ subtotalAmount r = Some n
                  \/ taxAmount r = Some n -> nonneg n)
    /\ (forall n, amount r = Some n ->
                  amount r <> flatten (EarlierParser.extractAmount
                                         EarlierParser.totalRegex
                                         (lit "ITEM 5.00 and 12.50")) ->
                  isPositive n = true
                  /\ exists m g,
                       In m (scan false EarlierParser.priceRegex []
                                  (lit "ITEM 5.00 and 12.50") 0)
                       /\ group1 m = Some g
                       /\ EarlierParser.parsePrice g = Some n).
Proof.
  eexists. split; [vm_compute; reflexivity|].
  apply (earlier_amounts_are_not_negative 100 40 (lit "ITEM 5.00 and 12.50")).
  vm_compute. reflexivity.
Defined.


(** * The OCR service *)

Import OcrSpec.

(** ** The greedy run *)

Lemma replaceScan_skip i re r : forall w bef aft,
  replaceScan i re r bef (w ++ aft) (length w) = replaceScan i re r (rev w ++ bef) aft 0.
Proof.
  induction w as [|c w IH]; intros bef aft; [reflexivity|].
  cbn [app length replaceScan]. rewrite IH. cbn [rev]. rewrite <- app_assoc.
  reflexivity.
Qed.

(** A quantified unit with no upper bound, followed by nothing, reads the
    whole run of that unit. *)
Lemma repeat_unit_greedy (mr : mstate -> (mstate -> res mstate) -> res mstate)
    (p : ascii -> bool) :
  (forall x k, mr x k = step p x k) ->
  forall run rest bef cp fuel min,
    Forall (fun d => p d = true) run ->
    match rest with d :: _ => p d = false | [] => True end ->
    min <= length run -> length run < fuel ->
    repeatMatcher mr fuel min None (MState bef (run ++ rest) cp) (fun y => Ok y)
    = Ok (MState (rev run ++ bef) rest cp).
Proof.
  intros Hmr.
  induction run as [|c0 run IH]; intros rest bef cp fuel min Hall Hrest Hmin Hfuel;
    (destruct fuel as [|fuel]; [simpl in Hfuel; lia|]);
    cbn [repeatMatcher option_map]; rewrite Hmr; unfold step; cbn [after app].
  - assert (min = 0) by (simpl in Hmin; lia). subst min. cbn [Nat.eqb].
    destruct rest as [|d rest']; [reflexivity|]. rewrite Hrest. reflexivity.
  - apply Forall_cons_iff in Hall. destruct Hall as [Hc Hall].
    rewrite Hc. unfold endIndex. cbn [before cap length].
    replace (S (length bef) =? length bef) with false
      by (symmetry; apply Nat.eqb_neq; lia).
    rewrite andb_false_r.
    rewrite (IH rest (c0 :: bef) cp fuel (pred min) Hall Hrest);
      [|simpl in Hmin; lia | simpl in Hfuel; lia].
    cbn [rev]. rewrite <- app_assoc.
    destruct (min =? 0); reflexivity.
Qed.

Lemma matcher_spaces x (k : mstate -> res mstate) :
  matcher false OcrService.spaces x k
  = step isSpace x
         (fun y => repeatMatcher (matcher false (Lit " "))
                                 (S (1 + length (after y))) 1 None y k).
Proof. reflexivity. Qed.

Lemma matcher_space x (k : mstate -> res mstate) :
  matcher false (Lit " ") x k = step isSpace x k.
Proof. reflexivity. Qed.

(** What one attempt of [/  +/] finds: the whole run of spaces, when it
    has two spaces or more. *)
Lemma matchAt_spaces bef aft :
  matchAt false OcrService.spaces bef aft =
  match aft with
  | c :: aft' =>
      if isSpace c && startsWithSpace aft'
      then Some (MState (rev (fst (span isSpace aft')) ++ c :: bef)
                        (snd (span isSpace aft')) None)
      else None
  | [] => None
  end.
Proof.
  unfold matchAt. rewrite matcher_spaces. unfold step at 1. cbn [after].
  destruct aft as [|c aft']; [reflexivity|].
  destruct (isSpace c) eqn:Hc; [|reflexivity]. cbn [andb before cap after].
  destruct (span isSpace aft') as [run rest] eqn:Hspan.
  destruct (span_spec _ _ Hspan) as [Haft [Hrun Hrest]].
  cbn [fst snd].
  destruct (startsWithSpace aft') eqn:Hs.
  - rewrite Haft.
    rewrite (repeat_unit_greedy _ isSpace matcher_space run rest (c :: bef) None).
    + reflexivity.
    + exact Hrun.
    + exact Hrest.
    + destruct run as [|d run']; [|simpl; lia].
      exfalso. cbn [app] in Haft. subst aft'.
      destruct rest as [|d rest']; [discriminate|].
      cbn [startsWithSpace] in Hs. congruence.
    + rewrite length_app. lia.
  - cbn [repeatMatcher Nat.add Nat.eqb option_map].
    rewrite matcher_space. unfold step. cbn [after].
    destruct aft' as [|d aft'']; [reflexivity|].
    cbn [startsWithSpace] in Hs. rewrite Hs. reflexivity.
Qed.

Lemma squeeze_run : forall run rest,
  Forall (fun d => isSpace d = true) run -> run <> [] ->
  startsWithSpace rest = false ->
  squeeze (run ++ rest) = " "%char :: squeeze rest.
Proof.
  induction run as [|c run IH]; intros rest Hall Hne Hrest; [congruence|].
  apply Forall_cons_iff in Hall. destruct Hall as [Hc Hall].
  cbn [app squeeze]. rewrite Hc. cbn [andb].
  destruct run as [|d run'].
  - cbn [app]. rewrite Hrest.
    apply Ascii.eqb_eq in Hc. subst c. reflexivity.
  - cbn [app startsWithSpace].
    pose proof (Forall_inv Hall) as Hd. cbn beta in Hd. rewrite Hd.
    apply (IH rest Hall); [discriminate | exact Hrest].
Qed.

(** The global replacement collapses each run of spaces. *)
Lemma replaceScan_squeeze : forall n aft bef,
  length aft <= n ->
  replaceScan false OcrService.spaces (lit " ") bef aft 0 = squeeze aft.
Proof.
  induction n as [|n IH]; intros aft bef Hlen.
  - destruct aft; [|simpl in Hlen; lia].
    cbn [replaceScan]. rewrite matchAt_spaces. reflexivity.
  - destruct aft as [|c aft']; [cbn [replaceScan]; rewrite matchAt_spaces; reflexivity|].
    cbn [replaceScan]. rewrite matchAt_spaces.
    destruct (isSpace c && startsWithSpace aft') eqn:E.
    + destruct (span isSpace aft') as [run rest] eqn:Hspan.
      destruct (span_spec _ _ Hspan) as [Haft [Hrun Hrest]].
      cbn [fst snd].
      assert (Hm : matched (result bef (MState (rev run ++ c :: bef) rest None))
                   = c :: run).
      { unfold result. cbn [matched].
        apply (@between_Extends (MState bef [] None) _ (c :: run)).
        cbn [before rev]. rewrite <- app_assoc. reflexivity. }
      rewrite Hm. cbn [length].
      rewrite Haft, replaceScan_skip.
      rewrite IH by (simpl in Hlen; rewrite Haft, length_app in Hlen; lia).
      apply andb_true_iff in E. destruct E as [Hc Hs].
      change (c :: run ++ rest) with ((c :: run) ++ rest).
      rewrite squeeze_run; [reflexivity | | discriminate |].
      * constructor; assumption.
      * destruct rest as [|d rest']; [reflexivity | exact Hrest].
    + cbn [squeeze]. rewrite E. f_equal. apply IH. simpl in Hlen. lia.
Qed.

Lemma replaceAll_spaces s :
  replaceAll false OcrService.spaces (lit " ") s = squeeze s.
Proof. unfold replaceAll. apply (replaceScan_squeeze (length s)). lia. Qed.

(** ** The cleaned text *)

Lemma singleSpaced_squeeze : forall s, singleSpaced (squeeze s) = true.
Proof.
  assert (Hhead : forall s, startsWithSpace (squeeze s) = startsWithSpace s).
  { induction s as [|c s IH]; [reflexivity|]. cbn [squeeze].
    destruct (isSpace c) eqn:Hc; cbn [andb].
    - destruct (startsWithSpace s) eqn:Hs.
      + rewrite IH. simpl. symmetry. exact Hc.
      + simpl. reflexivity.
    - reflexivity. }
  induction s as [|c s IH]; [reflexivity|]. cbn [squeeze].
  destruct (isSpace c && startsWithSpace s) eqn:E; [exact IH|].
  cbn [singleSpaced]. rewrite Hhead, E, IH. reflexivity.
Qed.

Lemma squeeze_singleSpaced : forall s, singleSpaced s = true -> squeeze s = s.
Proof.
  induction s as [|c s IH]; [reflexivity|]. cbn [singleSpaced squeeze].
  intros H. apply andb_true_iff in H. destruct H as [H1 H2].
  apply negb_true_iff in H1. rewrite H1, (IH H2). reflexivity.
Qed.

Lemma singleSpaced_app : forall a b,
  singleSpaced (a ++ b) = true -> singleSpaced a = true /\ singleSpaced b = true.
Proof.
  induction a as [|c a IH]; intros b H; [auto|].
  cbn [app singleSpaced] in H. apply andb_true_iff in H. destruct H as [H1 H2].
  destruct (IH b H2) as [Ha Hb]. split; [|exact Hb].
  cbn [singleSpaced]. rewrite Ha, andb_true_r.
  destruct (isSpace c); [|reflexivity]. cbn [andb negb] in *.
  destruct a as [|d a']; [reflexivity|]. exact H1.
Qed.

Lemma singleSpaced_substring w s :
  isSubstring w s -> singleSpaced s = true -> singleSpaced w = true.
Proof.
  intros [a [b ->]] H.
  apply singleSpaced_app in H. destruct H as [_ H].
  apply singleSpaced_app in H. apply H.
Qed.

Lemma filter_dropWhile (p : ascii -> bool) : forall s,
  filter (fun d => negb (p d)) (dropWhile p s) = filter (fun d => negb (p d)) s.
Proof.
  induction s as [|c s IH]; [reflexivity|]. cbn [dropWhile filter].
  destruct (p c) eqn:E; cbn [negb]; [exact IH|].
  cbn [filter]. rewrite E. reflexivity.
Qed.

Lemma filter_trim s :
  filter (fun d => negb (isWhiteSpace d)) (trim s)
  = filter (fun d => negb (isWhiteSpace d)) s.
Proof.
  unfold trim, trimEnd, trimStart.
  rewrite <- (rev_involutive (filter _ (rev _))), <- filter_rev, rev_involutive.
  rewrite filter_dropWhile, filter_rev, rev_involutive.
  apply filter_dropWhile.
Qed.

Lemma filter_squeeze : forall s,
  filter (fun d => negb (isSpace d)) (squeeze s) = filter (fun d => negb (isSpace d)) s.
Proof.
  induction s as [|c s IH]; [reflexivity|]. cbn [squeeze].
  destruct (isSpace c) eqn:Hc; cbn [andb].
  - destruct (startsWithSpace s); cbn [filter]; rewrite Hc; exact IH.
  - cbn [filter]. rewrite Hc. cbn [negb]. rewrite IH. reflexivity.
Qed.

Lemma isSpace_isWhiteSpace c : isSpace c = true -> isWhiteSpace c = true.
Proof. intros H. apply Ascii.eqb_eq in H. subst c. reflexivity. Qed.

Lemma filter_squeeze_ws : forall s,
  filter (fun d => negb (isWhiteSpace d)) (squeeze s)
  = filter (fun d => negb (isWhiteSpace d)) s.
Proof.
  induction s as [|c s IH]; [reflexivity|]. cbn [squeeze].
  destruct (isSpace c) eqn:Hc; cbn [andb].
  - destruct (startsWithSpace s); cbn [filter];
      rewrite (isSpace_isWhiteSpace c Hc); exact IH.
  - cbn [filter]. rewrite IH. reflexivity.
Qed.

(** X14.  The cleaning of the text of a PDF.  The global replacement of
    [/  +/] by one space collapses every run of two spaces or more, and
    nothing else: tabs, line feeds and single spaces stay.  With the
    final [trim], the cleaned text has no two spaces in a row and no
    white space at its ends, it keeps the units that are not white space
    in their order, and cleaning it again changes nothing. *)
Theorem pdf_text_cleaning : forall s,
  OcrService.cleanText s = trim (squeeze s)
  /\ singleSpaced (OcrService.cleanText s) = true
  /\ trimmed (OcrService.cleanText s)
  /\ filter (fun d => negb (isSpace d)) (squeeze s)
     = filter (fun d => negb (isSpace d)) s
  /\ filter (fun d => negb (isWhiteSpace d)) (OcrService.cleanText s)
     = filter (fun d => negb (isWhiteSpace d)) s
  /\ OcrService.cleanText (OcrService.cleanText s) = OcrService.cleanText s.
Proof.
  intros s. unfold OcrService.cleanText. rewrite !replaceAll_spaces.
  assert (Hsingle : singleSpaced (trim (squeeze s)) = true).
  { apply (singleSpaced_substring _ (squeeze s));
      [apply trim_substring | apply singleSpaced_squeeze]. }
  split; [reflexivity|]. split; [exact Hsingle|].
  split; [apply trimmed_trim|]. split; [apply filter_squeeze|].
  split; [rewrite filter_trim; apply filter_squeeze_ws|].
  rewrite (squeeze_singleSpaced _ Hsingle).
  apply trim_trimmed, trimmed_trim.
Qed.

(** ** The page renderer *)

Section RenderPageFacts.
Variable Y : Type.
Variable looseEq : Y -> Y -> bool.
Variable falsy : Y -> bool.

Lemma renderItems_acc : forall items lastY txt,
  OcrService.renderItems looseEq falsy lastY txt items
  = txt ++ OcrService.renderItems looseEq falsy lastY [] items.
Proof.
  induction items as [|item rest IH]; intros lastY txt; cbn [OcrService.renderItems].
  - symmetry. apply app_nil_r.
  - destruct (OcrService.sameLine looseEq falsy lastY item).
    + rewrite (IH _ (txt ++ _)), (IH _ ([] ++ _)).
      cbn [app]. rewrite <- !app_assoc. reflexivity.
    + rewrite (IH _ (txt ++ _)), (IH _ ([] ++ _)).
      cbn [app]. rewrite <- !app_assoc. cbn [app]. rewrite <- ?app_assoc.
      reflexivity.
Qed.

Lemma groupLines_not_nil : forall items lastY (current : list (OcrService.textItem Y)),
  OcrSpec.groupLines looseEq falsy lastY current items <> [].
Proof.
  induction items as [|item rest IH]; intros lastY current; cbn [OcrSpec.groupLines].
  - discriminate.
  - destruct (OcrService.sameLine looseEq falsy lastY item); [apply IH | discriminate].
Qed.

Lemma render_groupLines : forall items lastY (current : list (OcrService.textItem Y)),
  joinLines (map (@lineText Y) (OcrSpec.groupLines looseEq falsy lastY current items))
  = lineText current ++ OcrService.renderItems looseEq falsy lastY [] items.
Proof.
  induction items as [|item rest IH]; intros lastY current;
    cbn [OcrSpec.groupLines OcrService.renderItems].
  - cbn [map joinLines]. symmetry. apply app_nil_r.
  - rewrite renderItems_acc.
    destruct (OcrService.sameLine looseEq falsy lastY item).
    + rewrite IH. unfold lineText. rewrite map_app, concat_app. cbn [map concat].
      rewrite app_nil_r, <- app_assoc. reflexivity.
    + cbn [map]. rewrite joinLines_cons.
      * rewrite IH. unfold lineText at 2. cbn [map concat app].
        rewrite app_nil_r. reflexivity.
      * intros E. apply map_eq_nil in E. apply (groupLines_not_nil _ _ _ E).
Qed.

Lemma groupLines_items : forall items lastY (current : list (OcrService.textItem Y)),
  concat (OcrSpec.groupLines looseEq falsy lastY current items) = current ++ items.
Proof.
  induction items as [|item rest IH]; intros lastY current; cbn [OcrSpec.groupLines].
  - cbn [concat]. rewrite app_nil_r. reflexivity.
  - destruct (OcrService.sameLine looseEq falsy lastY item).
    + rewrite IH, <- app_assoc. reflexivity.
    + cbn [concat]. rewrite IH. reflexivity.
Qed.

Lemma lineText_no_newLine (line : list (OcrService.textItem Y)) :
  (forall item, In item line -> ~ In newLine (OcrService.str item)) ->
  ~ In newLine (lineText line).
Proof.
  intros H Hin. unfold lineText in Hin. apply in_concat in Hin.
  destruct Hin as [p [Hp Hnl]]. apply in_map_iff in Hp.
  destruct Hp as [item [<- Hitem]]. unfold piece in Hnl.
  apply in_app_or in Hnl. destruct Hnl as [Hnl | Hnl].
  - apply (H item Hitem Hnl).
  - destruct Hnl as [Hnl | []]. discriminate.
Qed.

(** X15.  The page renderer puts the items on lines: the text of a page
    is the lines of its items joined by line feeds, where a line is a
    group of consecutive items, each followed by one space, and an item
    opens a new line exactly when the item before it has a truthy
    position that differs from its own (so never after an item at
    position 0).  The groups hold all the items in their order, and when
    no item holds a line feed, splitting the page at the line feeds
    gives back the groups. *)
Theorem render_page_lines : forall items,
  let groups := OcrSpec.groupLines looseEq falsy None [] items in
  OcrService.render_page looseEq falsy items = joinLines (map (@lineText Y) groups)
  /\ concat groups = items
  /\ ((forall item, In item items -> ~ In newLine (OcrService.str item)) ->
      split newLine (OcrService.render_page looseEq falsy items) = map (@lineText Y) groups).
Proof.
  intros items groups. subst groups.
  assert (Hjoin : OcrService.render_page looseEq falsy items
                  = joinLines (map (@lineText Y) (OcrSpec.groupLines looseEq falsy None [] items))).
  { rewrite render_groupLines. reflexivity. }
  pose proof (groupLines_items items None []) as Hitems. cbn [app] in Hitems.
  split; [exact Hjoin|]. split; [exact Hitems|].
  intros Hno. rewrite Hjoin. apply split_joinLines.
  - intros E. apply map_eq_nil in E. apply (groupLines_not_nil _ _ _ E).
  - apply Forall_map, Forall_forall. intros line Hline.
    apply lineText_no_newLine. intros item Hitem. apply Hno.
    rewrite <- Hitems. apply in_concat. exists line. auto.
Qed.

End RenderPageFacts.

Lemma render_page_lines_witness :
  split newLine
        (OcrService.render_page Z.eqb (Z.eqb 0)
           [OcrService.TextItem (lit "ACME") 700%Z;
            OcrService.TextItem (lit "STORE") 700%Z;
            OcrService.TextItem (lit "TOTAL") 650%Z;
            OcrService.TextItem (lit "5.00") 650%Z])
  = [lit "ACME STORE "; lit "TOTAL 5.00 "].
Proof.
  apply (proj2 (proj2 (render_page_lines Z Z.eqb (Z.eqb 0)
           [OcrService.TextItem (lit "ACME") 700%Z;
            OcrService.TextItem (lit "STORE") 700%Z;
            OcrService.TextItem (lit "TOTAL") 650%Z;
            OcrService.TextItem (lit "5.00") 650%Z]))).
  intros item Hin. vm_compute in Hin.
  repeat (destruct Hin as [<- | Hin]; [vm_compute; intuition discriminate|]).
  contradiction.
Defined.

(** * The routes *)

Import Routes RoutesSpec.

Lemma eqText_spec a b : eqText a b = true <-> a = b.
Proof.
  unfold eqText. destruct (list_eq_dec Ascii.ascii_dec a b); split; auto; discriminate.
Qed.

Lemma eqText_refl a : eqText a a = true.
Proof. apply eqText_spec. reflexivity. Qed.

Lemma eqText_neq a b : a <> b -> eqText a b = false.
Proof.
  intros H. destruct (eqText a b) eqn:E; [|reflexivity].
  apply eqText_spec in E. contradiction.
Qed.

(** ** The [Map] *)

Lemma mapGet_mapSet_same k v : forall m, mapGet k (mapSet k v m) = Some v.
Proof.
  unfold mapGet. induction m as [|[k' v'] m IH]; cbn [mapSet find fst snd].
  - rewrite eqText_refl. reflexivity.
  - destruct (eqText k' k) eqn:E; cbn [find fst snd].
    + rewrite eqText_refl. reflexivity.
    + rewrite E. exact IH.
Qed.

Lemma mapGet_mapSet_other k v k0 : k0 <> k ->
  forall m, mapGet k0 (mapSet k v m) = mapGet k0 m.
Proof.
  intros Hne. unfold mapGet.
  induction m as [|[k' v'] m IH]; cbn [mapSet find fst snd].
  - rewrite (eqText_neq k k0) by congruence. reflexivity.
  - destruct (eqText k' k) eqn:E; cbn [find fst snd].
    + apply eqText_spec in E. subst k'.
      rewrite (eqText_neq k k0) by congruence. reflexivity.
    + destruct (eqText k' k0); [reflexivity | exact IH].
Qed.

Lemma mapGet_None k : forall m, mapGet k m = None <-> ~ In k (map fst m).
Proof.
  unfold mapGet. induction m as [|[k' v'] m IH]; cbn [find map fst snd In].
  - split; [intros _ [] | reflexivity].
  - destruct (eqText k' k) eqn:E.
    + apply eqText_spec in E. split; [discriminate|]. intros H. exfalso. auto.
    + rewrite IH. split.
      * intros H [Hk | Hk]; [|exact (H Hk)].
        subst k'. rewrite eqText_refl in E. discriminate.
      * intros H Hk. apply H. right. exact Hk.
Qed.

Lemma mapGet_In k r : forall m, mapGet k m = Some r -> In (k, r) m.
Proof.
  unfold mapGet. induction m as [|[k' v'] m IH]; cbn [find fst snd]; [discriminate|].
  destruct (eqText k' k) eqn:E.
  - apply eqText_spec in E. subst k'. intros H. injection H as ->. left. reflexivity.
  - intros H. right. apply IH, H.
Qed.

(** A new key goes to the end. *)
Lemma mapSet_fresh k v : forall m, ~ In k (map fst m) -> mapSet k v m = m ++ [(k, v)].
Proof.
  induction m as [|[k' v'] m IH]; cbn [mapSet map fst In app]; intros H; [reflexivity|].
  rewrite (eqText_neq k' k) by (intros E; apply H; left; exact E).
  rewrite IH by (intros Hk; apply H; right; exact Hk). reflexivity.
Qed.

(** The value of an existing key is replaced where it stands. *)
Lemma mapSet_present k v : forall m,
  In k (map fst m) ->
  exists m1 old m2,
    m = m1 ++ (k, old) :: m2 /\ ~ In k (map fst m1)
    /\ mapSet k v m = m1 ++ (k, v) :: m2.
Proof.
  induction m as [|[k' v'] m IH]; cbn [mapSet map fst In]; intros H; [contradiction|].
  destruct (eqText k' k) eqn:E.
  - apply eqText_spec in E. subst k'. exists [], v', m. auto.
  - destruct H as [H | H]; [subst k'; rewrite eqText_refl in E; discriminate|].
    destruct (IH H) as [m1 [old [m2 [-> [Hm1 ->]]]]].
    exists ((k', v') :: m1), old, m2. split; [reflexivity|]. split; [|reflexivity].
    cbn [map fst In]. intros [Hk | Hk]; [|exact (Hm1 Hk)].
    subst k'. rewrite eqText_refl in E. discriminate.
Qed.

Lemma mapSet_keys k v m :
  map fst (mapSet k v m)
  = match mapGet k m with
    | Some _ => map fst m
    | None => map fst m ++ [k]
    end.
Proof.
  destruct (mapGet k m) as [old|] eqn:E.
  - assert (Hin : In k (map fst m)).
    { apply mapGet_In in E. apply (in_map fst) in E. exact E. }
    destruct (mapSet_present k v m Hin) as [m1 [old' [m2 [-> [_ ->]]]]].
    rewrite !map_app. reflexivity.
  - apply mapGet_None in E. rewrite (mapSet_fresh k v m E), map_app. reflexivity.
Qed.

Lemma mapSet_In k v m e :
  In e (mapSet k v m) -> e = (k, v) \/ In e m.
Proof.
  destruct (mapGet k m) as [old|] eqn:E.
  - assert (Hin : In k (map fst m)).
    { apply mapGet_In in E. apply (in_map fst) in E. exact E. }
    destruct (mapSet_present k v m Hin) as [m1 [old' [m2 [-> [_ ->]]]]].
    intros H. apply in_app_or in H. destruct H as [H | [H | H]].
    + right. apply in_or_app. left. exact H.
    + left. symmetry. exact H.
    + right. apply in_or_app. right. right. exact H.
  - apply mapGet_None in E. rewrite (mapSet_fresh k v m E).
    intros H. apply in_app_or in H. destruct H as [H | [H | []]]; auto.
Qed.

(** ** An upload *)

Lemma postReceipt_accepted u r m :
  accepted u r ->
  postReceipt u m
  = mkOutcome (mkResponse 201 (JsonReceipt r)) (mapSet (uuid u) r m)
              (match file u with Some f => [path f] | None => [] end).
Proof.
  intros [f [t [Hf [Ht [[parsedData Hp] ->]]]]].
  pose proof (parseOutcome_returns _ _ _ _ Hp) as ->.
  unfold postReceipt, receiptOf. rewrite Hf, Ht, Hp. reflexivity.
Qed.

Lemma postReceipt_rejected u m :
  (forall r, ~ accepted u r) ->
  receipts (postReceipt u m) = m
  /\ exists error, json (sent (postReceipt u m)) = JsonError error.
Proof.
  intros H. unfold postReceipt.
  destruct (file u) as [f|] eqn:Hf.
  - destruct (extractText u) as [t|e] eqn:Ht.
    + destruct (ReceiptParser.parseOutcome (argumentLimit u) (currentYear u) t)
        as [parsedData|e] eqn:Hp.
      * exfalso. apply (H (receiptOf u f t)). exists f, t.
        repeat split; auto. exists parsedData. exact Hp.
      * split; [reflexivity|]. eexists. reflexivity.
    + split; [reflexivity|]. eexists. reflexivity.
  - split; [reflexivity|]. eexists. reflexivity.
Qed.

Lemma postReceipt_unlinked u m :
  unlinked (postReceipt u m)
  = match file u with Some f => [path f] | None => [] end.
Proof.
  unfold postReceipt. destruct (file u); [|reflexivity].
  destruct (extractText u); [|reflexivity].
  destruct (ReceiptParser.parseOutcome _ _ _); reflexivity.
Qed.

(** X16.  Upload, then fetch.  Take an upload with a file whose text the
    OCR provider returns.  When the parser returns a record, the upload
    is answered 201 with the receipt built from it: the identifier drawn,
    the original file name, the time, and that record, which carries the
    text; a fetch of that identifier right after returns the same receipt
    with the status 200, and a fetch of any other identifier answers as
    it did before the upload.  When the parser raises its error, the
    upload is answered 500 with the message of the handler, nothing is
    stored and every fetch answers as it did before. *)
Theorem upload_then_fetch : forall u f rawText m,
  file u = Some f ->
  extractText u = inl rawText ->
  let r := receiptOf u f rawText in
  let m' := receipts (postReceipt u m) in
  (forall parsedData,
     ReceiptParser.parseOutcome (argumentLimit u) (currentYear u) rawText
     = Returns parsedData ->
     sent (postReceipt u m) = mkResponse 201 (JsonReceipt r)
     /\ sent (getReceipt (uuid u) m') = mkResponse 200 (JsonReceipt r)
     /\ (forall id', id' <> uuid u ->
                     sent (getReceipt id' m') = sent (getReceipt id' m))
     /\ id r = uuid u /\ filename r = originalname f
     /\ data r = parsedData
     /\ ReceiptParser.rawText parsedData = rawText)
  /\ (forall e,
        ReceiptParser.parseOutcome (argumentLimit u) (currentYear u) rawText
        = Throws e ->
        sent (postReceipt u m)
        = mkResponse 500 (JsonError (lit "Failed to process receipt"))
        /\ m' = m).
Proof.
  intros u f rawText m Hf Ht r m'. subst r m'. split.
  - intros parsedData Hp.
    assert (Hacc : accepted u (receiptOf u f rawText)).
    { exists f, rawText. repeat split; auto. exists parsedData. exact Hp. }
    rewrite (postReceipt_accepted u _ m Hacc). cbn [sent receipts].
    split; [reflexivity|]. split; [|split].
    + unfold getReceipt. rewrite mapGet_mapSet_same. reflexivity.
    + intros id' Hne. unfold getReceipt.
      rewrite (mapGet_mapSet_other _ _ _ Hne).
      destruct (mapGet id' m); reflexivity.
    + rewrite (parseOutcome_returns _ _ _ _ Hp). auto.
  - intros e Hp. unfold postReceipt. rewrite Hf, Ht, Hp. split; reflexivity.
Qed.

Lemma upload_then_fetch_witness :
  let f := mkFile (lit "/tmp/up1") (lit "r.png") in
  let u := mkUpload (Some f) (lit "id-1") (inl (lit "ACME STORE"))
                    (lit "2025-01-01T00:00:00.000Z") 2025 2 in
  let v := mkUpload (Some f) (lit "id-2") (inl (manyPrices 3))
                    (lit "2025-01-01T00:00:00.000Z") 2025 2 in
  sent (getReceipt (lit "id-1") (receipts (postReceipt u [])))
  = mkResponse 200 (JsonReceipt (receiptOf u f (lit "ACME STORE")))
  /\ sent (postReceipt v [])
     = mkResponse 500 (JsonError (lit "Failed to process receipt")).
Proof.
  intros f u v. split.
  - refine (proj1 (proj2 (proj1
      (upload_then_fetch u f (lit "ACME STORE") [] eq_refl eq_refl) _ _))).
    vm_compute. reflexivity.
  - refine (proj1 (proj2
      (upload_then_fetch v f (manyPrices 3) [] eq_refl eq_refl) RangeError _)).
    vm_compute. reflexivity.
Defined.

(** X17.  What an upload changes.  The answer carries a receipt exactly
    when the upload is accepted (a file is there, the OCR provider
    returns a text and the parser returns a record): then the receipt is
    set under its identifier and answered with the status 201.
    Otherwise the [Map] is left as it was and the answer is an error; it
    is the 500 of the handler when the parser raised its error.  In
    every case the receipts stored under other identifiers stay as they
    were and the uploaded file, when there is one, is given to
    [fs.unlink] exactly once; fetching and listing never change the
    [Map]. *)
Theorem upload_effects : forall u m,
  (forall r, json (sent (postReceipt u m)) = JsonReceipt r <-> accepted u r)
  /\ (forall r, accepted u r ->
                receipts (postReceipt u m) = mapSet (uuid u) r m
                /\ sent (postReceipt u m) = mkResponse 201 (JsonReceipt r))
  /\ ((forall r, ~ accepted u r) ->
      receipts (postReceipt u m) = m
      /\ exists error, json (sent (postReceipt u m)) = JsonError error)
  /\ (forall f rawText e,
        file u = Some f -> extractText u = inl rawText ->
        ReceiptParser.parseOutcome (argumentLimit u) (currentYear u) rawText
        = Throws e ->
        postReceipt u m
        = mkOutcome (mkResponse 500 (JsonError (lit "Failed to process receipt")))
                    m [path f])
  /\ (forall k, k <> uuid u ->
                mapGet k (receipts (postReceipt u m)) = mapGet k m)
  /\ unlinked (postReceipt u m)
     = match file u with Some f => [path f] | None => [] end
  /\ (forall id, receipts (getReceipt id m) = m /\ unlinked (getReceipt id m) = [])
  /\ receipts (listReceipts m) = m.
Proof.
  intros u m.
  assert (Hcases : (exists r, accepted u r) \/ (forall r, ~ accepted u r)).
  { destruct (file u) as [f|] eqn:Hf;
      [|right; intros r [f [t [H _]]]; congruence].
    destruct (extractText u) as [t|e] eqn:Ht;
      [|right; intros r [f' [t' [_ [H _]]]]; congruence].
    destruct (ReceiptParser.parseOutcome (argumentLimit u) (currentYear u) t)
      as [parsedData|e] eqn:Hp.
    - left. exists (receiptOf u f t), f, t. repeat split; auto.
      exists parsedData. exact Hp.
    - right. intros r [f' [t' [_ [H [[pd Hpd] _]]]]].
      rewrite Ht in H. injection H as <-. congruence. }
  split; [|split; [|split; [|split; [|split; [|split; [|split]]]]]].
  - intros r. split.
    + intros Hj. destruct Hcases as [[r' Hr'] | Hno].
      * rewrite (postReceipt_accepted u r' m Hr') in Hj. cbn [sent json] in Hj.
        injection Hj as <-. exact Hr'.
      * destruct (postReceipt_rejected u m Hno) as [_ [error He]]. congruence.
    + intros Hr. rewrite (postReceipt_accepted u r m Hr). reflexivity.
  - intros r Hr. rewrite (postReceipt_accepted u r m Hr). auto.
  - apply postReceipt_rejected.
  - intros f t e Hf Ht Hp. unfold postReceipt. rewrite Hf, Ht, Hp. reflexivity.
  - intros k Hk. destruct Hcases as [[r Hr] | Hno].
    + rewrite (postReceipt_accepted u r m Hr). cbn [receipts].
      apply mapGet_mapSet_other. exact Hk.
    + rewrite (proj1 (postReceipt_rejected u m Hno)). reflexivity.
  - apply postReceipt_unlinked.
  - intros id. unfold getReceipt. destruct (mapGet id m); auto.
  - reflexivity.
Qed.

Lemma upload_effects_witness :
  let f := mkFile (lit "/tmp/up1") (lit "r.png") in
  let u := mkUpload (Some f) (lit "id-1") (inl (manyPrices 3))
                    (lit "2025-01-01T00:00:00.000Z") 2025 2 in
  postReceipt u []
  = mkOutcome (mkResponse 500 (JsonError (lit "Failed to process receipt")))
              [] [lit "/tmp/up1"].
Proof.
  intros f u.
  refine (proj1 (proj2 (proj2 (proj2 (upload_effects u []))))
                f (manyPrices 3) RangeError eq_refl eq_refl _).
  vm_compute. reflexivity.
Defined.


(** ** Sequences of requests *)

Lemma handle_wellKeyed (P : upload -> Prop) req m :
  (forall u, req = PostUpload u -> P u) ->
  wellKeyed P m -> wellKeyed P (receipts (handle req m)).
Proof.
  intros HP [Hnd Hin].
  destruct req as [u|k|]; cbn [handle].
  - unfold postReceipt.
    destruct (file u) as [f|] eqn:Hf; [|split; assumption].
    destruct (extractText u) as [t|e] eqn:Ht; [|split; assumption].
    destruct (ReceiptParser.parseOutcome (argumentLimit u) (currentYear u) t)
      as [parsedData|e] eqn:Hp; [|split; assumption].
    pose proof (parseOutcome_returns _ _ _ _ Hp) as Hpd. subst parsedData.
    cbn [receipts]. split.
    + rewrite mapSet_keys. destruct (mapGet (uuid u) m) eqn:E; [exact Hnd|].
      apply mapGet_None in E.
      apply NoDup_app; [exact Hnd | repeat constructor; intros [] |].
      intros x Hx [<- | []]. exact (E Hx).
    + intros k r Hr. apply mapSet_In in Hr. destruct Hr as [Hr | Hr].
      * injection Hr as -> ->. split; [reflexivity|].
        exists u. split; [apply HP; reflexivity|]. exists f, t.
        repeat split; auto. eexists. exact Hp.
      * apply Hin, Hr.
  - unfold getReceipt. destruct (mapGet k m); split; assumption.
  - split; assumption.
Qed.

Lemma serve_wellKeyed (P : upload -> Prop) : forall reqs m,
  (forall u, In (PostUpload u) reqs -> P u) ->
  wellKeyed P m -> wellKeyed P (serve reqs m).
Proof.
  unfold serve. induction reqs as [|req reqs IH]; intros m HP Hm; [exact Hm|].
  cbn [fold_left]. apply IH.
  - intros u Hu. apply HP. right. exact Hu.
  - apply handle_wellKeyed; [|exact Hm].
    intros u ->. apply HP. left. reflexivity.
Qed.

Lemma serve_length : forall reqs m,
  length (serve reqs m)
  <= length m + length (filter isUpload reqs).
Proof.
  unfold serve. induction reqs as [|req reqs IH]; intros m; cbn [fold_left filter].
  - lia.
  - specialize (IH (receipts (handle req m))).
    assert (Hstep : length (receipts (handle req m))
                    <= length m + match req with PostUpload _ => 1 | _ => 0 end).
    { destruct req as [u|k|]; cbn [handle].
      - unfold postReceipt. destruct (file u); [|simpl; lia].
        destruct (extractText u); [|simpl; lia].
        destruct (ReceiptParser.parseOutcome (argumentLimit u) (currentYear u) t)
          as [parsedData|e]; [|simpl; lia].
        cbn [receipts].
        pose proof (f_equal (@length text)
                      (mapSet_keys (uuid u)
                         (mkReceiptResult (uuid u) (originalname f) (now u) parsedData)
                         m)) as L.
        rewrite !length_map in L. rewrite L.
        destruct (mapGet (uuid u) m); rewrite ?length_app, ?length_map; simpl; lia.
      - unfold getReceipt. destruct (mapGet k m); simpl; lia.
      - simpl. lia. }
    destruct req; cbn [isUpload length] in *; lia.
Qed.

Lemma wellKeyed_ids (P : upload -> Prop) m :
  wellKeyed P m -> map id (mapValues m) = map fst m.
Proof.
  intros [_ H]. unfold mapValues. rewrite map_map. apply map_ext_in.
  intros [k r] Hin. cbn [fst snd]. apply (H k r Hin).
Qed.

(** X18.  The [Map] after any sequence of requests, from the empty
    [Map].  Every receipt is stored under its own identifier and was
    built from an accepted upload of the sequence; the listing holds no
    two receipts with the same identifier, and no more receipts than
    there were uploads; a receipt fetched by an identifier carries that
    identifier. *)
Theorem served_receipts_invariant : forall reqs,
  let m := serve reqs [] in
  (forall k r, In (k, r) m ->
               id r = k /\ exists u, In (PostUpload u) reqs /\ accepted u r)
  /\ NoDup (map id (mapValues m))
  /\ length (mapValues m) <= length (filter isUpload reqs)
  /\ (forall k r, sent (getReceipt k m) = mkResponse 200 (JsonReceipt r) ->
                  id r = k).
Proof.
  intros reqs m.
  assert (Hwk : wellKeyed (fun u => In (PostUpload u) reqs) m).
  { apply serve_wellKeyed; [auto|]. split; [constructor | intros k r []]. }
  split; [apply Hwk|]. split; [|split].
  - rewrite (wellKeyed_ids _ m Hwk). apply Hwk.
  - unfold mapValues. rewrite length_map.
    pose proof (serve_length reqs []) as H. cbn [length] in H. exact H.
  - intros k r. unfold getReceipt.
    destruct (mapGet k m) as [r'|] eqn:E; cbn [sent]; [|discriminate].
    intros H. injection H as <-.
    apply mapGet_In in E. apply (proj2 Hwk k r' E).
Qed.

(** X19.  The listing.  The receipts are listed in the order in which
    their identifiers were first stored: an accepted upload with a new
    identifier adds its receipt at the end of the listing, and one whose
    identifier is already stored replaces the receipt of that identifier
    where it stands, so that the listing keeps its length. *)
Theorem listing_order : forall u r m,
  accepted u r ->
  let m' := receipts (postReceipt u m) in
  sent (listReceipts m') = mkResponse 200 (JsonList (mapValues m'))
  /\ (mapGet (uuid u) m = None -> mapValues m' = mapValues m ++ [r])
  /\ (mapGet (uuid u) m <> None ->
      exists m1 old m2,
        m = m1 ++ (uuid u, old) :: m2
        /\ ~ In (uuid u) (map fst m1)
        /\ mapValues m' = mapValues m1 ++ r :: mapValues m2
        /\ length (mapValues m') = length (mapValues m)).
Proof.
  intros u r m Hacc m'. subst m'.
  rewrite (postReceipt_accepted u r m Hacc). cbn [receipts].
  split; [reflexivity|]. split.
  - intros E. apply mapGet_None in E.
    rewrite (mapSet_fresh _ r m E). unfold mapValues. rewrite map_app. reflexivity.
  - intros E.
    assert (Hin : In (uuid u) (map fst m)).
    { destruct (in_dec (list_eq_dec Ascii.ascii_dec) (uuid u) (map fst m)) as [H|H];
        [exact H|]. exfalso. apply E. apply mapGet_None. exact H. }
    destruct (mapSet_present (uuid u) r m Hin) as [m1 [old [m2 [Hm [Hm1 Hset]]]]].
    exists m1, old, m2. split; [exact Hm|]. split; [exact Hm1|].
    rewrite Hset, Hm. unfold mapValues. rewrite !map_app, !length_app.
    cbn [map snd length]. auto.
Qed.

Lemma listing_order_witness :
  let u1 := mkUpload (Some (mkFile (lit "/tmp/up1") (lit "a.png"))) (lit "id-1")
                     (inl (lit "ACME STORE")) (lit "t1") 2025 100 in
  let u2 := mkUpload (Some (mkFile (lit "/tmp/up2") (lit "b.png"))) (lit "id-2")
                     (inl (lit "OTHER SHOP")) (lit "t2") 2025 100 in
  let r1 := receiptOf u1 (mkFile (lit "/tmp/up1") (lit "a.png")) (lit "ACME STORE") in
  let r2 := receiptOf u2 (mkFile (lit "/tmp/up2") (lit "b.png")) (lit "OTHER SHOP") in
  mapValues (receipts (postReceipt u2 [(lit "id-1", r1)])) = [r1; r2].
Proof.
  intros u1 u2 r1 r2.
  apply (proj1 (proj2 (listing_order u2 r2 [(lit "id-1", r1)]
                         (ex_intro _ _ (ex_intro _ _
                            (conj eq_refl (conj eq_refl
                               (conj (ex_intro _ _ eq_refl) eq_refl)))))))).
  reflexivity.
Defined.

(** * The two implementations on the vendor *)




